(** * spider_um: the aggregated-trade spider, embedded and verified

    The development follows [spider_um.py] top to bottom: the string
    helpers behind [parse_url], the effect monad of the script (remote
    store, local staging files, error log, standard output), the
    polars pipeline of [join_to_interval], the publish step
    [upload_to_hf], the per-URL driver [process_one_url] and the main
    loop. *)

From Stdlib Require Import ZArith Lia Ascii String.
From Stdlib Require PrimFloat Uint63.
From stdpp Require Import base list strings gmap fin_maps sorting.

Local Open Scope Z_scope.

(** ** Python string operations used by the script

    A Python [str] is modelled as a Rocq [string]; one [ascii] stands
    for one code point below 256. *)
Module PyStr.

(** [s.startswith(p)]. *)
Fixpoint startswith (p s : string) : bool :=
  match p, s with
  | EmptyString, _ => true
  | String a p', String b s' => if Ascii.eqb a b then startswith p' s' else false
  | String _ _, EmptyString => false
  end.

(** [sub in s]: [sub] occurs at some offset of [s]. *)
Fixpoint contains (sub s : string) : bool :=
  startswith sub s ||
  match s with
  | EmptyString => false
  | String _ s' => contains sub s'
  end.

(** [s.endswith(suf)]: the suffix of [s] of the length of [suf] is [suf]. *)
Fixpoint endswith (s suf : string) : bool :=
  if String.eqb s suf then true
  else match s with
       | EmptyString => false
       | String _ s' => endswith s' suf
       end.

(** [s.split(sep)] for a one-character separator, the only form the
    script uses: every occurrence of [sep] cuts, so the result has
    one more piece than there are separators and is never empty. *)
Fixpoint split (sep : ascii) (s : string) : list string :=
  match s with
  | EmptyString => [EmptyString]
  | String c s' =>
      if Ascii.eqb c sep then EmptyString :: split sep s'
      else match split sep s' with
           | h :: t => String c h :: t
           | [] => [String c EmptyString]
           end
  end.

(** [sep.join(l)]. *)
Fixpoint join (sep : string) (l : list string) : string :=
  match l with
  | [] => EmptyString
  | [x] => x
  | x :: l' => x +:+ sep +:+ join sep l'
  end.

(** [l[-1]]; [None] stands for the IndexError on an empty list. *)
Definition last_item {A} (l : list A) : option A := last l.

(** [l[0]]; [None] stands for the IndexError on an empty list. *)
Definition first_item {A} (l : list A) : option A := head l.

(** [l[-2:]]: the last two items, or the whole list when shorter. *)
Definition last_two {A} (l : list A) : list A :=
  drop (length l - 2)%nat l.

(** [s.replace(old, new)] for a non-empty [old]: occurrences are
    replaced left to right without overlap. [skip] counts the
    characters of a matched occurrence still to be dropped. *)
Fixpoint replace_from (old new : string) (skip : nat) (s : string) : string :=
  match s with
  | EmptyString => EmptyString
  | String c s' =>
      match skip with
      | S k => replace_from old new k s'
      | O =>
          if startswith old s
          then new +:+ replace_from old new (String.length old - 1)%nat s'
          else String c (replace_from old new O s')
      end
  end.

(** With an empty [old] Python inserts [new] before every character
    and at the end. *)
Fixpoint intersperse_all (new s : string) : string :=
  match s with
  | EmptyString => new
  | String c s' => new +:+ String c (intersperse_all new s')
  end.

Definition replace (old new s : string) : string :=
  match old with
  | EmptyString => intersperse_all new s
  | String _ _ => replace_from old new O s
  end.

(** Line boundaries of [str.splitlines] among the code points below
    256: LF, CR, VT, FF, FS, GS, RS and NEL. *)
Definition is_linebreak (c : ascii) : bool :=
  match N_of_ascii c with
  | 10%N | 11%N | 12%N | 13%N | 28%N | 29%N | 30%N | 133%N => true
  | _ => false
  end.

(** [s.splitlines()]: the text is cut at every line boundary, a
    CR LF pair counts as one boundary, and no empty piece is produced
    after a final boundary. The head of the result is the line that
    starts where the text starts. *)
Fixpoint splitlines (s : string) : list string :=
  match s with
  | EmptyString => []
  | String c s' =>
      if is_linebreak c then
        EmptyString ::
        match s' with
        | String c' s'' =>
            if Ascii.eqb c "013" && Ascii.eqb c' "010"
            then splitlines s''
            else splitlines s'
        | EmptyString => []
        end
      else match splitlines s' with
           | h :: t => String c h :: t
           | [] => [String c EmptyString]
           end
  end.

End PyStr.

(** ** Exceptions and results

    A Python exception is kept as its class name and the text that
    [str(e)] gives; [Raise] is a raised exception, [OK] a normal
    return. *)
Record Exception := mkExn { exn_class : string; exn_msg : string }.

Definition ValueError (msg : string) : Exception := mkExn "ValueError" msg.
Definition IndexError (msg : string) : Exception := mkExn "IndexError" msg.
Definition ComputeError (msg : string) : Exception := mkExn "ComputeError" msg.
Definition InvalidOperationError (msg : string) : Exception :=
  mkExn "InvalidOperationError" msg.

(** The classes that derive from BaseException without deriving from
    Exception. A panic of the polars engine reaches Python as
    [pyo3_runtime.PanicException], which is one of them. *)
Definition base_only_classes : list string :=
  ["BaseException"; "KeyboardInterrupt"; "SystemExit"; "GeneratorExit";
   "BaseExceptionGroup"; "PanicException"].

(** [isinstance(e, Exception)]: what [except Exception] catches. *)
Definition is_Exception (e : Exception) : bool :=
  negb (bool_decide (exn_class e ∈ base_only_classes)).

Inductive result (A : Type) : Type :=
| OK (a : A)
| Raise (e : Exception).
Arguments OK {A} a.
Arguments Raise {A} e.

Definition rbind {A B} (r : result A) (k : A -> result B) : result B :=
  match r with
  | OK a => k a
  | Raise e => Raise e
  end.

Definition rmap {A B} (f : A -> B) (r : result A) : result B :=
  rbind r (fun a => OK (f a)).

Definition is_ok {A} (r : result A) : bool :=
  match r with OK _ => true | Raise _ => false end.

(** ** Int64 arithmetic

    polars computes on Int64 columns with wrap-around. *)
Module Int64.
Definition modulus : Z := 2 ^ 64.
Definition half : Z := 2 ^ 63.
Definition in_range (z : Z) : Prop := - half <= z < half.
Definition wrap (z : Z) : Z := (z + half) mod modulus - half.
Definition add (a b : Z) : Z := wrap (a + b).
Definition sub (a b : Z) : Z := wrap (a - b).
End Int64.

(** ** Float64 columns

    The statements are made over a carrier with the operations the
    aggregations use; two carriers are given, integer ticks and IEEE
    binary64. [f_of_int] is the cast of an integer column to Float64
    that polars inserts when a Float64 column is multiplied by an
    integer one. *)
Class Float64 (F : Type) : Type := {
  f_zero : F;
  f_add : F -> F -> F;
  f_mul : F -> F -> F;
  f_leb : F -> F -> bool;
  f_of_int : Z -> F
}.

(** The laws of exact arithmetic. Binary64 does not satisfy them (a
    NaN is not comparable, infinity times zero is not zero, minus zero
    plus zero is not minus zero); what is stated under them holds of
    values counted exactly, as in [Z_Float64] below, and is marked as
    such. *)
Class Float64Laws (F : Type) `{Float64 F} : Prop := {
  f_add_zero_r : forall x : F, f_add x f_zero = x;
  f_mul_one_r : forall x : F, f_mul x (f_of_int 1) = x;
  f_mul_zero_r : forall x : F, f_mul x (f_of_int 0) = f_zero;
  f_leb_total : forall x y : F, f_leb x y = true \/ f_leb y x = true;
  f_leb_trans : forall x y z : F,
      f_leb x y = true -> f_leb y z = true -> f_leb x z = true
}.

(** Prices and quantities counted in integer ticks. *)
#[export] Instance Z_Float64 : Float64 Z := {|
  f_zero := 0;
  f_add := Z.add;
  f_mul := Z.mul;
  f_leb := Z.leb;
  f_of_int := fun z => z
|}.

(** IEEE binary64, the arithmetic of polars on Float64 columns. The
    cast of an integer rounds to nearest; the script applies it to the
    values 0 and 1 of [is_taker] only. *)
Definition b64_of_int (z : Z) : PrimFloat.float :=
  if z <? 0 then PrimFloat.opp (PrimFloat.of_uint63 (Uint63.of_Z (- z)))
  else PrimFloat.of_uint63 (Uint63.of_Z z).

#[export] Instance Binary64_Float64 : Float64 PrimFloat.float := {|
  f_zero := PrimFloat.zero;
  f_add := PrimFloat.add;
  f_mul := PrimFloat.mul;
  f_leb := PrimFloat.leb;
  f_of_int := b64_of_int
|}.

(** ** Nullable columns and the polars expressions of the script *)
Module Col.
Section Columns.
Context {F : Type} `{Float64 F}.

(** Binary operators give null as soon as one operand is null. *)
Definition lift2 {A B C} (f : A -> B -> C) (x : option A) (y : option B)
  : option C :=
  match x, y with
  | Some a, Some b => Some (f a b)
  | _, _ => None
  end.

(** [a * b] on two columns, row by row. *)
Fixpoint zip_with {A B C} (f : option A -> option B -> option C)
         (xs : list (option A)) (ys : list (option B)) : list (option C) :=
  match xs, ys with
  | x :: xs', y :: ys' => f x y :: zip_with f xs' ys'
  | _, _ => []
  end.

Definition mul (xs ys : list (option F)) : list (option F) :=
  zip_with (lift2 f_mul) xs ys.

(** [.cast(pl.Int8)] of a Boolean column. *)
Definition bool_to_int8 (b : option bool) : option Z :=
  match b with
  | Some true => Some 1
  | Some false => Some 0
  | None => None
  end.

(** Cast of an integer column to Float64. *)
Definition int_to_float (z : option Z) : option F :=
  match z with
  | Some v => Some (f_of_int v)
  | None => None
  end.

(** [.first()] and [.last()]: the first and the last entry of the
    column, null entries included; null on an empty column. *)
Definition first {A} (xs : list (option A)) : option A :=
  match xs with
  | x :: _ => x
  | [] => None
  end.

Definition last {A} (xs : list (option A)) : option A :=
  List.last xs None.

Definition f_max (a b : F) : F := if f_leb a b then b else a.
Definition f_min (a b : F) : F := if f_leb a b then a else b.

(** Accumulation of an aggregate over the non-null entries. *)
Definition step_opt (f : F -> F -> F) (acc : option F) (x : option F) : option F :=
  match acc, x with
  | acc, None => acc
  | None, Some v => Some v
  | Some a, Some v => Some (f a v)
  end.

(** [.max()] and [.min()]: null entries are skipped; null when no
    entry is left. *)
Definition max (xs : list (option F)) : option F :=
  fold_left (step_opt f_max) xs None.

Definition min (xs : list (option F)) : option F :=
  fold_left (step_opt f_min) xs None.

(** [.sum()]: null entries are skipped; zero when no entry is left. *)
Definition sum_step (acc : F) (x : option F) : F :=
  match x with
  | Some v => f_add acc v
  | None => acc
  end.

Definition sum (xs : list (option F)) : F :=
  fold_left sum_step xs f_zero.
End Columns.
End Col.

(** ** Tables

    [RawTrade] is one row of the seven-column table that
    [content_to_lf] scans; with [ignore_errors=True] a field that does
    not parse becomes null, so every field is nullable. *)
Inductive dtype :=
  Int64_t | Float64_t | Boolean_t | Datetime_ms_t | String_t | Categorical_t.

(** A literal column: the string that every row holds, and the dtype
    of the column. *)
Record Literal : Type := mkLiteral { lit_value : string; lit_dtype : dtype }.

(** [pl.lit(s)] for a Python [str]. *)
Definition lit (s : string) : Literal := mkLiteral s String_t.

(** [.cast(dtype)] of a literal column. *)
Definition cast (t : dtype) (l : Literal) : Literal := mkLiteral (lit_value l) t.

Record RawTrade (F : Type) : Type := mkRawTrade {
  agg_trade_id : option Z;
  price : option F;
  quantity : option F;
  first_trade_id : option Z;
  last_trade_id : option Z;
  transact_time : option Z;
  is_buyer_maker : option bool
}.
Arguments mkRawTrade {F}.
Arguments agg_trade_id {F}.
Arguments price {F}.
Arguments quantity {F}.
Arguments first_trade_id {F}.
Arguments last_trade_id {F}.
Arguments transact_time {F}.
Arguments is_buyer_maker {F}.

Definition raw_schema : list (string * dtype) :=
  [("agg_trade_id", Int64_t); ("price", Float64_t); ("quantity", Float64_t);
   ("first_trade_id", Int64_t); ("last_trade_id", Int64_t);
   ("transact_time", Int64_t); ("is_buyer_maker", Boolean_t)].

(** One row of the table that [join_to_interval] builds: the start of
    the window, the nine aggregates and the interval label. *)
Record Kline (F : Type) : Type := mkKline {
  datetime : Z;
  open : option F;
  high : option F;
  low : option F;
  close : option F;
  volume : F;
  quote_volume : F;
  num_trades : option Z;
  taker_buy_volume : F;
  taker_buy_quote_volume : F;
  interval : Literal
}.
Arguments mkKline {F}.
Arguments datetime {F}.
Arguments open {F}.
Arguments high {F}.
Arguments low {F}.
Arguments close {F}.
Arguments volume {F}.
Arguments quote_volume {F}.
Arguments num_trades {F}.
Arguments taker_buy_volume {F}.
Arguments taker_buy_quote_volume {F}.
Arguments interval {F}.

Definition kline_schema : list (string * dtype) :=
  [("datetime", Datetime_ms_t); ("open", Float64_t); ("high", Float64_t);
   ("low", Float64_t); ("close", Float64_t); ("volume", Float64_t);
   ("quote_volume", Float64_t); ("num_trades", Int64_t);
   ("taker_buy_volume", Float64_t); ("taker_buy_quote_volume", Float64_t);
   ("interval", Categorical_t)].

(** A LazyFrame is a deferred computation: it is given by what
    collecting it yields, the rows or the exception raised then. *)
Definition LazyFrame (A : Type) : Type := result (list A).

(** ** The duration strings of [group_by_dynamic]

    The fragment of the polars duration language with the units of
    fixed width, in milliseconds: one or more terms of a count and a
    unit, as in [1h] or [1h30m], added up. It covers every entry of
    [process_interval]. Other strings (calendar units, a sign, a
    width of zero) are outside the fragment ([None]). *)
Module Duration.
Definition digit (c : ascii) : option Z :=
  let n := Z.of_N (N_of_ascii c) in
  if (48 <=? n) && (n <=? 57) then Some (n - 48) else None.

Fixpoint read_count (acc : option Z) (s : string) : option Z * string :=
  match s with
  | EmptyString => (acc, EmptyString)
  | String c s' =>
      match digit c with
      | Some d => read_count (Some (10 * default 0 acc + d)) s'
      | None => (acc, s)
      end
  end.

(** The letters of a unit, up to the next digit. *)
Fixpoint read_unit (s : string) : string * string :=
  match s with
  | EmptyString => (EmptyString, EmptyString)
  | String c s' =>
      match digit c with
      | Some _ => (EmptyString, s)
      | None => let (u, rest) := read_unit s' in (String c u, rest)
      end
  end.

Definition unit_ms (u : string) : option Z :=
  if String.eqb u "ms" then Some 1
  else if String.eqb u "s" then Some 1000
  else if String.eqb u "m" then Some 60000
  else if String.eqb u "h" then Some 3600000
  else if String.eqb u "d" then Some 86400000
  else None.

(** The sum of the terms of [s]; every term takes at least one
    character, so the length of [s] is fuel enough. *)
Fixpoint parse_terms (fuel : nat) (s : string) : option Z :=
  match fuel with
  | O => None
  | S fuel' =>
      match read_count None s with
      | (Some n, rest) =>
          let (u, rest') := read_unit rest in
          match unit_ms u with
          | Some k =>
              match rest' with
              | EmptyString => Some (n * k)
              | _ =>
                  match parse_terms fuel' rest' with
                  | Some t => Some (n * k + t)
                  | None => None
                  end
              end
          | None => None
          end
      | (None, _) => None
      end
  end.

Definition parse (s : string) : option Z :=
  match parse_terms (String.length s) s with
  | Some w => if 0 <? w then Some w else None
  | None => None
  end.
End Duration.

(** ** [group_by_dynamic] *)
Module Dynamic.
Section Groups.
Context {A : Type}.
Variable index : A -> option Z.

(** The index column must hold no null. *)
Definition no_null (rows : list A) : bool :=
  forallb (fun r => match index r with Some _ => true | None => false end) rows.

(** The index column must be sorted in ascending order. *)
Fixpoint sorted_from (prev : Z) (rows : list A) : bool :=
  match rows with
  | [] => true
  | r :: rs =>
      match index r with
      | Some t => (prev <=? t) && sorted_from t rs
      | None => false
      end
  end.

Definition sorted (rows : list A) : bool :=
  match rows with
  | [] => true
  | r :: rs =>
      match index r with
      | Some t => sorted_from t rs
      | None => false
      end
  end.

(** Lower boundary of the window of width [w], anchored at the
    epoch and closed on the left, that holds the instant [t]. *)
Definition window_start (w t : Z) : Z := t / w * w.

Definition key (w : Z) (r : A) : Z :=
  window_start w (default 0 (index r)).

(** Rows are taken in order; a row joins the window of its
    successor when they share it, and opens a new window before it
    otherwise. *)
Fixpoint windows (w : Z) (rows : list A) : list (Z * list A) :=
  match rows with
  | [] => []
  | r :: rs =>
      match windows w rs with
      | (k, g) :: gs =>
          if key w r =? k then (k, r :: g) :: gs
          else (key w r, [r]) :: (k, g) :: gs
      | [] => [(key w r, [r])]
      end
  end.

(** [lf.group_by_dynamic(index, every=every)] with the defaults of
    polars: period equal to [every], no offset, windows closed on
    the left and labelled by their lower boundary. A null in the
    index column is refused when the frame is collected. What polars
    does with an index column that is not sorted depends on the
    release, and the script pins none: some raise, as here, others
    return rows that are not the windows of the data. Whatever is
    stated about the rows of the result is therefore stated for a
    sorted index, and nothing is drawn from the refusal itself. The
    message texts stand for those of polars, whose wording changes
    between releases; no statement depends on them. *)
Definition group_by_dynamic (every : string) (rows : list A)
  : result (list (Z * list A)) :=
  match Duration.parse every with
  | None => Raise (ComputeError "invalid duration")
  | Some w =>
      if negb (no_null rows)
      then Raise (ComputeError "null values in dynamic group_by not supported")
      else if negb (sorted rows)
      then Raise (InvalidOperationError "argument in operation 'group_by_dynamic' is not sorted")
      else OK (windows w rows)
  end.
End Groups.
End Dynamic.

(** ** [join_to_interval] *)
Section Aggregation.
Context {F : Type} `{Float64 F}.

(** [pl.col("last_trade_id").last() - pl.col("first_trade_id").first() + 1] *)
Definition num_trades_expr (g : list (RawTrade F)) : option Z :=
  Col.lift2 Int64.add
    (Col.lift2 Int64.sub (Col.last (map last_trade_id g))
                         (Col.first (map first_trade_id g)))
    (Some 1).

(** [1 - pl.col("is_buyer_maker").cast(pl.Int8)] *)
Definition is_taker (g : list (RawTrade F)) : list (option Z) :=
  map (fun r => Col.lift2 Z.sub (Some 1) (Col.bool_to_int8 (is_buyer_maker r))) g.

(** [(pl.col("quantity") * is_taker).sum()] *)
Definition taker_buy_volume_expr (g : list (RawTrade F)) : F :=
  Col.sum (Col.mul (map quantity g) (map Col.int_to_float (is_taker g))).

(** [(pl.col("quantity") * pl.col("price") * is_taker).sum()] *)
Definition taker_buy_quote_volume_expr (g : list (RawTrade F)) : F :=
  Col.sum (Col.mul (Col.mul (map quantity g) (map price g))
                   (map Col.int_to_float (is_taker g))).

(** The [agg] of one window, then the [interval] column:
    [pl.lit(interval).alias("interval").cast(pl.Categorical)]. *)
Definition agg (label : string) (kg : Z * list (RawTrade F)) : Kline F :=
  let g := kg.2 in
  {| datetime := kg.1;
     open := Col.first (map price g);
     high := Col.max (map price g);
     low := Col.min (map price g);
     close := Col.last (map price g);
     volume := Col.sum (map quantity g);
     quote_volume := Col.sum (Col.mul (map quantity g) (map price g));
     num_trades := num_trades_expr g;
     taker_buy_volume := taker_buy_volume_expr g;
     taker_buy_quote_volume := taker_buy_quote_volume_expr g;
     interval := cast Categorical_t (lit label) |}.

(** The [datetime] column is [transact_time] read as milliseconds since
    the epoch, so the windows are taken on [transact_time] itself. The
    result is lazy: what [group_by_dynamic] refuses shows when the
    frame is collected. *)
Definition join_to_interval (lf : LazyFrame (RawTrade F)) (interval : string)
  : LazyFrame (Kline F) :=
  rbind lf (fun rows =>
  rbind (Dynamic.group_by_dynamic transact_time interval rows) (fun groups =>
  OK (map (agg interval) groups))).
End Aggregation.

(** ** The world of the script

    What is written to the remote dataset repository and to the local
    staging directory is a parquet file: a collected table carrying the
    two categorical columns [symbol] and [month]. *)
Inductive Frame (F : Type) : Type :=
| RawFrame (rows : list (RawTrade F))
| KlineFrame (rows : list (Kline F)).
Arguments RawFrame {F} rows.
Arguments KlineFrame {F} rows.

Definition frame_schema {F} (fr : Frame F) : list (string * dtype) :=
  match fr with
  | RawFrame _ => raw_schema
  | KlineFrame _ => kline_schema
  end.

Record Parquet (F : Type) : Type := mkParquet {
  pq_frame : Frame F;
  pq_symbol : string;
  pq_month : string
}.
Arguments mkParquet {F}.
Arguments pq_frame {F}.
Arguments pq_symbol {F}.
Arguments pq_month {F}.

Definition parquet_schema {F} (pq : Parquet F) : list (string * dtype) :=
  frame_schema (pq_frame pq) ++ [("symbol", Categorical_t); ("month", Categorical_t)].

Record ParsedURL : Type := mkParsedURL {
  url : string;
  file_name : string;
  symbol : string;
  month_str : string
}.

(** Calls to the collaborators, in the order they are made. *)
Inductive Call : Type :=
| CallGet (url : string)
| CallExtract
| CallSink (path : string)
| CallUpload (path : string)
| CallRemove (path : string).

(** Lines printed to standard output, kept by their kind and
    arguments. *)
Inductive Msg : Type :=
| MsgParsed (res : ParsedURL)
| MsgDownloading (url : string)
| MsgDownloaded (size : nat) (url : string)
| MsgUploadSkipped (path : string)
| MsgUploaded (path : string)
| MsgRemoved (path : string)
| MsgUrlSkipped (url : string)
| MsgInterval (interval : string)
| MsgError (url : string) (msg : string).

(** What the script acts on. [local_files] holds the parquet files of
    the working directory that were written in full and not removed
    since. Directories (those that [mkdir=True] creates stay behind
    after [os.remove]) and whatever a write that failed leaves at its
    path are not part of the state: no statement is made about them. *)
Record World (F : Type) : Type := mkWorld {
  remote : gmap string (Parquet F);
  commits : list string;
  local_files : gmap string (Parquet F);
  stdout : list Msg;
  error_log : string;
  calls : list Call
}.
Arguments mkWorld {F}.
Arguments remote {F}.
Arguments commits {F}.
Arguments local_files {F}.
Arguments stdout {F}.
Arguments error_log {F}.
Arguments calls {F}.

(** The collaborators whose code is not the script's: the snapshot
    [files] taken by [list_repo_files] when the module is loaded, the
    HTTP server, the zip reader, the CSV scanner and the upload end
    point. An answer may depend on the calls made before. *)
Record Env (F : Type) : Type := mkEnv {
  files : list string;
  http_get : list Call -> string -> result string;
  zip_entries : string -> result (list (string * string));
  scan_csv : string -> LazyFrame (RawTrade F);
  hub_upload : list Call -> string -> option Exception
}.
Arguments mkEnv {F}.
Arguments files {F}.
Arguments http_get {F}.
Arguments zip_entries {F}.
Arguments scan_csv {F}.
Arguments hub_upload {F}.

(** The environment of a run that starts from the snapshot [fs]. *)
Definition with_files {F} (fs : list string) (e : Env F) : Env F :=
  mkEnv fs (http_get e) (zip_entries e) (scan_csv e) (hub_upload e).

(** [list_repo_files]: the paths present in the repository. *)
Definition list_repo_files {F} (store : gmap string (Parquet F)) : list string :=
  (map_to_list store).*1.

(** ** The monad of the script: state and exceptions *)
Definition M (F A : Type) : Type := World F -> result A * World F.

Definition ret {F A} (a : A) : M F A := fun w => (OK a, w).

Definition raise {F A} (e : Exception) : M F A := fun w => (Raise e, w).

Definition bind {F A B} (m : M F A) (k : A -> M F B) : M F B :=
  fun w =>
    match m w with
    | (OK a, w') => k a w'
    | (Raise e, w') => (Raise e, w')
    end.

(** [try: m except Exception as e: h e]: an exception that does not
    derive from Exception passes through the handler. *)
Definition try_except {F A} (m : M F A) (h : Exception -> M F A) : M F A :=
  fun w =>
    match m w with
    | (OK a, w') => (OK a, w')
    | (Raise e, w') => if is_Exception e then h e w' else (Raise e, w')
    end.

Definition lift {F A} (r : result A) : M F A := fun w => (r, w).

Declare Scope script_scope.
Delimit Scope script_scope with script.
Notation "x <- m ;; k" := (bind m (fun x => k))
  (at level 100, m at next level, right associativity) : script_scope.
Notation "m ;;; k" := (bind m (fun _ => k))
  (at level 100, right associativity) : script_scope.

(** [for x in l: body x] *)
Fixpoint for_each {F A} (l : list A) (body : A -> M F unit) : M F unit :=
  match l with
  | [] => ret tt
  | x :: l' => bind (body x) (fun _ => for_each l' body)
  end.

Definition print {F} (m : Msg) : M F unit :=
  fun w => (OK tt, mkWorld (remote w) (commits w) (local_files w)
                           (stdout w ++ [m]) (error_log w) (calls w)).

Definition record_call {F} (c : Call) : M F unit :=
  fun w => (OK tt, mkWorld (remote w) (commits w) (local_files w)
                           (stdout w) (error_log w) (calls w ++ [c])).

Definition get_calls {F} : M F (list Call) := fun w => (OK (calls w), w).

Definition newline : string := String "010" EmptyString.

(** ** The script *)
Section Script.
Context {F : Type} `{Float64 F}.
Variable env : Env F.

Local Open Scope script_scope.

Definition process_interval : list string := ["1m"; "5m"; "15m"; "30m"; "1h"].

(** [l[i]] for the indices -1 and 0: IndexError on an empty list. *)
Definition item {A} (o : option A) : result A :=
  match o with
  | Some a => OK a
  | None => Raise (IndexError "list index out of range")
  end.

(** [get_all_urls], on the text that [f.read()] returns. *)
Definition get_all_urls (text : string) : list string :=
  PyStr.splitlines text.

Definition parse_url (url : string) : M F ParsedURL :=
  if negb (PyStr.contains "aggTrades" url)
  then raise (ValueError "URL does not contain 'aggTrades'")
  else if negb (PyStr.contains "futures" url)
  then raise (ValueError "URL does not contain 'futures'")
  else if negb (PyStr.contains "monthly" url)
  then raise (ValueError "URL does not contain 'monthly'")
  else
    file_name <- lift (item (PyStr.last_item (PyStr.split "/" url)));;
    symbol <- lift (item (PyStr.first_item (PyStr.split "-" file_name)));;
    let month_str :=
      PyStr.replace ".zip" ""
        (PyStr.join "-" (PyStr.last_two (PyStr.split "-" file_name))) in
    let res := mkParsedURL url file_name symbol month_str in
    if negb (PyStr.endswith symbol "USDT")
    then raise (ValueError ("Parse failed, Symbol " +:+ symbol +:+
                            " does not end with 'USDT'"))
    else print (MsgParsed res) ;;; ret res.

(** [requests.get] followed by [raise_for_status]: [http_get] gives
    the body, or the exception of a failed transfer or status. *)
Definition download_zip_file (url : string) : M F string :=
  print (MsgDownloading url) ;;;
  history <- get_calls ;;
  record_call (CallGet url) ;;;
  content <- lift (http_get env history url) ;;
  print (MsgDownloaded (String.length content) url) ;;;
  ret content.

(** [.drop_nulls(subset=["agg_trade_id"])] *)
Definition drop_nulls (rows : list (RawTrade F)) : list (RawTrade F) :=
  filter (fun r => is_Some (agg_trade_id r)) rows.

Definition content_to_lf (content : string) : M F (LazyFrame (RawTrade F)) :=
  record_call CallExtract ;;;
  entries <- lift (zip_entries env content) ;;
  entry <- lift (item (PyStr.first_item entries)) ;;
  ret (rmap drop_nulls (scan_csv env entry.2)).

Definition get_kline_out_path (symbol month_str interval : string) : string :=
  "klines/interval=" +:+ interval +:+ "/symbol=" +:+ symbol +:+
  "/month=" +:+ month_str +:+ "/data.parquet".

Definition get_agg_trade_out_path (symbol month_str : string) : string :=
  "agg_trades/symbol=" +:+ symbol +:+ "/month=" +:+ month_str +:+ "/data.parquet".

(** [lf.with_columns] with the two literal categorical columns. *)
Definition with_symbol_month (lf : result (Frame F)) (symbol month_str : string)
  : result (Parquet F) :=
  rmap (fun fr => mkParquet fr symbol month_str) lf.

(** [lf.sink_parquet(out_path, ...)]: the frame is collected and
    written to the local file, replacing what was at the path. When
    the frame fails the write is cut short and the exception of the
    frame is raised: what is at the path then is no file written in
    full, so the path leaves [local_files]. *)
Definition sink_parquet (out_path : string) (lf : result (Parquet F)) : M F unit :=
  record_call (CallSink out_path) ;;;
  fun w =>
    match lf with
    | OK pq =>
        (OK tt, mkWorld (remote w) (commits w)
                        (<[out_path := pq]> (local_files w))
                        (stdout w) (error_log w) (calls w))
    | Raise e =>
        (Raise e, mkWorld (remote w) (commits w)
                          (delete out_path (local_files w))
                          (stdout w) (error_log w) (calls w))
    end.

(** [upload_file(path_or_fileobj=out_path, path_in_repo=out_path, ...)] *)
Definition upload_file (out_path : string) : M F unit :=
  history <- get_calls ;;
  record_call (CallUpload out_path) ;;;
  fun w =>
    match local_files w !! out_path with
    | None => (Raise (mkExn "FileNotFoundError" out_path), w)
    | Some pq =>
        match hub_upload env history out_path with
        | Some e => (Raise e, w)
        | None =>
            (OK tt, mkWorld (<[out_path := pq]> (remote w))
                            (commits w ++ ["Uploaded " +:+ out_path])
                            (local_files w) (stdout w) (error_log w) (calls w))
        end
    end.

(** [os.remove(out_path)] *)
Definition os_remove (out_path : string) : M F unit :=
  record_call (CallRemove out_path) ;;;
  fun w =>
    match local_files w !! out_path with
    | None => (Raise (mkExn "FileNotFoundError" out_path), w)
    | Some _ =>
        (OK tt, mkWorld (remote w) (commits w) (delete out_path (local_files w))
                        (stdout w) (error_log w) (calls w))
    end.

Definition upload_to_hf (out_path : string) (lf : result (Frame F))
           (symbol month_str : string) (skip_exist : bool) : M F unit :=
  if skip_exist && bool_decide (out_path ∈ files env)
  then print (MsgUploadSkipped out_path)
  else
    let lf := with_symbol_month lf symbol month_str in
    sink_parquet out_path lf ;;;
    upload_file out_path ;;;
    print (MsgUploaded out_path) ;;;
    os_remove out_path ;;;
    print (MsgRemoved out_path).

Definition process_one_url (url : string) : M F unit :=
  parse_res <- parse_url url ;;
  let out_path := get_agg_trade_out_path (symbol parse_res) (month_str parse_res) in
  if bool_decide (out_path ∈ files env)
  then print (MsgUrlSkipped url)
  else
    content <- download_zip_file url ;;
    lf <- content_to_lf content ;;
    upload_to_hf out_path (rmap RawFrame lf)
                 (symbol parse_res) (month_str parse_res) true ;;;
    for_each process_interval (fun interval =>
      print (MsgInterval interval) ;;;
      let interval_lf := join_to_interval lf interval in
      let out_path :=
        get_kline_out_path (symbol parse_res) (month_str parse_res) interval in
      upload_to_hf out_path (rmap KlineFrame interval_lf)
                   (symbol parse_res) (month_str parse_res) true).

(** [log_file.write(f"{url}\nError: {e}\n")] on the file opened for
    appending. *)
Definition append_error_log (entry : string) : M F unit :=
  fun w => (OK tt, mkWorld (remote w) (commits w) (local_files w)
                           (stdout w) (error_log w +:+ entry) (calls w)).

Definition error_entry (url : string) (e : Exception) : string :=
  url +:+ newline +:+ "Error: " +:+ exn_msg e +:+ newline.

(** The body of the loop of the main block. *)
Definition attempt (url : string) : M F unit :=
  try_except (process_one_url url) (fun e =>
    print (MsgError url (exn_msg e)) ;;;
    append_error_log (error_entry url e)).

Definition main_loop (urls : list string) : M F unit :=
  for_each urls attempt.

(** The main block, on the text of the file named by [--url-file]. *)
Definition main (text : string) : M F unit :=
  main_loop (get_all_urls text).
End Script.

(** ** The vocabulary of the statements *)
Module Contract.
(** The character [c] occurs in [s]. *)
Fixpoint has_char (c : ascii) (s : string) : bool :=
  match s with
  | EmptyString => false
  | String a s' => Ascii.eqb a c || has_char c s'
  end.

Fixpoint all_digits (s : string) : bool :=
  match s with
  | EmptyString => true
  | String a s' =>
      match Duration.digit a with
      | Some _ => all_digits s'
      | None => false
      end
  end.

(** [<SYMBOL>-aggTrades-<YYYY>-<MM>.zip] *)
Definition archive_name (sym yyyy mm : string) : string :=
  sym +:+ "-aggTrades-" +:+ yyyy +:+ "-" +:+ mm +:+ ".zip".

(** The filename contract: the symbol token holds no hyphen and no
    slash, the year is four digits and the month two. *)
Record filename_contract (sym yyyy mm : string) : Prop := {
  sym_no_hyphen : has_char "-" sym = false;
  sym_no_slash : has_char "/" sym = false;
  year_digits : all_digits yyyy = true;
  year_length : String.length yyyy = 4%nat;
  month_digits : all_digits mm = true;
  month_length : String.length mm = 2%nat
}.

(** A text file whose lines are each closed by a line feed. *)
Fixpoint unlines (lines : list string) : string :=
  match lines with
  | [] => EmptyString
  | l :: ls => l +:+ newline +:+ unlines ls
  end.

Fixpoint has_linebreak (s : string) : bool :=
  match s with
  | EmptyString => false
  | String a s' => PyStr.is_linebreak a || has_linebreak s'
  end.

(** The world after the handler of the main loop has reported [e]
    for [url]. *)
Definition reported {F} (url : string) (e : Exception) (w : World F) : World F :=
  mkWorld (remote w) (commits w) (local_files w)
          (stdout w ++ [MsgError url (exn_msg e)])
          (error_log w +:+ url +:+ newline +:+ "Error: " +:+ exn_msg e +:+ newline)
          (calls w).

(** The world after a publish that went through. *)
Definition published {F} (path : string) (pq : Parquet F) (w : World F) : World F :=
  mkWorld (<[path := pq]> (remote w))
          (commits w ++ ["Uploaded " +:+ path])
          (delete path (<[path := pq]> (local_files w)))
          (stdout w ++ [MsgUploaded path; MsgRemoved path])
          (error_log w)
          (calls w ++ [CallSink path; CallUpload path; CallRemove path]).

(** The world after a publish that was skipped. *)
Definition skipped {F} (path : string) (w : World F) : World F :=
  mkWorld (remote w) (commits w) (local_files w)
          (stdout w ++ [MsgUploadSkipped path]) (error_log w) (calls w).

(** The instant of a trade, in milliseconds since the epoch. *)
Definition instant {F} (r : RawTrade F) : Z := default 0 (transact_time r).

(** A row that no row of the list precedes in time, and one that no
    row follows. *)
Definition earliest {F} (rows : list (RawTrade F)) (r : RawTrade F) : Prop :=
  r ∈ rows /\ Forall (fun r' => instant r <= instant r') rows.

Definition latest {F} (rows : list (RawTrade F)) (r : RawTrade F) : Prop :=
  r ∈ rows /\ Forall (fun r' => instant r' <= instant r) rows.

(** The prices of the rows, nulls left out. *)
Definition prices {F} (rows : list (RawTrade F)) : list F := omap price rows.

(** [<=] orders the values of [ps]: any two are comparable, and the
    comparison is transitive. On binary64 this says that none of them
    is NaN. *)
Definition comparable {F} `{Float64 F} (ps : list F) : bool :=
  forallb (fun x => forallb (fun y => f_leb x y || f_leb y x) ps) ps &&
  forallb (fun x => forallb (fun y => forallb (fun z =>
    implb (f_leb x y && f_leb y z) (f_leb x z)) ps) ps) ps.

(** The rows in which the buyer is the taker. *)
Definition taker_rows {F} (rows : list (RawTrade F)) : list (RawTrade F) :=
filter (fun r => is_buyer_maker r = Some false) rows.

(** The largest and the smallest entry of an integer column, null
    entries skipped. *)
Definition z_extremum (pick : Z -> Z -> Z) (xs : list (option Z)) : option Z :=
fold_left (fun acc x =>
             match acc, x with
             | acc, None => acc
             | None, Some v => Some v
             | Some a, Some v => Some (pick a v)
             end) xs None.

(** The trade count as the testable property words it:
    max last_trade_id - min first_trade_id + 1. *)
Definition extremal_num_trades {F} (rows : list (RawTrade F)) : option Z :=
match z_extremum Z.max (map last_trade_id rows),
      z_extremum Z.min (map first_trade_id rows) with
| Some hi, Some lo => Some (hi - lo + 1)
| _, _ => None
end.

(** What one row adds to the quote volume, to the taker volume and to
  the taker quote volume: null as soon as a factor is null. *)
Definition quote_term {F} `{Float64 F} (r : RawTrade F) : option F :=
Col.lift2 f_mul (quantity r) (price r).

Definition taker_term {F} `{Float64 F} (r : RawTrade F) : option F :=
Col.lift2 f_mul (quantity r)
  (Col.int_to_float (Col.lift2 Z.sub (Some 1) (Col.bool_to_int8 (is_buyer_maker r)))).

Definition taker_quote_term {F} `{Float64 F} (r : RawTrade F) : option F :=
Col.lift2 f_mul (Col.lift2 f_mul (quantity r) (price r))
  (Col.int_to_float (Col.lift2 Z.sub (Some 1) (Col.bool_to_int8 (is_buyer_maker r)))).

(** The product of the quantity of a row by its taker flag is exact:
    the quantity itself for a taker row, zero for a maker row. On
    binary64 this holds of every quantity that is finite and not
    negative. *)
Definition exact_taker_row {F} `{Float64 F} (r : RawTrade F) : Prop :=
  match is_buyer_maker r, quantity r with
  | Some false, Some q => f_mul q (f_of_int 1) = q
  | Some true, Some q => f_mul q (f_of_int 0) = f_zero
  | _, _ => True
  end.

(** The taker products of the rows are exact, and adding zero leaves
    the running sum of the taker quantities as it is wherever the sum
    is cut. *)
Definition exact_taker {F} `{Float64 F} (rows : list (RawTrade F)) : Prop :=
  Forall exact_taker_row rows /\
  forall n : nat,
    let acc := Col.sum (map quantity (taker_rows (take n rows))) in
    f_add acc f_zero = acc.

(** One turn of the loop of [process_one_url] over the intervals. *)
Definition interval_step {F} `{Float64 F} (env : Env F)
         (lf : LazyFrame (RawTrade F)) (sym month i : string) : M F unit :=
bind (print (MsgInterval i)) (fun _ =>
  upload_to_hf env (get_kline_out_path sym month i)
               (rmap KlineFrame (join_to_interval lf i)) sym month true).

(** A result that raises nothing but what derives from Exception. *)
Definition result_caught {A} (r : result A) : Prop :=
  forall e, r = Raise e -> is_Exception e = true.

(** A computation that raises nothing but what derives from Exception,
    and whose value, when it returns one, satisfies [Q]. *)
Definition sound {F A} (Q : A -> Prop) (m : M F A) : Prop :=
  forall w,
    match (m w).1 with
    | OK a => Q a
    | Raise e => is_Exception e = true
    end.

(** Collaborators that raise nothing but what derives from Exception:
    the HTTP client, the zip reader, the scanned frame when it is
    collected, and the upload end point. *)
Definition collaborators_raise_exceptions {F} (env : Env F) : Prop :=
  (forall history u, result_caught (http_get env history u)) /\
  (forall content, result_caught (zip_entries env content)) /\
  (forall data, result_caught (scan_csv env data)) /\
  (forall history path e,
     hub_upload env history path = Some e -> is_Exception e = true).

(** A computation that leaves the error log alone. *)
Definition keeps_error_log {F A} (m : M F A) : Prop :=
  forall w, error_log (m w).2 = error_log w.

(** The symbol that [parse_url] derives: the first hyphen-delimited
    token of the last slash-delimited piece. *)
Definition derived_symbol (url : string) : option string :=
  match PyStr.last_item (PyStr.split "/" url) with
  | Some file_name => PyStr.first_item (PyStr.split "-" file_name)
  | None => None
  end.

(** Number of [upload_file] calls made for [path]. *)
Fixpoint count_uploads (path : string) (cs : list Call) : nat :=
  match cs with
  | [] => O
  | CallUpload p :: cs' =>
      if String.eqb p path then S (count_uploads path cs') else count_uploads path cs'
  | _ :: cs' => count_uploads path cs'
  end.

(** A call that reaches the network: a download or an upload. *)
Definition is_network_call (c : Call) : bool :=
  match c with
  | CallGet _ | CallUpload _ => true
  | _ => false
  end.
End Contract.

(** ** A concrete run, used to exercise the statements *)
Module Demo.
Definition trade (t p q a b : Z) (m : option bool) : RawTrade Z :=
  mkRawTrade (Some a) (Some p) (Some q) (Some a) (Some b) (Some t) m.

(** Four trades over two hours; the second has no parsable
    [is_buyer_maker]. *)
Definition rows : list (RawTrade Z) :=
  [trade 0 10 1 1 2 (Some true); trade 59999 12 2 3 3 None;
   trade 60000 11 5 4 9 (Some false); trade 3600000 7 7 10 10 (Some true)].

(** Two trades of one hour whose trade ids do not follow the order of
  the rows. *)
Definition crossed_rows : list (RawTrade Z) :=
[trade 0 10 1 5 9 (Some false); trade 1 12 2 1 3 (Some false)].

(** Two trades of one hour whose rows are not in the order of time. *)
Definition unsorted_rows : list (RawTrade Z) :=
  [trade 1 12 2 2 2 (Some false); trade 0 10 1 1 1 (Some false)].

(** Two trades of two hours, the later one first. *)
Definition swapped_hours : list (RawTrade Z) :=
  [trade 3600000 7 7 2 2 (Some true); trade 0 10 1 1 1 (Some true)].

(** A trade in binary64, prices and quantities given as integers. *)
Definition trade64 (t p q a b : Z) (m : option bool) : RawTrade PrimFloat.float :=
  mkRawTrade (Some a) (Some (b64_of_int p)) (Some (b64_of_int q))
             (Some a) (Some b) (Some t) m.

(** The three trades of the first hour of [rows], in binary64. *)
Definition rows64 : list (RawTrade PrimFloat.float) :=
  [trade64 0 10 1 1 2 (Some true); trade64 59999 12 2 3 3 None;
   trade64 60000 11 5 4 9 (Some false)].

(** Two trades of one hour, sorted by time; the first, in which the
    buyer is the maker, has a quantity that reads as infinity. *)
Definition overflowing_rows : list (RawTrade PrimFloat.float) :=
  [mkRawTrade (Some 1) (Some (b64_of_int 10)) (Some PrimFloat.infinity)
              (Some 1) (Some 1) (Some 0) (Some true);
   trade64 1 11 2 2 2 (Some false)].

(** Two trades of one hour, sorted by time; the price of the first
    reads as NaN. *)
Definition nan_price_rows : list (RawTrade PrimFloat.float) :=
  [mkRawTrade (Some 1) (Some PrimFloat.nan) (Some (b64_of_int 1))
              (Some 1) (Some 1) (Some 0) (Some false);
   trade64 1 11 2 2 2 (Some false)].

Definition base : string :=
  "https://data.binance.vision/data/futures/um/monthly/aggTrades/".

Definition url1 : string := base +:+ "BTCUSDT/BTCUSDT-aggTrades-2024-01.zip".
Definition url2 : string := base +:+ "ETHUSDT/ETHUSDT-aggTrades-2024-01.zip".
Definition url3 : string := base +:+ "SOLUSDT/SOLUSDT-aggTrades-2024-01.zip".

(** The server fails on [url2] only; nothing is in the repository
    when the run starts. *)
Definition env : Env Z :=
  {| files := [];
     http_get := fun _ u =>
       if String.eqb u url2
       then Raise (mkExn "HTTPError" "404 Client Error: Not Found")
       else OK "PK";
     zip_entries := fun c => OK [("trades.csv", c)];
     scan_csv := fun _ => OK rows;
     hub_upload := fun _ _ => None |}.

Definition world0 : World Z := mkWorld ∅ [] ∅ [] "" [].

(** What a panic of the polars engine raises in Python. *)
Definition panic : Exception :=
  mkExn "PanicException" "called `Option::unwrap()` on a `None` value".

(** A server on which every download goes through (the body is named
    after its URL), and on which the archive of [url2] makes the polars
    engine panic when the frame is collected. *)
Definition panicking_env : Env Z :=
  {| files := [];
     http_get := fun _ u => OK u;
     zip_entries := fun c => OK [("trades.csv", c)];
     scan_csv := fun data => if String.eqb data url2 then Raise panic else OK rows;
     hub_upload := fun _ _ => None |}.
End Demo.

(** ** Further vocabulary *)
Module Behaviour.

(** A text file whose lines are each closed by a carriage return and a
    line feed. *)
Fixpoint unlines_crlf (lines : list string) : string :=
  match lines with
  | [] => EmptyString
  | l :: ls => l +:+ String "013" (String "010" (unlines_crlf ls))
  end.

(** A repository whose upload end point refuses every file. *)
Definition refusing_env : Env Z :=
  mkEnv [] (http_get Demo.env) (zip_entries Demo.env) (scan_csv Demo.env)
        (fun _ _ => Some (mkExn "HfHubHTTPError" "503 Server Error")).

(** A frame that fails when it is collected. *)
Definition broken_frame : result (Frame Z) :=
  Raise (ComputeError "conversion failed").

(** An archive server whose zip files hold no entry. *)
Definition empty_zip_env : Env Z :=
  mkEnv [] (http_get Demo.env) (fun _ => OK []) (scan_csv Demo.env)
        (hub_upload Demo.env).

(** The rows of a scan: a trade that occurs twice, a row whose
    [agg_trade_id] did not parse, and a trade whose [is_buyer_maker]
    did not parse. *)
Definition scanned_rows : list (RawTrade Z) :=
  [Demo.trade 0 10 1 1 1 (Some true);
   mkRawTrade None (Some 10) (Some 1) (Some 2) (Some 2) (Some 1) (Some true);
   Demo.trade 0 10 1 1 1 (Some true);
   Demo.trade 2 11 1 3 3 None].

(** An archive server whose zip files hold two entries; the first
    scans to [scanned_rows], the second to nothing. *)
Definition two_entry_env : Env Z :=
  mkEnv [] (http_get Demo.env)
        (fun c => OK [("first.csv", c); ("second.csv", c)])
        (fun _ => OK scanned_rows)
        (hub_upload Demo.env).

(** The world with more lines on standard output and more calls made. *)
Definition touched {F} (ms : list Msg) (cs : list Call) (w : World F) : World F :=
  mkWorld (remote w) (commits w) (local_files w) (stdout w ++ ms)
          (error_log w) (calls w ++ cs).

(** [w'] comes after [w]: no path of the repository is lost, and the
    commits, the calls, the standard output and the error log have
    only been appended to. *)
Definition extends {F} (w w' : World F) : Prop :=
  (forall path, is_Some (remote w !! path) -> is_Some (remote w' !! path)) /\
  (exists l, commits w' = commits w ++ l) /\
  (exists l, calls w' = calls w ++ l) /\
  (exists l, stdout w' = stdout w ++ l) /\
  (exists s, error_log w' = error_log w +:+ s).

Definition monotone {F A} (m : M F A) : Prop :=
  forall w, extends w (m w).2.

(** A computation that leaves the entry of [path] in the repository as
    it is. *)
Definition keeps_path {F A} (path : string) (m : M F A) : Prop :=
  forall w, remote (m w).2 !! path = remote w !! path.

(** The world before anything happened. *)
Definition blank {F} : World F := mkWorld ∅ [] ∅ [] "" [].

(** What [parse_url] returns or raises for a URL; it does not depend on
    the world. *)
Definition parsed (url : string) : result ParsedURL :=
  (parse_url (F:=unit) url blank).1.

(** A URL that needs no work: it is refused by [parse_url], or its raw
    path is in the snapshot. *)
Definition settled {F} (env : Env F) (url : string) : bool :=
  match parsed url with
  | OK p => bool_decide (get_agg_trade_out_path (symbol p) (month_str p) ∈ files env)
  | Raise _ => true
  end.

(** The trade ids of the rows form one run: each row covers the ids
    from its first to its last, and the next row starts right after. *)
Fixpoint contiguous_from {F} (next : Z) (g : list (RawTrade F)) : bool :=
  match g with
  | [] => true
  | r :: g' =>
      match first_trade_id r, last_trade_id r with
      | Some a, Some b => (a =? next) && (a <=? b) && contiguous_from (b + 1) g'
      | _, _ => false
      end
  end.

Definition contiguous {F} (g : list (RawTrade F)) : bool :=
  match g with
  | [] => true
  | r :: _ =>
      match first_trade_id r with
      | Some a => contiguous_from a g
      | None => false
      end
  end.

(** The number of trades that the rows stand for. *)
Fixpoint trade_count {F} (g : list (RawTrade F)) : Z :=
  match g with
  | [] => 0
  | r :: g' =>
      match first_trade_id r, last_trade_id r with
      | Some a, Some b => b - a + 1
      | _, _ => 0
      end + trade_count g'
  end.

(** The calls of one publish that goes through. *)
Definition publish_calls (path : string) : list Call :=
  [CallSink path; CallUpload path; CallRemove path].

End Behaviour.

(** * Properties *)

#[local] Arguments String.append !_ _ / : simpl nomatch.

(** Integer ticks obey the laws of exact arithmetic. *)
#[export] Instance Z_Float64Laws : Float64Laws Z.
Proof.
  split; cbn; intros; lia.
Qed.

(** ** Strings *)
Section StringFacts.
Import PyStr Contract.

Lemma append_assoc (a b c : string) : (a +:+ b) +:+ c = a +:+ (b +:+ c).
Proof. induction a as [|x a IH]; simpl; [reflexivity | by rewrite IH]. Qed.

Lemma has_char_app c a b : has_char c (a +:+ b) = has_char c a || has_char c b.
Proof.
  induction a as [|x a IH]; simpl; [reflexivity|].
  rewrite IH. by rewrite orb_assoc.
Qed.

Lemma split_nonempty sep s : split sep s <> [].
Proof.
  destruct s as [|c s]; simpl; [discriminate|].
  destruct (Ascii.eqb c sep); [discriminate|].
  destruct (split sep s); discriminate.
Qed.

Lemma split_no_sep sep s : has_char sep s = false -> split sep s = [s].
Proof.
  induction s as [|c s IH]; simpl; [reflexivity|].
  intros Hc. apply orb_false_iff in Hc as [Hc Hs].
  rewrite Hc, (IH Hs). reflexivity.
Qed.

(** Splitting distributes over a separator. *)
Lemma split_app sep a b :
  split sep (a +:+ String sep b) = split sep a ++ split sep b.
Proof.
  induction a as [|c a IH]; simpl.
  - by rewrite Ascii.eqb_refl.
  - destruct (Ascii.eqb c sep); [by rewrite IH|].
    rewrite IH. destruct (split sep a) as [|h t] eqn:E; [|reflexivity].
    by apply split_nonempty in E.
Qed.

Lemma last_item_split_app sep a b :
  last_item (split sep (a +:+ String sep b)) = last_item (split sep b).
Proof.
  unfold last_item. rewrite split_app, last_app.
  destruct (last (split sep b)) eqn:E; [reflexivity|].
  apply last_None in E. by apply split_nonempty in E.
Qed.

Lemma last_item_split_is_Some sep s : is_Some (last_item (split sep s)).
Proof.
  unfold last_item. destruct (last (split sep s)) eqn:E; [by eexists|].
  apply last_None in E. by apply split_nonempty in E.
Qed.

Lemma first_item_split_is_Some sep s : is_Some (first_item (split sep s)).
Proof.
  unfold first_item. destruct (split sep s) eqn:E; [|by eexists].
  by apply split_nonempty in E.
Qed.

Lemma derived_symbol_is_Some u : is_Some (derived_symbol u).
Proof.
  unfold derived_symbol.
  destruct (last_item_split_is_Some "/" u) as [f ->].
  apply first_item_split_is_Some.
Qed.

Lemma startswith_app p s : startswith p (p +:+ s) = true.
Proof. induction p as [|c p IH]; simpl; [reflexivity|]. by rewrite Ascii.eqb_refl. Qed.

Lemma contains_here p s : contains p (p +:+ s) = true.
Proof.
  destruct p as [|c p]; [by destruct s|].
  change (startswith (String c p) (String c p +:+ s) || contains (String c p) (p +:+ s) = true).
  by rewrite startswith_app.
Qed.

Lemma contains_app_r p a b : contains p b = true -> contains p (a +:+ b) = true.
Proof.
  intros Hb. induction a as [|c a IH]; simpl; [assumption|].
  change (startswith p (String c (a +:+ b)) || contains p (a +:+ b) = true).
  rewrite IH. apply orb_true_r.
Qed.

Lemma all_digits_has_char c s :
  Duration.digit c = None -> all_digits s = true -> has_char c s = false.
Proof.
  intros Hc. induction s as [|a s IH]; simpl; [reflexivity|].
  destruct (Duration.digit a) eqn:Ha; [|discriminate].
  intros Hs. rewrite (IH Hs), orb_false_r.
  apply Ascii.eqb_neq. intros ->. congruence.
Qed.

(** Removing [".zip"] from a text that ends in it and holds no other
    dot strips the extension. *)
Lemma replace_zip_suffix s :
  has_char "." s = false -> replace ".zip" "" (s +:+ ".zip") = s.
Proof.
  unfold replace. induction s as [|c s IH]; [reflexivity|].
  simpl has_char. intros Hc. apply orb_false_iff in Hc as [Hc Hs].
  change (String c s +:+ ".zip") with (String c (s +:+ ".zip")).
  cbn [replace_from startswith]. rewrite Ascii.eqb_sym, Hc.
  f_equal. by apply IH.
Qed.
End StringFacts.

(** ** [parse_url] *)
Section ParseUrl.
Import PyStr Contract.
Context {F : Type}.

Lemma archive_name_split sym yyyy mm :
  filename_contract sym yyyy mm ->
  split "-" (archive_name sym yyyy mm) = [sym; "aggTrades"; yyyy; mm +:+ ".zip"].
Proof.
  intros [Hs _ Hy _ Hm _]. unfold archive_name.
  change (sym +:+ "-aggTrades-" +:+ yyyy +:+ "-" +:+ mm +:+ ".zip")
    with (sym +:+ String "-" ("aggTrades" +:+ String "-"
            (yyyy +:+ String "-" (mm +:+ ".zip")))).
  rewrite !split_app.
  rewrite (split_no_sep _ sym) by assumption.
  rewrite (split_no_sep _ "aggTrades") by reflexivity.
  rewrite (split_no_sep _ yyyy) by (by apply all_digits_has_char).
  rewrite (split_no_sep _ (mm +:+ ".zip")); [reflexivity|].
  rewrite has_char_app, (all_digits_has_char _ mm) by done. reflexivity.
Qed.

Lemma archive_name_no_slash sym yyyy mm :
  filename_contract sym yyyy mm -> has_char "/" (archive_name sym yyyy mm) = false.
Proof.
  intros [_ Hs Hy _ Hm _]. unfold archive_name.
  rewrite !has_char_app, Hs.
  rewrite (all_digits_has_char _ yyyy), (all_digits_has_char _ mm) by done.
  reflexivity.
Qed.

Lemma year_month_no_dot yyyy mm :
  all_digits yyyy = true -> all_digits mm = true ->
  has_char "." (yyyy +:+ "-" +:+ mm) = false.
Proof.
  intros Hy Hm. rewrite !has_char_app.
  rewrite (all_digits_has_char _ yyyy), (all_digits_has_char _ mm) by done.
  reflexivity.
Qed.

Lemma contains_aggTrades dir sym yyyy mm :
  contains "aggTrades" (dir +:+ "/" +:+ archive_name sym yyyy mm) = true.
Proof.
  unfold archive_name.
  apply contains_app_r, (contains_app_r _ "/"), contains_app_r, (contains_app_r _ "-").
  apply (contains_here "aggTrades").
Qed.

(** C4 - a URL whose trailing filename follows the contract
    [<SYMBOL>-aggTrades-<YYYY>-<MM>.zip] and which passes the checks
    is parsed: the symbol is the first hyphen-delimited token of the
    filename, and the month string is the last two tokens joined by a
    hyphen with [.zip] removed, that is [<YYYY>-<MM>]. *)
Theorem parse_url_filename_contract (dir sym yyyy mm : string) (w : World F) :
  let fname := archive_name sym yyyy mm in
  let u := dir +:+ "/" +:+ fname in
  filename_contract sym yyyy mm ->
  contains "futures" u = true ->
  contains "monthly" u = true ->
  endswith sym "USDT" = true ->
  last_item (split "/" u) = Some fname /\
  first_item (split "-" fname) = Some sym /\
  last_two (split "-" fname) = [yyyy; mm +:+ ".zip"] /\
  exists w',
    parse_url u w = (OK (mkParsedURL u fname sym (yyyy +:+ "-" +:+ mm)), w') /\
    calls w' = calls w.
Proof.
  intros fname u Hc Hfut Hmon Husdt.
  assert (Hlast : last_item (split "/" u) = Some fname).
  { subst u. change (dir +:+ "/" +:+ fname) with (dir +:+ String "/" fname).
    rewrite last_item_split_app, split_no_sep by (by apply archive_name_no_slash).
    reflexivity. }
  assert (Hsplit := archive_name_split _ _ _ Hc). fold fname in Hsplit.
  split; [exact Hlast|]. split; [by rewrite Hsplit|]. split; [by rewrite Hsplit|].
  unfold parse_url.
  rewrite (contains_aggTrades dir sym yyyy mm : contains "aggTrades" u = true).
  rewrite Hfut, Hmon. cbn [negb].
  unfold bind, lift. rewrite Hlast. cbn [item]. rewrite Hsplit. cbn [first_item head item].
  rewrite Husdt. cbn [negb].
  assert (Hmonth : replace ".zip" "" (join "-" (last_two [sym; "aggTrades"; yyyy; mm +:+ ".zip"]))
                   = yyyy +:+ "-" +:+ mm).
  { change (join "-" (last_two [sym; "aggTrades"; yyyy; mm +:+ ".zip"]))
      with (yyyy +:+ "-" +:+ mm +:+ ".zip").
    rewrite <- (append_assoc "-" mm), <- (append_assoc yyyy).
    apply replace_zip_suffix, year_month_no_dot; apply Hc. }
  rewrite Hmonth. eexists. split; reflexivity.
Qed.

End ParseUrl.

(** The witness: the January 2024 archive of BTCUSDT. *)
Lemma parse_url_filename_contract_witness :
  exists w',
    parse_url (F:=Z) Demo.url1 Demo.world0 =
      (OK (mkParsedURL Demo.url1 "BTCUSDT-aggTrades-2024-01.zip" "BTCUSDT" "2024-01"), w').
Proof.
  destruct (parse_url_filename_contract
              "https://data.binance.vision/data/futures/um/monthly/aggTrades/BTCUSDT"
              "BTCUSDT" "2024" "01" Demo.world0) as (_ & _ & _ & w' & Hw & _).
  - by split.
  - reflexivity.
  - reflexivity.
  - reflexivity.
  - exists w'. exact Hw.
Defined.

(** ** Rejected URLs *)
Section Rejection.
Import PyStr Contract.
Context {F : Type} `{Float64 F}.
Variable env : Env F.

Lemma parse_url_raise_process url (w w' : World F) e :
  parse_url url w = (Raise e, w') ->
  process_one_url env url w = (Raise e, w').
Proof. intros Hp. unfold process_one_url, bind. by rewrite Hp. Qed.

Lemma parse_url_missing_marker url (w : World F) :
  contains "aggTrades" url = false \/ contains "futures" url = false \/
  contains "monthly" url = false ->
  exists msg, parse_url url w = (Raise (ValueError msg), w).
Proof.
  intros Hm. unfold parse_url.
  destruct (contains "aggTrades" url); [|by eexists].
  destruct (contains "futures" url); [|by eexists].
  destruct (contains "monthly" url); [|by eexists].
  by destruct Hm as [?|[?|?]].
Qed.

Lemma parse_url_bad_symbol url sym (w : World F) :
  derived_symbol url = Some sym -> endswith sym "USDT" = false ->
  exists msg, parse_url url w = (Raise (ValueError msg), w).
Proof.
  intros Hd He. unfold parse_url.
  destruct (contains "aggTrades" url); [|by eexists].
  destruct (contains "futures" url); [|by eexists].
  destruct (contains "monthly" url); [|by eexists].
  cbn [negb]. unfold derived_symbol in Hd. unfold bind, lift.
  destruct (last_item (split "/" url)) as [f|]; [|discriminate].
  cbn [item]. rewrite Hd. cbn [item]. rewrite He. by eexists.
Qed.

(** C3 - a URL that lacks one of the three markers, or whose derived
    symbol does not end in [USDT], makes [parse_url] raise a
    ValueError; [process_one_url] then raises it too and leaves the
    world as it was: no call to a collaborator, hence no network
    call, is made for that URL. *)
Theorem invalid_url_rejected_before_network (url : string) (w : World F) :
  contains "aggTrades" url = false \/
  contains "futures" url = false \/
  contains "monthly" url = false \/
  (exists sym, derived_symbol url = Some sym /\ endswith sym "USDT" = false) ->
  exists msg,
    parse_url url w = (Raise (ValueError msg), w) /\
    process_one_url env url w = (Raise (ValueError msg), w) /\
    filter (fun c => is_network_call c = true) (calls (process_one_url env url w).2)
    = filter (fun c => is_network_call c = true) (calls w).
Proof.
  intros Hbad.
  assert (exists msg, parse_url url w = (Raise (ValueError msg), w)) as [msg Hp].
  { destruct Hbad as [?|[?|[?|(sym & Hd & He)]]];
      try (apply parse_url_missing_marker; tauto).
    by eapply parse_url_bad_symbol. }
  exists msg. split; [exact Hp|].
  rewrite (parse_url_raise_process _ _ _ _ Hp). by split.
Qed.
End Rejection.

(** The witness: a spot-market symbol quoted in BTC, and the empty
    world. *)
Lemma invalid_url_rejected_before_network_witness :
  exists msg,
    process_one_url Demo.env (Demo.base +:+ "ETHBTC/ETHBTC-aggTrades-2024-01.zip")
                    Demo.world0
    = (Raise (ValueError msg), Demo.world0).
Proof.
  destruct (invalid_url_rejected_before_network Demo.env
              (Demo.base +:+ "ETHBTC/ETHBTC-aggTrades-2024-01.zip") Demo.world0)
    as (msg & _ & Hp & _).
  - right. right. right. exists "ETHBTC". split; reflexivity.
  - exists msg. exact Hp.
Defined.

(** ** The main loop *)
Section MainLoop.
Import PyStr Contract.
Context {F : Type} `{Float64 F}.
Variable env : Env F.

Lemma splitlines_line l rest :
  has_linebreak l = false ->
  splitlines (l +:+ newline +:+ rest) = l :: splitlines rest.
Proof.
  induction l as [|c l IH]; intros Hl.
  - by destruct rest.
  - simpl in Hl. apply orb_false_iff in Hl as [Hc Hl].
    simpl. rewrite Hc. simpl in IH. by rewrite (IH Hl).
Qed.

Lemma splitlines_unlines lines :
  forallb (fun l => negb (has_linebreak l)) lines = true ->
  splitlines (unlines lines) = lines.
Proof.
  induction lines as [|l ls IH]; [reflexivity|].
  cbn [forallb unlines]. intros [Hl Hls]%andb_true_iff.
  rewrite splitlines_line by (by apply negb_true_iff). by rewrite IH.
Qed.

Lemma for_each_app {A} (l1 l2 : list A) (body : A -> M F unit) w :
  for_each (l1 ++ l2) body w =
  match for_each l1 body w with
  | (OK _, w') => for_each l2 body w'
  | (Raise e, w') => (Raise e, w')
  end.
Proof.
  revert w. induction l1 as [|x l1 IH]; intros w; [reflexivity|].
  cbn [app for_each]. unfold bind.
  destruct (body x w) as [[[]|e] w']; [apply IH | reflexivity].
Qed.

(** The handler catches what derives from Exception, and nothing
    else. *)
Lemma attempt_raise url (w w' : World F) e :
  process_one_url env url w = (Raise e, w') ->
  is_Exception e = true ->
  attempt env url w = (OK tt, reported url e w').
Proof. intros Hp He. unfold attempt, try_except. by rewrite Hp, He. Qed.

Lemma attempt_uncaught url (w w' : World F) e :
  process_one_url env url w = (Raise e, w') ->
  is_Exception e = false ->
  attempt env url w = (Raise e, w').
Proof. intros Hp He. unfold attempt, try_except. by rewrite Hp, He. Qed.

Lemma attempt_return url (w w' : World F) :
  process_one_url env url w = (OK tt, w') ->
  attempt env url w = (OK tt, w').
Proof. intros Hp. unfold attempt, try_except. by rewrite Hp. Qed.

Lemma main_loop_cons u us (w : World F) :
  main_loop env (u :: us) w =
    match attempt env u w with
    | (OK _, w1) => main_loop env us w1
    | (Raise e, w1) => (Raise e, w1)
    end.
Proof.
  unfold main_loop. cbn [for_each]. unfold bind.
  by destruct (attempt env u w) as [[[]|e] w'].
Qed.

Lemma main_loop_app us1 us2 (w : World F) :
  main_loop env (us1 ++ us2) w =
    match main_loop env us1 w with
    | (OK _, w1) => main_loop env us2 w1
    | (Raise e, w1) => (Raise e, w1)
    end.
Proof. unfold main_loop. apply for_each_app. Qed.
End MainLoop.

(** ** What the per-URL pipeline leaves alone *)
Create HintDb frame discriminated.

Section ErrorLogFrame.
Import Contract.
Context {F : Type} `{Float64 F}.
Variable env : Env F.

Lemma keeps_ret {A} (a : A) : keeps_error_log (F:=F) (ret a).
Proof. by intros w. Qed.

Lemma keeps_raise {A} e : keeps_error_log (F:=F) (A:=A) (raise e).
Proof. by intros w. Qed.

Lemma keeps_lift {A} (r : result A) : keeps_error_log (F:=F) (lift r).
Proof. by intros w. Qed.

Lemma keeps_print m : keeps_error_log (F:=F) (print m).
Proof. by intros w. Qed.

Lemma keeps_record_call c : keeps_error_log (F:=F) (record_call c).
Proof. by intros w. Qed.

Lemma keeps_get_calls : keeps_error_log (F:=F) get_calls.
Proof. by intros w. Qed.

Lemma keeps_bind {A B} (m : M F A) (k : A -> M F B) :
  keeps_error_log m -> (forall a, keeps_error_log (k a)) ->
  keeps_error_log (bind m k).
Proof.
  intros Hm Hk w. unfold bind. specialize (Hm w).
  destruct (m w) as [[a|e] w']; simpl in *; [|exact Hm].
  by rewrite Hk.
Qed.

Lemma keeps_for_each {A} (l : list A) (body : A -> M F unit) :
  (forall a, keeps_error_log (body a)) -> keeps_error_log (for_each l body).
Proof.
  intros Hb. induction l as [|x l IH]; cbn [for_each].
  - apply keeps_ret.
  - apply keeps_bind; [apply Hb | intros _; exact IH].
Qed.

#[local] Hint Resolve keeps_ret keeps_raise keeps_lift keeps_print keeps_record_call
     keeps_get_calls : frame.

Ltac frame_step :=
  first [ solve [auto with frame]
        | apply keeps_for_each; intros ?
        | apply keeps_bind; [|intros ?] ].

Lemma keeps_parse_url url : keeps_error_log (F:=F) (parse_url url).
Proof.
  unfold parse_url.
  repeat (match goal with |- context [if ?b then _ else _] => destruct b end;
          auto with frame).
  repeat frame_step.
  match goal with |- context [if ?b then _ else _] => destruct b end;
    repeat frame_step.
Qed.

Lemma keeps_download_zip_file url : keeps_error_log (download_zip_file env url).
Proof. unfold download_zip_file. repeat frame_step. Qed.

Lemma keeps_content_to_lf content : keeps_error_log (content_to_lf env content).
Proof. unfold content_to_lf. repeat frame_step. Qed.

Lemma keeps_sink_parquet path lf : keeps_error_log (sink_parquet (F:=F) path lf).
Proof. unfold sink_parquet. repeat frame_step. intros w. by destruct lf. Qed.

Lemma keeps_upload_file path : keeps_error_log (upload_file env path).
Proof.
  unfold upload_file. repeat frame_step. intros w.
  destruct (local_files w !! path); [|reflexivity].
  by destruct (hub_upload env _ path).
Qed.

Lemma keeps_os_remove path : keeps_error_log (os_remove (F:=F) path).
Proof.
  unfold os_remove. repeat frame_step. intros w.
  by destruct (local_files w !! path).
Qed.

#[local] Hint Resolve keeps_parse_url keeps_download_zip_file keeps_content_to_lf
     keeps_sink_parquet keeps_upload_file keeps_os_remove : frame.

Lemma keeps_upload_to_hf path lf sym month skip :
  keeps_error_log (upload_to_hf env path lf sym month skip).
Proof.
  unfold upload_to_hf.
  destruct (skip && bool_decide (path ∈ files env)); cbv zeta; repeat frame_step.
Qed.

#[local] Hint Resolve keeps_upload_to_hf : frame.

Lemma keeps_process_one_url url : keeps_error_log (process_one_url env url).
Proof.
  unfold process_one_url. apply keeps_bind; [auto with frame|]. intros p.
  destruct (bool_decide _); cbv zeta; repeat frame_step.
Qed.
End ErrorLogFrame.

(** ** What the per-URL pipeline can raise *)
Section Caught.
Import Contract.
Context {F : Type} `{Float64 F}.
Variable env : Env F.
Hypothesis env_ok : collaborators_raise_exceptions env.

Lemma sound_weaken {A} (Q R : A -> Prop) (m : M F A) :
  (forall a, Q a -> R a) -> sound Q m -> sound R m.
Proof.
  intros HQR Hm w. specialize (Hm w). destruct (m w).1; [by apply HQR | exact Hm].
Qed.

Lemma sound_ret {A} (Q : A -> Prop) (a : A) : Q a -> sound (F:=F) Q (ret a).
Proof. by intros Ha w. Qed.

Lemma sound_raise {A} (Q : A -> Prop) e :
  is_Exception e = true -> sound (F:=F) Q (raise e).
Proof. by intros He w. Qed.

Lemma sound_lift {A} (r : result A) :
  result_caught r -> sound (F:=F) (fun a => r = OK a) (lift r).
Proof. intros Hr w. cbn. destruct r as [a|e]; [reflexivity | by apply Hr]. Qed.

Lemma sound_print m : sound (F:=F) (fun _ => True) (print m).
Proof. by intros w. Qed.

Lemma sound_record_call c : sound (F:=F) (fun _ => True) (record_call c).
Proof. by intros w. Qed.

Lemma sound_get_calls : sound (F:=F) (fun _ => True) get_calls.
Proof. by intros w. Qed.

Lemma sound_bind {A B} (Q : A -> Prop) (R : B -> Prop) (m : M F A) (k : A -> M F B) :
  sound Q m -> (forall a, Q a -> sound R (k a)) -> sound R (bind m k).
Proof.
  intros Hm Hk w. unfold bind. specialize (Hm w).
  destruct (m w) as [[a|e] w1]; cbn [fst] in *; [by apply Hk | exact Hm].
Qed.

Lemma sound_for_each {A} (l : list A) (body : A -> M F unit) :
  (forall a, sound (fun _ => True) (body a)) -> sound (fun _ => True) (for_each l body).
Proof.
  intros Hb. induction l as [|x l IH]; cbn [for_each]; [by apply sound_ret|].
  eapply sound_bind; [apply Hb | intros _ _; exact IH].
Qed.

Lemma result_caught_item {A} (o : option A) : result_caught (item o).
Proof. destruct o; intros e; [discriminate | by intros [= <-]]. Qed.

Lemma result_caught_rmap {A B} (f : A -> B) (r : result A) :
  result_caught r -> result_caught (rmap f r).
Proof. intros Hr e. destruct r as [a|x]; [discriminate|]. intros [= <-]. by apply Hr. Qed.

Lemma result_caught_join_to_interval (lf : LazyFrame (RawTrade F)) i :
  result_caught lf -> result_caught (join_to_interval lf i).
Proof.
  intros Hlf e. unfold join_to_interval, rbind.
  destruct lf as [rows|x]; [|intros [= <-]; by apply Hlf].
  unfold Dynamic.group_by_dynamic.
  destruct (Duration.parse i); [|by intros [= <-]].
  destruct (negb _); [by intros [= <-]|].
  destruct (negb _); [by intros [= <-] | discriminate].
Qed.

Lemma sound_parse_url url : sound (F:=F) (fun _ => True) (parse_url url).
Proof.
  unfold parse_url.
  repeat (match goal with |- context [if negb ?b then _ else _] => destruct b end;
          cbn [negb]; try (by apply sound_raise)).
  eapply sound_bind; [apply sound_lift, result_caught_item|]. intros f _.
  eapply sound_bind; [apply sound_lift, result_caught_item|]. intros sym _. cbv zeta.
  destruct (negb _); [by apply sound_raise|].
  eapply sound_bind; [apply sound_print | intros _ _; by apply sound_ret].
Qed.

Lemma sound_download_zip_file url :
  sound (fun _ => True) (download_zip_file env url).
Proof.
  destruct env_ok as (Hget & _). unfold download_zip_file.
  eapply sound_bind; [apply sound_print|]. intros _ _.
  eapply sound_bind; [apply sound_get_calls|]. intros history _.
  eapply sound_bind; [apply sound_record_call|]. intros _ _.
  eapply sound_bind; [apply sound_lift, Hget|]. intros content _.
  eapply sound_bind; [apply sound_print | intros _ _; by apply sound_ret].
Qed.

Lemma sound_content_to_lf content :
  sound result_caught (content_to_lf env content).
Proof.
  destruct env_ok as (_ & Hzip & Hscan & _). unfold content_to_lf.
  eapply sound_bind; [apply sound_record_call|]. intros _ _.
  eapply sound_bind; [apply sound_lift, Hzip|]. intros entries _.
  eapply sound_bind; [apply sound_lift, result_caught_item|]. intros entry _.
  apply sound_ret, result_caught_rmap, Hscan.
Qed.

Lemma sound_upload_to_hf path lf sym month skip :
  result_caught lf ->
  sound (fun _ => True) (upload_to_hf env path lf sym month skip).
Proof.
  intros Hlf. destruct env_ok as (_ & _ & _ & Hhub). unfold upload_to_hf.
  destruct (skip && bool_decide (path ∈ files env)); [apply sound_print|]. cbv zeta.
  eapply (sound_bind (fun _ => True)).
  { unfold sink_parquet.
    eapply sound_bind; [apply sound_record_call|]. intros _ _ w.
    pose proof (result_caught_rmap (fun fr => mkParquet fr sym month) lf Hlf) as Hpq.
    unfold with_symbol_month.
    destruct (rmap _ lf) as [pq|e]; [done | by apply Hpq]. }
  intros _ _. eapply (sound_bind (fun _ => True)).
  { unfold upload_file.
    eapply sound_bind; [apply sound_get_calls|]. intros history _.
    eapply sound_bind; [apply sound_record_call|]. intros _ _ w.
    destruct (local_files w !! path); [|reflexivity].
    destruct (hub_upload env history path) eqn:Hh; [by eapply Hhub | done]. }
  intros _ _. eapply sound_bind; [apply sound_print|]. intros _ _.
  eapply (sound_bind (fun _ => True)); [|intros _ _; apply sound_print].
  unfold os_remove. eapply sound_bind; [apply sound_record_call|]. intros _ _ w.
  by destruct (local_files w !! path).
Qed.

Lemma sound_process_one_url url : sound (fun _ => True) (process_one_url env url).
Proof.
  unfold process_one_url.
  eapply sound_bind; [apply sound_parse_url|]. intros p _. cbv zeta.
  destruct (bool_decide _); [apply sound_print|].
  eapply sound_bind; [apply sound_download_zip_file|]. intros content _.
  eapply sound_bind; [apply sound_content_to_lf|]. intros lf Hlf.
  eapply sound_bind; [by apply sound_upload_to_hf, result_caught_rmap|]. intros _ _.
  apply sound_for_each. intros i.
  eapply sound_bind; [apply sound_print|]. intros _ _. cbv zeta.
  by apply sound_upload_to_hf, result_caught_rmap, result_caught_join_to_interval.
Qed.
End Caught.

(** ** Fault isolation and skipping *)
Section Driver.
Import PyStr Contract.
Context {F : Type} `{Float64 F}.
Variable env : Env F.

Lemma parse_url_ok_world url (w w1 : World F) p :
  parse_url url w = (OK p, w1) ->
  w1 = mkWorld (remote w) (commits w) (local_files w)
               (stdout w ++ [MsgParsed p]) (error_log w) (calls w).
Proof.
  unfold parse_url.
  repeat (match goal with |- context [if negb ?b then _ else _] => destruct b end;
          cbn [negb]; try discriminate).
  unfold bind, lift.
  destruct (item (last_item (split "/" url))) as [f|e]; [|discriminate].
  destruct (item (first_item (split "-" f))) as [sy|e]; [|discriminate].
  destruct (endswith sy "USDT"); cbn [negb]; [|discriminate].
  unfold print, ret. cbn. by intros [= <- <-].
Qed.

(** C7, as the code has it - when the loop has reached a URL, a
    failure of that URL that raises an exception derived from Exception
    does not abort the batch: exactly [<url>\nError: <str(e)>\n] is
    appended to the error log and the URLs after it are processed; a
    URL that is processed normally adds nothing to the log; an
    exception that does not derive from Exception is not caught and
    ends the run there. When the collaborators raise nothing but
    exceptions derived from Exception, the loop never raises, whatever
    the list. *)
Theorem failure_does_not_abort_batch (us1 : list string) (url : string)
        (us2 : list string) (w : World F) :
  let w1 := (main_loop env us1 w).2 in
  (main_loop env us1 w).1 = OK tt ->
  (forall e w2,
      process_one_url env url w1 = (Raise e, w2) ->
      is_Exception e = true ->
      attempt env url w1 = (OK tt, reported url e w2) /\
      error_log (reported url e w2) =
        error_log w1 +:+ url +:+ newline +:+ "Error: " +:+ exn_msg e +:+ newline /\
      main_loop env (us1 ++ url :: us2) w = main_loop env us2 (reported url e w2)) /\
  (forall w2,
      process_one_url env url w1 = (OK tt, w2) ->
      error_log w2 = error_log w1 /\
      main_loop env (us1 ++ url :: us2) w = main_loop env us2 w2) /\
  (forall e w2,
      process_one_url env url w1 = (Raise e, w2) ->
      is_Exception e = false ->
      main_loop env (us1 ++ url :: us2) w = (Raise e, w2)) /\
  (collaborators_raise_exceptions env ->
   forall urls (w0 : World F), (main_loop env urls w0).1 = OK tt).
Proof.
  intros w1 Hreach.
  assert (Hsplit : main_loop env (us1 ++ url :: us2) w =
                   match attempt env url w1 with
                   | (OK _, w2) => main_loop env us2 w2
                   | (Raise e, w2) => (Raise e, w2)
                   end).
  { rewrite main_loop_app. unfold w1.
    destruct (main_loop env us1 w) as [[[]|x] wx]; [|discriminate].
    apply main_loop_cons. }
  split; [|split; [|split]].
  - intros e w2 Hp He. rewrite Hsplit, (attempt_raise _ _ _ _ _ Hp He).
    split; [reflexivity|]. split; [|reflexivity].
    cbn [reported error_log].
    pose proof (keeps_process_one_url env url w1) as Hk.
    rewrite Hp in Hk. cbn [snd] in Hk. by rewrite Hk.
  - intros w2 Hp. rewrite Hsplit, (attempt_return _ _ _ _ Hp). split; [|reflexivity].
    pose proof (keeps_process_one_url env url w1) as Hk. by rewrite Hp in Hk.
  - intros e w2 Hp He. by rewrite Hsplit, (attempt_uncaught _ _ _ _ _ Hp He).
  - intros Henv urls. induction urls as [|u us IH]; intros w0; [reflexivity|].
    rewrite main_loop_cons.
    pose proof (sound_process_one_url env Henv u w0) as Hs.
    unfold attempt, try_except.
    destruct (process_one_url env u w0) as [[[]|e] wu]; cbn [fst] in Hs.
    + apply IH.
    + rewrite Hs. unfold bind, print, append_error_log. apply IH.
Qed.

(** C10, as the code has it - the lines of the URL file, empty ones
    included, are the URLs of the loop; an empty line fails in
    [parse_url] on the [aggTrades] check, is reported in the error
    log, and the lines after it are processed. The loop reaches the
    empty line unless a line before it raised an exception that the
    handler does not catch; the run then ends with that exception. *)
Theorem empty_line_is_logged_and_skipped (lines us1 us2 : list string)
        (w : World F) :
  forallb (fun l => negb (has_linebreak l)) lines = true ->
  lines = us1 ++ "" :: us2 ->
  let e := ValueError "URL does not contain 'aggTrades'" in
  get_all_urls (unlines lines) = lines /\
  (forall w' : World F, parse_url "" w' = (Raise e, w')) /\
  (forall w', attempt env "" w' = (OK tt, reported "" e w')) /\
  main env (unlines lines) w =
    match main_loop env us1 w with
    | (OK _, w1) => main_loop env us2 (reported "" e w1)
    | (Raise x, w1) => (Raise x, w1)
    end.
Proof.
  intros Hl -> e.
  assert (He : forall w', attempt env "" w' = (OK tt, reported "" e w')).
  { intros w'. by apply attempt_raise. }
  split; [by apply splitlines_unlines|]. split; [done|]. split; [exact He|].
  unfold main, get_all_urls. rewrite splitlines_unlines by assumption.
  rewrite main_loop_app.
  destruct (main_loop env us1 w) as [[[]|x] w1]; [|reflexivity].
  by rewrite main_loop_cons, He.
Qed.

(** C6 - when the raw output path of a URL is in the snapshot,
    [process_one_url] returns at once: it prints two lines and
    changes nothing else, so neither the download nor the extraction
    is called and nothing is published. *)
Theorem raw_output_present_skips_url (url : string) (w w1 : World F) (p : ParsedURL) :
  parse_url url w = (OK p, w1) ->
  get_agg_trade_out_path (symbol p) (month_str p) ∈ files env ->
  process_one_url env url w =
    (OK tt, mkWorld (remote w) (commits w) (local_files w)
                    (stdout w ++ [MsgParsed p; MsgUrlSkipped url])
                    (error_log w) (calls w)).
Proof.
  intros Hp Hin. unfold process_one_url, bind. rewrite Hp.
  rewrite bool_decide_eq_true_2 by assumption.
  rewrite (parse_url_ok_world _ _ _ _ Hp). unfold print. cbn.
  by rewrite <- app_assoc.
Qed.
End Driver.

(** Witness of C7, the scenario of three URLs of which the second
    cannot be fetched: the run ends normally, the error log holds the
    second URL and its error, and the outputs of the third URL are in
    the repository. *)
Lemma failure_does_not_abort_batch_witness :
  let w' := (main_loop Demo.env [Demo.url1; Demo.url2; Demo.url3] Demo.world0).2 in
  (main_loop Demo.env [Demo.url1; Demo.url2; Demo.url3] Demo.world0).1 = OK tt /\
  error_log w' = Demo.url2 +:+ newline +:+ "Error: 404 Client Error: Not Found" +:+ newline /\
  is_Some (remote w' !! "agg_trades/symbol=SOLUSDT/month=2024-01/data.parquet").
Proof.
  assert (Hreach : (main_loop Demo.env [Demo.url1] Demo.world0).1 = OK tt).
  { vm_compute. reflexivity. }
  destruct (failure_does_not_abort_batch Demo.env [Demo.url1] Demo.url2 [Demo.url3]
              Demo.world0 Hreach) as (_ & _ & _ & Hok).
  split; [|split].
  - apply Hok. split; [|split; [|split]].
    + intros history u e. cbn [http_get Demo.env].
      destruct (String.eqb u Demo.url2); [|discriminate].
      intros Heq. injection Heq as <-. vm_compute. reflexivity.
    + intros content e. discriminate.
    + intros data e. discriminate.
    + intros history path e. discriminate.
  - vm_compute. reflexivity.
  - vm_compute. eexists. reflexivity.
Defined.

(** Counterexample to C7 as stated: three URLs of which the second has
    an archive on which the polars engine panics. The panic does not
    derive from Exception, so the handler of the loop lets it through:
    the run ends with the panic, nothing is written to the error log,
    and the third URL is never requested nor published. *)
Lemma uncaught_panic_aborts_batch :
  let out := main_loop Demo.panicking_env [Demo.url1; Demo.url2; Demo.url3]
                       Demo.world0 in
  (process_one_url Demo.panicking_env Demo.url2
     (main_loop Demo.panicking_env [Demo.url1] Demo.world0).2).1 = Raise Demo.panic /\
  out.1 = Raise Demo.panic /\
  error_log out.2 = "" /\
  (CallGet Demo.url2 ∈ calls out.2) /\
  (CallGet Demo.url3 ∉ calls out.2) /\
  remote out.2 !! "agg_trades/symbol=SOLUSDT/month=2024-01/data.parquet" = None.
Proof.
  intros out.
  assert (Hcalls : exists cs, calls out.2 = cs /\
                     CallGet Demo.url2 ∈ cs /\ CallGet Demo.url3 ∉ cs).
  { eexists. split; [vm_compute; reflexivity|]. split.
    - repeat first [apply list_elem_of_here | apply list_elem_of_further].
    - intros Hin.
      repeat (apply elem_of_cons in Hin as [Hin|Hin]; [discriminate Hin|]).
      by apply elem_of_nil in Hin. }
  destruct Hcalls as (cs & -> & Hin & Hnin).
  split; [vm_compute; reflexivity|]. split; [vm_compute; reflexivity|].
  split; [vm_compute; reflexivity|]. split; [exact Hin|]. split; [exact Hnin|].
  vm_compute. reflexivity.
Qed.

(** Witness of C10 as amended: a file of three lines whose second line
    is empty. *)
Lemma empty_line_is_logged_and_skipped_witness :
  get_all_urls (Contract.unlines [Demo.url1; ""; Demo.url3]) = [Demo.url1; ""; Demo.url3] /\
  error_log (main Demo.env (Contract.unlines [Demo.url1; ""; Demo.url3]) Demo.world0).2
  = newline +:+ "Error: URL does not contain 'aggTrades'" +:+ newline.
Proof.
  destruct (empty_line_is_logged_and_skipped Demo.env [Demo.url1; ""; Demo.url3]
              [Demo.url1] [Demo.url3] Demo.world0 eq_refl eq_refl)
    as (Hlines & _ & _ & Hmain).
  split; [exact Hlines|]. rewrite Hmain. vm_compute. reflexivity.
Defined.

(** Counterexample to C10 as stated: a file of three lines whose
    second line is empty and whose first line names an archive on
    which the polars engine panics. The run ends with the panic: the
    empty line is not processed, nothing is written to the error log
    and the third line is never requested. *)
Lemma panic_keeps_later_lines_unprocessed :
  let lines := [Demo.url2; ""; Demo.url3] in
  let out := main Demo.panicking_env (Contract.unlines lines) Demo.world0 in
  get_all_urls (Contract.unlines lines) = lines /\
  out.1 = Raise Demo.panic /\
  error_log out.2 = "" /\
  stdout out.2 = [MsgParsed (mkParsedURL Demo.url2 "ETHUSDT-aggTrades-2024-01.zip"
                                         "ETHUSDT" "2024-01");
                  MsgDownloading Demo.url2;
                  MsgDownloaded (String.length Demo.url2) Demo.url2] /\
  calls out.2 = [CallGet Demo.url2; CallExtract;
                 CallSink "agg_trades/symbol=ETHUSDT/month=2024-01/data.parquet"].
Proof.
  split; [vm_compute; reflexivity|]. split; [vm_compute; reflexivity|].
  split; [vm_compute; reflexivity|]. split; vm_compute; reflexivity.
Qed.

(** Witness of C6: the raw output of BTCUSDT for January 2024 is
    already in the snapshot. *)
Lemma raw_output_present_skips_url_witness :
  let env := with_files ["agg_trades/symbol=BTCUSDT/month=2024-01/data.parquet"] Demo.env in
  (process_one_url env Demo.url1 Demo.world0).1 = OK tt /\
  calls (process_one_url env Demo.url1 Demo.world0).2 = [] /\
  remote (process_one_url env Demo.url1 Demo.world0).2 = ∅.
Proof.
  intros env.
  rewrite (raw_output_present_skips_url env Demo.url1 Demo.world0 _
             (mkParsedURL Demo.url1 "BTCUSDT-aggTrades-2024-01.zip" "BTCUSDT" "2024-01")
             eq_refl).
  - by repeat split.
  - vm_compute. apply list_elem_of_here.
Defined.

(** ** [upload_to_hf] *)
Section Publish.
Import Contract.
Context {F : Type} `{Float64 F}.

Lemma list_repo_files_spec (store : gmap string (Parquet F)) path :
  path ∈ list_repo_files store <-> is_Some (store !! path).
Proof.
  unfold list_repo_files. rewrite list_elem_of_fmap. split.
  - intros ([k v] & -> & Hin). apply elem_of_map_to_list in Hin. by exists v.
  - intros [v Hv]. exists (path, v). split; [reflexivity|].
    by apply elem_of_map_to_list.
Qed.

Lemma count_uploads_app path cs1 cs2 :
  count_uploads path (cs1 ++ cs2) = (count_uploads path cs1 + count_uploads path cs2)%nat.
Proof.
  induction cs1 as [|c cs1 IH]; [reflexivity|].
  destruct c; cbn [app count_uploads]; try exact IH.
  destruct (String.eqb path0 path); [by rewrite IH | exact IH].
Qed.

Lemma count_uploads_publish path :
  count_uploads path [CallSink path; CallUpload path; CallRemove path] = 1%nat.
Proof. cbn. by rewrite String.eqb_refl. Qed.

(** A publish that finds its path in the snapshot only prints. *)
Lemma upload_to_hf_skip (env : Env F) path lf sym month (w : World F) :
  path ∈ files env ->
  upload_to_hf env path lf sym month true w = (OK tt, skipped path w).
Proof.
  intros Hin. unfold upload_to_hf.
  by rewrite bool_decide_eq_true_2.
Qed.

(** What a publish does when the path is not in the snapshot. *)
Lemma upload_to_hf_run (env : Env F) path lf sym month (w : World F) :
  path ∉ files env ->
  upload_to_hf env path lf sym month true w =
    match lf with
    | Raise e =>
        (Raise e, mkWorld (remote w) (commits w) (delete path (local_files w))
                          (stdout w) (error_log w) (calls w ++ [CallSink path]))
    | OK fr =>
        let pq := mkParquet fr sym month in
        match hub_upload env (calls w ++ [CallSink path]) path with
        | Some e =>
            (Raise e, mkWorld (remote w) (commits w) (<[path := pq]> (local_files w))
                              (stdout w) (error_log w)
                              (calls w ++ [CallSink path; CallUpload path]))
        | None => (OK tt, published path pq w)
        end
    end.
Proof.
  intros Hin. unfold upload_to_hf.
  rewrite bool_decide_eq_false_2 by assumption. cbn [andb].
  unfold sink_parquet, upload_file, os_remove, bind, record_call, get_calls, print.
  destruct lf as [fr|e]; cbn; [|reflexivity].
  rewrite lookup_insert_eq.
  destruct (hub_upload env (calls w ++ [CallSink path]) path); cbn.
  - by rewrite <- app_assoc.
  - rewrite lookup_insert_eq. unfold published. cbn.
    by rewrite <- !app_assoc.
Qed.

Lemma upload_to_hf_ok_inv (env : Env F) path lf sym month (w w1 : World F) :
  path ∉ files env ->
  upload_to_hf env path lf sym month true w = (OK tt, w1) ->
  exists fr, lf = OK fr /\ w1 = published path (mkParquet fr sym month) w.
Proof.
  intros Hin. rewrite upload_to_hf_run by assumption.
  destruct lf as [fr|e]; [|discriminate]. cbv zeta.
  destruct (hub_upload env _ path); [discriminate|].
  intros [= <-]. by exists fr.
Qed.

(** C2, as the code has it - with [skip_exist] set, a publish whose
    path is in the snapshot changes nothing but the standard output.
    A publish whose path is not in the snapshot uploads; the snapshot
    is not refreshed, so a second publish of the same path in the
    same run uploads again, while a publish made against a snapshot
    that lists the repository after the first one is skipped and
    leaves the repository as the first one left it. *)
Theorem publish_skips_on_snapshot_only (env : Env F) (path : string)
        (lf : result (Frame F)) (sym month : string) (w w1 : World F) :
  upload_to_hf env path lf sym month true w = (OK tt, w1) ->
  (path ∈ files env ->
     w1 = skipped path w /\
     count_uploads path (calls w1) = count_uploads path (calls w)) /\
  (path ∉ files env ->
     count_uploads path (calls w1) = S (count_uploads path (calls w)) /\
     count_uploads path (calls (upload_to_hf env path lf sym month true w1).2)
       = S (S (count_uploads path (calls w))) /\
     forall fs,
       (forall p, p ∈ list_repo_files (remote w1) -> p ∈ fs) ->
       upload_to_hf (with_files fs env) path lf sym month true w1
         = (OK tt, skipped path w1)).
Proof.
  intros Hrun. split.
  - intros Hin. rewrite upload_to_hf_skip in Hrun by assumption.
    injection Hrun as <-. by split.
  - intros Hnin.
    destruct (upload_to_hf_ok_inv _ _ _ _ _ _ _ Hnin Hrun) as (fr & -> & ->).
    split; [|split].
    + cbn [published calls]. rewrite count_uploads_app, count_uploads_publish. lia.
    + rewrite upload_to_hf_run by assumption. cbv zeta.
      destruct (hub_upload env _ path); cbn [snd published calls];
        rewrite !count_uploads_app; cbn; rewrite !String.eqb_refl; lia.
    + intros fs Hfs. apply upload_to_hf_skip. cbn [with_files files].
      apply Hfs, list_repo_files_spec. cbn [published remote].
      rewrite lookup_insert_eq. by eexists.
Qed.
End Publish.

(** Witness of C2 as amended: the raw table of the demonstration run. *)
Lemma publish_skips_on_snapshot_only_witness :
  let path := "agg_trades/symbol=BTCUSDT/month=2024-01/data.parquet" in
  let lf := OK (RawFrame Demo.rows) in
  let w1 := (upload_to_hf Demo.env path lf "BTCUSDT" "2024-01" true Demo.world0).2 in
  upload_to_hf (with_files (list_repo_files (remote w1)) Demo.env) path lf
               "BTCUSDT" "2024-01" true w1 = (OK tt, Contract.skipped path w1).
Proof.
  intros path lf w1.
  assert (Hrun : upload_to_hf Demo.env path lf "BTCUSDT" "2024-01" true Demo.world0
                 = (OK tt, w1)).
  { vm_compute. reflexivity. }
  destruct (publish_skips_on_snapshot_only Demo.env path lf "BTCUSDT" "2024-01"
              Demo.world0 w1 Hrun) as [_ Hout].
  apply Hout.
  - vm_compute. apply not_elem_of_nil.
  - intros p Hp. exact Hp.
Defined.

(** Counterexample to C2 as stated: two publishes of the same path in
    one run, with [skip_exist] set and the path absent from the
    snapshot, make two uploads and two commits; the second call is not
    a no-op. *)
Lemma publish_twice_in_one_run_uploads_twice :
  let path := "agg_trades/symbol=BTCUSDT/month=2024-01/data.parquet" in
  let lf := OK (RawFrame Demo.rows) in
  let w1 := (upload_to_hf Demo.env path lf "BTCUSDT" "2024-01" true Demo.world0).2 in
  let w2 := (upload_to_hf Demo.env path lf "BTCUSDT" "2024-01" true w1).2 in
  Contract.count_uploads path (calls w2) = 2%nat /\
  commits w1 = ["Uploaded " +:+ path] /\
  commits w2 = ["Uploaded " +:+ path; "Uploaded " +:+ path] /\
  ~ (Contract.count_uploads path (calls w2) = 1%nat /\ commits w2 = commits w1).
Proof.
  vm_compute. repeat split; try reflexivity. intros [Hc _]. discriminate Hc.
Qed.

(** ** Windows of [group_by_dynamic] *)
Lemma elem_of_concat {A} (x : A) (ls : list (list A)) :
  x ∈ concat ls <-> exists l, x ∈ l /\ l ∈ ls.
Proof.
  induction ls as [|l ls IH]; cbn [concat].
  - split; [by intros ?%not_elem_of_nil | by intros (l & _ & ?%not_elem_of_nil)].
  - rewrite elem_of_app, IH. split.
    + intros [Hx|(l' & Hx & Hl')]; [exists l; split; [done|left] | exists l'; split; [done|by right]].
    + intros (l' & Hx & [->|Hl']%elem_of_cons); [by left | right; by exists l'].
Qed.

Section Windows.
Import Dynamic.
Context {A : Type}.
Variable index : A -> option Z.
Variable w : Z.
Hypothesis w_pos : 0 < w.

#[local] Abbreviation time := (fun r => default 0 (index r)).
#[local] Abbreviation key := (Dynamic.key index w).

Lemma window_start_mono t t' : t <= t' -> window_start w t <= window_start w t'.
Proof.
    intros Ht. unfold window_start.
    apply Z.mul_le_mono_nonneg_r; [lia|]. by apply Z.div_le_mono.
Qed.

Lemma sorted_from_inv prev rows :
    sorted_from index prev rows = true ->
    Forall (fun r => prev <= time r) rows /\ sorted index rows = true.
Proof.
    revert prev. induction rows as [|r rs IH]; intros prev; [by split|].
    cbn [sorted_from sorted]. destruct (index r) as [t|] eqn:Ht; [|discriminate].
    intros [Hle Hrs]%andb_true_iff. apply Z.leb_le in Hle.
    destruct (IH _ Hrs) as [Hall _]. split; [|exact Hrs].
    constructor; [by rewrite Ht|].
    eapply Forall_impl; [exact Hall|]. cbn. intros; lia.
Qed.

Lemma sorted_cons_inv r rs :
    sorted index (r :: rs) = true ->
    is_Some (index r) /\ Forall (fun r' => time r <= time r') rs /\
    sorted index rs = true.
Proof.
    cbn [sorted]. destruct (index r) as [t|] eqn:Ht; [|discriminate].
    intros Hs. destruct (sorted_from_inv _ _ Hs) as [Hall Hrs].
    split; [by eexists|]. by split.
Qed.

Lemma sorted_no_null rows : sorted index rows = true -> no_null index rows = true.
Proof.
    induction rows as [|r rs IH]; [reflexivity|].
    intros Hs. destruct (sorted_cons_inv _ _ Hs) as ([t Ht] & _ & Hrs).
    cbn [no_null forallb]. rewrite Ht. by apply IH.
Qed.

  (** The windows partition the rows, in order. *)
Lemma windows_concat rows : concat (windows index w rows).*2 = rows.
Proof.
    induction rows as [|r rs IH]; [reflexivity|].
    cbn [windows]. destruct (windows index w rs) as [|[k g] gs].
    - cbn in *. by rewrite <- IH.
    - destruct (key r =? k); cbn in *; by rewrite <- IH.
Qed.

  (** A window is never empty, and holds rows of its own key only. *)
Lemma windows_groups rows k g :
    (k, g) ∈ windows index w rows -> g <> [] /\ Forall (fun r => key r = k) g.
Proof.
    revert k g. induction rows as [|r rs IH]; intros k g; [by intros ?%not_elem_of_nil|].
    cbn [windows]. destruct (windows index w rs) as [|[k0 g0] gs].
    - intros [= -> ->]%list_elem_of_singleton. split; [done|]. by constructor.
    - destruct (key r =? k0) eqn:Hk.
      + apply Z.eqb_eq in Hk. intros [[= -> ->]|Hin]%elem_of_cons.
        * destruct (IH k0 g0) as [_ Hall]; [left|]. split; [done|]. by constructor.
        * apply IH. by right.
      + intros [[= -> ->]|Hin]%elem_of_cons; [|by apply IH].
        split; [done|]. by constructor.
Qed.

Lemma windows_key_iff rows k :
    k ∈ (windows index w rows).*1 <-> exists r, r ∈ rows /\ key r = k.
Proof.
    split.
    - intros ([k' g] & -> & Hin)%list_elem_of_fmap.
      destruct (windows_groups _ _ _ Hin) as [Hne Hall].
      destruct g as [|r g]; [done|]. exists r. split.
      + rewrite <- (windows_concat rows). apply elem_of_concat.
        exists (r :: g). split; [left|].
        apply list_elem_of_fmap. by exists (k', r :: g).
      + by inversion Hall.
    - intros (r & Hin & <-). rewrite <- (windows_concat rows) in Hin.
      apply elem_of_concat in Hin as (g & Hr & Hg).
      apply list_elem_of_fmap in Hg as ([k' g'] & -> & Hin).
      destruct (windows_groups _ _ _ Hin) as [_ Hall].
      rewrite Forall_forall in Hall. cbn in Hr. rewrite (Hall _ Hr).
      apply list_elem_of_fmap. by exists (k', g').
Qed.

  (** On a sorted index the window keys increase strictly: each
      non-empty window gives one group. *)
Lemma windows_keys_increase rows :
    sorted index rows = true ->
    StronglySorted Z.lt (windows index w rows).*1.
Proof.
    induction rows as [|r rs IH]; [constructor|].
    intros Hs. destruct (sorted_cons_inv _ _ Hs) as (_ & Hall & Hrs).
    specialize (IH Hrs).
    assert (Hge : Forall (fun k => key r <= k) (windows index w rs).*1).
    { apply Forall_forall. intros k (r' & Hr' & <-)%windows_key_iff.
      rewrite Forall_forall in Hall. apply window_start_mono, Hall, Hr'. }
    cbn [windows]. destruct (windows index w rs) as [|[k0 g0] gs]; [by repeat constructor|].
    destruct (key r =? k0) eqn:Hk; [exact IH|].
    apply Z.eqb_neq in Hk. cbn in *.
    apply StronglySorted_inv in IH as HI. destruct HI as [_ Hlt].
    apply Forall_cons in Hge as [Hle0 _].
    constructor; [exact IH|]. constructor; [lia|].
    eapply Forall_impl; [exact Hlt|]. cbn. intros; lia.
Qed.
Lemma filter_none (P : A -> Prop) `{!forall x, Decision (P x)} (l : list A) :
  Forall (fun x => ~ P x) l -> filter P l = [].
Proof.
  induction 1 as [|x l Hx _ IH]; [reflexivity|].
  by rewrite filter_cons_False.
Qed.

Lemma filter_all (P : A -> Prop) `{!forall x, Decision (P x)} (l : list A) :
  Forall P l -> filter P l = l.
Proof.
  induction 1 as [|x l Hx _ IH]; [reflexivity|].
  rewrite filter_cons_True by assumption. by rewrite IH.
Qed.

(** On a sorted index each window holds exactly the rows of the frame
    whose instant falls in it. *)
Lemma windows_filter rows k g :
  sorted index rows = true ->
  (k, g) ∈ windows index w rows ->
  g = filter (fun r => key r = k) rows.
Proof.
  revert k g. induction rows as [|r rs IH]; intros k g Hs; [by intros ?%not_elem_of_nil|].
  destruct (sorted_cons_inv _ _ Hs) as (_ & Hall & Hrs).
  pose proof (windows_keys_increase _ Hrs) as Hinc.
  assert (Hge : forall r', r' ∈ rs -> key r <= key r').
  { intros r' Hr'. rewrite Forall_forall in Hall. by apply window_start_mono, Hall. }
  pose proof (windows_key_iff rs) as Hkeys.
  specialize (IH) as IHrs.
  cbn [windows]. destruct (windows index w rs) as [|[k0 g0] gs] eqn:Hw.
  - intros [= -> ->]%list_elem_of_singleton.
    assert (rs = []) as -> by (by rewrite <- (windows_concat rs), Hw).
    by rewrite filter_cons_True.
  - cbn in Hinc. apply StronglySorted_inv in Hinc as [_ Hlt].
    rewrite Forall_forall in Hlt.
    assert (Hk0 : key r <= k0).
    { destruct (proj1 (Hkeys k0)) as (r' & Hr' & <-); [left | by apply Hge]. }
    destruct (key r =? k0) eqn:Hk.
    + apply Z.eqb_eq in Hk. intros [[= -> ->]|Hin]%elem_of_cons.
      * rewrite filter_cons_True by assumption. f_equal. apply IHrs; [done|left].
      * rewrite filter_cons_False.
        -- apply IHrs; [done|by right].
        -- assert (k0 < k); [|lia].
           apply Hlt, list_elem_of_fmap. by exists (k, g).
    + apply Z.eqb_neq in Hk. intros [[= -> ->]|Hin]%elem_of_cons.
      * rewrite filter_cons_True by reflexivity. f_equal. symmetry.
        apply filter_none, Forall_forall. intros r' Hr' Heq.
        assert (Hin' : key r' ∈ k0 :: gs.*1) by (apply Hkeys; by exists r').
        apply elem_of_cons in Hin' as [He|Hg]; [lia|].
        specialize (Hlt _ Hg). lia.
      * rewrite filter_cons_False; [by apply IHrs|].
        apply elem_of_cons in Hin as [[= -> ->]|Hin]; [lia|].
        assert (k0 < k); [|lia].
        apply Hlt, list_elem_of_fmap. by exists (k, g).
Qed.

(** Rows that share one window form one group. *)
Lemma windows_single r rs k :
  Forall (fun r' => key r' = k) (r :: rs) ->
  windows index w (r :: rs) = [(k, r :: rs)].
Proof.
  revert r. induction rs as [|r' rs IH]; intros r Hall.
  - apply Forall_cons in Hall as [<- _]. reflexivity.
  - apply Forall_cons in Hall as [Hr Hall].
    cbn [windows] in *. rewrite (IH r' Hall), Hr, Z.eqb_refl. reflexivity.
Qed.
End Windows.

Lemma duration_parse_pos label w : Duration.parse label = Some w -> 0 < w.
Proof.
  unfold Duration.parse.
  destruct (Duration.parse_terms (String.length label) label) as [t|]; [|discriminate].
  destruct (0 <? t) eqn:Ht; [|discriminate].
  intros [= <-]. by apply Z.ltb_lt.
Qed.

(** ** Aggregates of a column *)
Section ColumnFacts.
Context {F : Type} `{Float64 F}.

Lemma last_cons_default {A} (x : A) (xs : list A) (d : A) :
  List.last (x :: xs) d = List.last xs x.
Proof.
  revert x d. induction xs as [|y ys IH]; intros x d; [reflexivity|].
  change (List.last (x :: y :: ys) d) with (List.last (y :: ys) d).
  rewrite IH. symmetry. apply IH.
Qed.

Lemma col_last_map {A B} (f : A -> option B) (x : A) (xs : list A) :
  Col.last (map f (x :: xs)) = f (List.last xs x).
Proof.
  unfold Col.last. revert x. induction xs as [|y ys IH]; intros x; [reflexivity|].
  change (List.last (map f (x :: y :: ys)) None) with (List.last (map f (y :: ys)) None).
  by rewrite IH, last_cons_default.
Qed.

Section Extrema.
Context `{!Float64Laws F}.

Lemma f_leb_refl (x : F) : f_leb x x = true.
Proof. by destruct (f_leb_total x x). Qed.

Lemma f_max_ge_l (a b : F) : f_leb a (Col.f_max a b) = true.
Proof.
  unfold Col.f_max. destruct (f_leb a b) eqn:E; [exact E | apply f_leb_refl].
Qed.

Lemma f_max_ge_r (a b : F) : f_leb b (Col.f_max a b) = true.
Proof.
  unfold Col.f_max. destruct (f_leb a b) eqn:E; [apply f_leb_refl|].
  destruct (f_leb_total a b); congruence.
Qed.

Lemma f_min_le_l (a b : F) : f_leb (Col.f_min a b) a = true.
Proof.
  unfold Col.f_min. destruct (f_leb a b) eqn:E; [apply f_leb_refl|].
  destruct (f_leb_total a b); congruence.
Qed.

Lemma f_min_le_r (a b : F) : f_leb (Col.f_min a b) b = true.
Proof.
  unfold Col.f_min. destruct (f_leb a b) eqn:E; [exact E | apply f_leb_refl].
Qed.

(** The running maximum bounds the accumulator and every entry seen. *)
Lemma max_fold_bound (xs : list (option F)) (acc : option F) :
  (forall a, acc = Some a ->
     exists h, fold_left (Col.step_opt Col.f_max) xs acc = Some h /\ f_leb a h = true) /\
  (forall p, Some p ∈ xs ->
     exists h, fold_left (Col.step_opt Col.f_max) xs acc = Some h /\ f_leb p h = true).
Proof.
  revert acc. induction xs as [|x xs IH]; intros acc.
  - split; [|by intros p ?%not_elem_of_nil].
    intros a ->. exists a. split; [reflexivity | apply f_leb_refl].
  - cbn [fold_left]. split.
    + intros a ->. destruct x as [v|]; cbn [Col.step_opt].
      * destruct (proj1 (IH (Some (Col.f_max a v))) _ eq_refl) as (h & Hh & Hle).
        exists h. split; [exact Hh|]. eapply f_leb_trans; [apply f_max_ge_l | exact Hle].
      * by apply (proj1 (IH (Some a))).
    + intros p [[= <-]|Hin]%elem_of_cons; [|by apply (proj2 (IH _))].
      destruct acc as [a|]; cbn [Col.step_opt].
      * destruct (proj1 (IH (Some (Col.f_max a p))) _ eq_refl) as (h & Hh & Hle).
        exists h. split; [exact Hh|]. eapply f_leb_trans; [apply f_max_ge_r | exact Hle].
      * by apply (proj1 (IH (Some p))).
Qed.

Lemma min_fold_bound (xs : list (option F)) (acc : option F) :
  (forall a, acc = Some a ->
     exists l, fold_left (Col.step_opt Col.f_min) xs acc = Some l /\ f_leb l a = true) /\
  (forall p, Some p ∈ xs ->
     exists l, fold_left (Col.step_opt Col.f_min) xs acc = Some l /\ f_leb l p = true).
Proof.
  revert acc. induction xs as [|x xs IH]; intros acc.
  - split; [|by intros p ?%not_elem_of_nil].
    intros a ->. exists a. split; [reflexivity | apply f_leb_refl].
  - cbn [fold_left]. split.
    + intros a ->. destruct x as [v|]; cbn [Col.step_opt].
      * destruct (proj1 (IH (Some (Col.f_min a v))) _ eq_refl) as (l & Hl & Hle).
        exists l. split; [exact Hl|]. eapply f_leb_trans; [exact Hle | apply f_min_le_l].
      * by apply (proj1 (IH (Some a))).
    + intros p [[= <-]|Hin]%elem_of_cons; [|by apply (proj2 (IH _))].
      destruct acc as [a|]; cbn [Col.step_opt].
      * destruct (proj1 (IH (Some (Col.f_min a p))) _ eq_refl) as (l & Hl & Hle).
        exists l. split; [exact Hl|]. eapply f_leb_trans; [exact Hle | apply f_min_le_r].
      * by apply (proj1 (IH (Some p))).
Qed.
End Extrema.

(** An aggregate that picks one of its two arguments returns an entry
    of the column. *)
Lemma pick_fold_elem (f : F -> F -> F) (xs : list (option F)) (acc : option F) (m : F) :
  (forall a b, f a b = a \/ f a b = b) ->
  fold_left (Col.step_opt f) xs acc = Some m ->
  acc = Some m \/ Some m ∈ xs.
Proof.
  intros Hf. revert acc. induction xs as [|x xs IH]; intros acc; [by left|].
  cbn [fold_left]. intros Hm. apply IH in Hm as [Hm|Hm]; [|right; by right].
  destruct acc as [a|], x as [v|]; cbn [Col.step_opt] in Hm.
  - injection Hm as <-. destruct (Hf a v) as [->| ->]; [by left | right; left].
  - by left.
  - right. rewrite Hm. left.
  - discriminate.
Qed.

Lemma f_max_pick (a b : F) : Col.f_max a b = a \/ Col.f_max a b = b.
Proof. unfold Col.f_max. destruct (f_leb a b); auto. Qed.

Lemma f_min_pick (a b : F) : Col.f_min a b = a \/ Col.f_min a b = b.
Proof. unfold Col.f_min. destruct (f_leb a b); auto. Qed.

(** The extrema of a column whose values are comparable: nothing is
    asked of the carrier beyond these values. *)
Section Comparable.
Import Contract.
Variable ps : list F.
Hypothesis Hcmp : comparable ps = true.

Lemma comparable_total x y :
  x ∈ ps -> y ∈ ps -> f_leb x y = true \/ f_leb y x = true.
Proof.
  intros Hx%list_elem_of_In Hy%list_elem_of_In.
  unfold comparable in Hcmp. apply andb_true_iff in Hcmp as [Ht _].
  rewrite forallb_forall in Ht. specialize (Ht x Hx).
  rewrite forallb_forall in Ht. specialize (Ht y Hy).
  by apply orb_true_iff.
Qed.

Lemma comparable_trans x y z :
  x ∈ ps -> y ∈ ps -> z ∈ ps ->
  f_leb x y = true -> f_leb y z = true -> f_leb x z = true.
Proof.
  intros Hx%list_elem_of_In Hy%list_elem_of_In Hz%list_elem_of_In Hxy Hyz.
  unfold comparable in Hcmp. apply andb_true_iff in Hcmp as [_ Ht].
  rewrite forallb_forall in Ht. specialize (Ht x Hx).
  rewrite forallb_forall in Ht. specialize (Ht y Hy).
  rewrite forallb_forall in Ht. specialize (Ht z Hz).
  by rewrite Hxy, Hyz in Ht.
Qed.

Lemma comparable_refl x : x ∈ ps -> f_leb x x = true.
Proof. intros Hx. by destruct (comparable_total x x Hx Hx). Qed.

Lemma step_opt_in (f : F -> F -> F) (acc x : option F) :
  (forall a b, f a b = a \/ f a b = b) ->
  (forall a, acc = Some a -> a ∈ ps) ->
  (forall v, x = Some v -> v ∈ ps) ->
  forall a, Col.step_opt f acc x = Some a -> a ∈ ps.
Proof.
  intros Hf Hacc Hx a. destruct acc as [c|], x as [v|]; cbn [Col.step_opt].
  - intros [= <-]. destruct (Hf c v) as [->| ->]; [by apply Hacc | by apply Hx].
  - by apply Hacc.
  - by apply Hx.
  - discriminate.
Qed.

Lemma fold_in (f : F -> F -> F) (xs : list (option F)) (acc : option F) :
  (forall a b, f a b = a \/ f a b = b) ->
  (forall v, Some v ∈ xs -> v ∈ ps) ->
  (forall a, acc = Some a -> a ∈ ps) ->
  forall m, fold_left (Col.step_opt f) xs acc = Some m -> m ∈ ps.
Proof.
  intros Hf Hxs Hacc m Hm.
  destruct (pick_fold_elem f xs acc m Hf Hm) as [Ha|Hin]; [by apply Hacc | by apply Hxs].
Qed.

Lemma max_fold_bound_on (xs : list (option F)) (acc : option F) :
  (forall v, Some v ∈ xs -> v ∈ ps) ->
  (forall a, acc = Some a -> a ∈ ps) ->
  (forall a, acc = Some a ->
     exists h, fold_left (Col.step_opt Col.f_max) xs acc = Some h /\ f_leb a h = true) /\
  (forall p, Some p ∈ xs ->
     exists h, fold_left (Col.step_opt Col.f_max) xs acc = Some h /\ f_leb p h = true).
Proof.
  revert acc. induction xs as [|x xs IH]; intros acc Hxs Hacc.
  - split; [|by intros p ?%not_elem_of_nil].
    intros a Ha. exists a. split; [by rewrite Ha | by apply comparable_refl, Hacc].
  - assert (Hxs' : forall v, Some v ∈ xs -> v ∈ ps) by (intros v Hv; apply Hxs; by right).
    assert (Hx : forall v, x = Some v -> v ∈ ps) by (intros v ->; apply Hxs; left).
    pose proof (step_opt_in Col.f_max acc x f_max_pick Hacc Hx) as Hacc'.
    specialize (IH (Col.step_opt Col.f_max acc x) Hxs' Hacc') as [IH1 IH2].
    assert (Hstep : forall a m, Col.step_opt Col.f_max acc x = Some m ->
              a ∈ ps -> f_leb a m = true ->
              exists h, fold_left (Col.step_opt Col.f_max) xs (Col.step_opt Col.f_max acc x)
                        = Some h /\ f_leb a h = true).
    { intros a m Hm Ha Ham. destruct (IH1 m Hm) as (h & Hh & Hmh).
      exists h. split; [exact Hh|].
      apply (comparable_trans a m h); [exact Ha | by apply Hacc' | | exact Ham | exact Hmh].
      rewrite Hm in Hh. by apply (fold_in Col.f_max xs (Some m) f_max_pick Hxs');
        [intros ? [= <-]; by apply Hacc' | exact Hh]. }
    cbn [fold_left]. split.
    + intros a ->. pose proof (Hacc a eq_refl) as Ha.
      destruct x as [v|]; cbn [Col.step_opt] in *.
      * apply (Hstep a _ eq_refl Ha). unfold Col.f_max.
        destruct (f_leb a v) eqn:E; [exact E | by apply comparable_refl].
      * apply (Hstep a _ eq_refl Ha). by apply comparable_refl.
    + intros p [Hp|Hin]%elem_of_cons; [|by apply IH2]. subst x.
      pose proof (Hx p eq_refl) as Hpp.
      destruct acc as [a|]; cbn [Col.step_opt] in *.
      * apply (Hstep p _ eq_refl Hpp). unfold Col.f_max.
        destruct (f_leb a p) eqn:E; [by apply comparable_refl|].
        destruct (comparable_total a p (Hacc a eq_refl) Hpp); congruence.
      * apply (Hstep p _ eq_refl Hpp). by apply comparable_refl.
Qed.

Lemma min_fold_bound_on (xs : list (option F)) (acc : option F) :
  (forall v, Some v ∈ xs -> v ∈ ps) ->
  (forall a, acc = Some a -> a ∈ ps) ->
  (forall a, acc = Some a ->
     exists l, fold_left (Col.step_opt Col.f_min) xs acc = Some l /\ f_leb l a = true) /\
  (forall p, Some p ∈ xs ->
     exists l, fold_left (Col.step_opt Col.f_min) xs acc = Some l /\ f_leb l p = true).
Proof.
  revert acc. induction xs as [|x xs IH]; intros acc Hxs Hacc.
  - split; [|by intros p ?%not_elem_of_nil].
    intros a Ha. exists a. split; [by rewrite Ha | by apply comparable_refl, Hacc].
  - assert (Hxs' : forall v, Some v ∈ xs -> v ∈ ps) by (intros v Hv; apply Hxs; by right).
    assert (Hx : forall v, x = Some v -> v ∈ ps) by (intros v ->; apply Hxs; left).
    pose proof (step_opt_in Col.f_min acc x f_min_pick Hacc Hx) as Hacc'.
    specialize (IH (Col.step_opt Col.f_min acc x) Hxs' Hacc') as [IH1 IH2].
    assert (Hstep : forall a m, Col.step_opt Col.f_min acc x = Some m ->
              a ∈ ps -> f_leb m a = true ->
              exists l, fold_left (Col.step_opt Col.f_min) xs (Col.step_opt Col.f_min acc x)
                        = Some l /\ f_leb l a = true).
    { intros a m Hm Ha Hma. destruct (IH1 m Hm) as (l & Hl & Hlm).
      exists l. split; [exact Hl|].
      apply (comparable_trans l m a); [ | by apply Hacc' | exact Ha | exact Hlm | exact Hma].
      rewrite Hm in Hl. by apply (fold_in Col.f_min xs (Some m) f_min_pick Hxs');
        [intros ? [= <-]; by apply Hacc' | exact Hl]. }
    cbn [fold_left]. split.
    + intros a ->. pose proof (Hacc a eq_refl) as Ha.
      destruct x as [v|]; cbn [Col.step_opt] in *.
      * apply (Hstep a _ eq_refl Ha). unfold Col.f_min.
        destruct (f_leb a v) eqn:E; [by apply comparable_refl|].
        destruct (comparable_total a v Ha (Hx v eq_refl)); congruence.
      * apply (Hstep a _ eq_refl Ha). by apply comparable_refl.
    + intros p [Hp|Hin]%elem_of_cons; [|by apply IH2]. subst x.
      pose proof (Hx p eq_refl) as Hpp.
      destruct acc as [a|]; cbn [Col.step_opt] in *.
      * apply (Hstep p _ eq_refl Hpp). unfold Col.f_min.
        destruct (f_leb a p) eqn:E; [exact E | by apply comparable_refl].
      * apply (Hstep p _ eq_refl Hpp). by apply comparable_refl.
Qed.
End Comparable.
End ColumnFacts.

(** ** The aggregates of one window *)
Section WindowAggregates.
Import Contract.
Context {F : Type} `{Float64 F}.

(** The product of two columns of one frame, row by row. *)
Lemma zip_with_map {A B C D} (op : option B -> option C -> option D)
      (f : A -> option B) (h : A -> option C) (g : list A) :
  Col.zip_with op (map f g) (map h g) = map (fun r => op (f r) (h r)) g.
Proof. induction g as [|r g IH]; [reflexivity|]. cbn. by rewrite IH. Qed.

Lemma taker_buy_volume_terms g :
  taker_buy_volume_expr g = Col.sum (map taker_term g).
Proof.
  unfold taker_buy_volume_expr, is_taker, Col.mul.
  by rewrite map_map, zip_with_map.
Qed.

Lemma taker_buy_quote_volume_terms g :
  taker_buy_quote_volume_expr g = Col.sum (map taker_quote_term g).
Proof.
  unfold taker_buy_quote_volume_expr, is_taker, Col.mul.
  rewrite map_map, zip_with_map.
  change (fun r : RawTrade F => Col.lift2 f_mul (quantity r) (price r)) with quote_term.
  by rewrite zip_with_map.
Qed.

Lemma quote_volume_terms (g : list (RawTrade F)) :
  Col.sum (Col.mul (map quantity g) (map price g)) = Col.sum (map quote_term g).
Proof. unfold Col.mul. by rewrite zip_with_map. Qed.

(** A null term adds nothing to a sum. *)
Lemma sum_skip_null {A} (term : A -> option F) g1 r g2 :
  term r = None ->
  Col.sum (map term (g1 ++ r :: g2)) = Col.sum (map term (g1 ++ g2)).
Proof.
  intros Hr. unfold Col.sum.
  rewrite !map_app, !fold_left_app. cbn [map fold_left]. by rewrite Hr.
Qed.

(** A non-null term is added to the running total when its row is
    reached. *)
Lemma sum_add_term {A} (term : A -> option F) g1 r g2 v :
  term r = Some v ->
  Col.sum (map term (g1 ++ r :: g2)) =
  fold_left Col.sum_step (map term g2) (f_add (Col.sum (map term g1)) v).
Proof.
  intros Hr. unfold Col.sum.
  rewrite !map_app, !fold_left_app. cbn [map fold_left]. by rewrite Hr.
Qed.

Lemma sum_snoc (xs : list (option F)) (x : option F) :
  Col.sum (xs ++ [x]) = Col.sum_step (Col.sum xs) x.
Proof. unfold Col.sum. by rewrite fold_left_app. Qed.

(** When the taker products of the rows are exact, the taker volume is
    the volume of the rows whose [is_buyer_maker] is false. Nothing is
    asked of the carrier beyond these rows. *)
Lemma taker_sum_exact (rows : list (RawTrade F)) :
  exact_taker rows ->
  Col.sum (map taker_term rows) = Col.sum (map quantity (taker_rows rows)).
Proof.
  intros [Hrow Hzero].
  assert (Hn : forall n : nat,
            Col.sum (map taker_term (take n rows))
            = Col.sum (map quantity (taker_rows (take n rows)))).
  { induction n as [|n IH]; [reflexivity|].
    destruct (rows !! n) as [r|] eqn:Hr.
    - specialize (Hzero n). cbv zeta in Hzero.
      rewrite (take_S_r _ _ _ Hr). unfold taker_rows in *.
      rewrite filter_app, !map_app.
      change (map taker_term [r]) with [taker_term r]. rewrite sum_snoc, IH.
      apply list_elem_of_lookup_2 in Hr.
      rewrite Forall_forall in Hrow. specialize (Hrow r Hr).
      unfold exact_taker_row in Hrow. unfold taker_term.
      destruct (is_buyer_maker r) as [[|]|] eqn:Hb.
      + rewrite filter_cons_False, filter_nil, app_nil_r by congruence.
        destruct (quantity r) as [q|]; cbn; [|reflexivity].
        change (1 - 1) with 0. by rewrite Hrow, Hzero.
      + rewrite filter_cons_True, filter_nil by assumption.
        change (map quantity [r]) with [quantity r]. rewrite sum_snoc.
        destruct (quantity r) as [q|]; cbn; [|reflexivity].
        change (1 - 0) with 1. by rewrite Hrow.
      + rewrite filter_cons_False, filter_nil, app_nil_r by congruence.
        by destruct (quantity r).
    - apply lookup_ge_None_1 in Hr.
      rewrite (take_ge rows (S n)) by lia. by rewrite (take_ge rows n) in IH by lia. }
  specialize (Hn (length rows)). by rewrite take_ge in Hn by lia.
Qed.
End WindowAggregates.

(** ** The rows of [join_to_interval] *)
Section JoinToInterval.
Import Contract.
Context {F : Type} `{Float64 F}.

#[local] Abbreviation key w := (Dynamic.key (A:=RawTrade F) transact_time w).

Lemma join_to_interval_run rows label w :
  Duration.parse label = Some w ->
  Dynamic.sorted transact_time rows = true ->
  join_to_interval (OK rows) label =
    OK (map (agg label) (Dynamic.windows transact_time w rows)).
Proof.
  intros Hw Hs. unfold join_to_interval, rbind, Dynamic.group_by_dynamic.
  by rewrite Hw, (sorted_no_null _ _ Hs), Hs.
Qed.

Lemma join_to_interval_ok_inv rows label out :
  join_to_interval (OK rows) label = OK out ->
  exists w, Duration.parse label = Some w /\
            Dynamic.sorted transact_time rows = true /\
            out = map (agg label) (Dynamic.windows transact_time w rows).
Proof.
  unfold join_to_interval, rbind, Dynamic.group_by_dynamic.
  destruct (Duration.parse label) as [w|]; [|discriminate].
  destruct (Dynamic.no_null transact_time rows); [|discriminate].
  destruct (Dynamic.sorted transact_time rows); [|discriminate].
  intros [= <-]. by exists w.
Qed.

Lemma datetime_agg label (ws : list (Z * list (RawTrade F))) :
  map datetime (map (agg label) ws) = ws.*1.
Proof. induction ws as [|kg ws IH]; [reflexivity|]. cbn. by rewrite IH. Qed.

(** C5, as the code has it - on a frame sorted by [transact_time],
    [join_to_interval] gives one row for each window that holds a
    trade and none for the others: the window starts of the output
    increase strictly, they are exactly the window starts of the input
    rows, each output row aggregates the input rows of its window, and
    its [interval] column holds the label with the dtype
    Categorical. *)
Theorem one_row_per_nonempty_window (rows : list (RawTrade F)) (label : string) (w : Z) :
  Duration.parse label = Some w ->
  Dynamic.sorted transact_time rows = true ->
  exists out,
    join_to_interval (OK rows) label = OK out /\
    StronglySorted Z.lt (map datetime out) /\
    (forall k, k ∈ map datetime out <-> exists r, r ∈ rows /\ key w r = k) /\
    (forall o, o ∈ out ->
       lit_value (interval o) = label /\
       lit_dtype (interval o) = Categorical_t /\
       o = agg label (datetime o, filter (fun r => key w r = datetime o) rows)).
Proof.
  intros Hw Hs. pose proof (duration_parse_pos _ _ Hw) as Hpos.
  eexists. split; [by apply join_to_interval_run|].
  rewrite datetime_agg. split; [by apply windows_keys_increase|].
  split; [apply windows_key_iff|].
  intros o Hin. apply list_elem_of_In, in_map_iff in Hin as ([k g] & <- & Hin).
  apply list_elem_of_In in Hin. split; [reflexivity|]. split; [reflexivity|].
  cbn [agg datetime fst].
  by rewrite <- (windows_filter _ _ Hpos rows k g).
Qed.

Lemma sorted_last_latest (r0 : RawTrade F) rs :
  Dynamic.sorted transact_time (r0 :: rs) = true ->
  Forall (fun r => instant r <= instant (List.last rs r0)) (r0 :: rs).
Proof.
  revert r0. induction rs as [|r1 rs IH]; intros r0 Hs.
  - constructor; [cbn; lia | constructor].
  - destruct (sorted_cons_inv _ _ _ Hs) as (_ & Hall & Hrs).
    specialize (IH _ Hrs). rewrite last_cons_default.
    constructor; [|exact IH].
    apply Forall_cons in Hall as [H01 _]. apply Forall_cons in IH as [H1l _].
    unfold instant in *. lia.
Qed.
End JoinToInterval.

(** Witness of C5 as amended: four trades over two hours, sorted by
    time, give two hourly rows. *)
Lemma one_row_per_nonempty_window_witness :
  exists o1 o2,
    join_to_interval (OK Demo.rows) "1h" = OK [o1; o2] /\
    datetime o1 = 0 /\ datetime o2 = 3600000 /\
    interval o1 = mkLiteral "1h" Categorical_t /\
    interval o2 = mkLiteral "1h" Categorical_t.
Proof.
  destruct (one_row_per_nonempty_window Demo.rows "1h" 3600000 eq_refl eq_refl)
    as (out & Hout & _).
  vm_compute in Hout. injection Hout as <-.
  do 2 eexists. repeat split.
Defined.

(** Counterexample to C5 as stated: two trades of two different hours,
    the later one first. The frame spans two windows that each hold a
    trade, and [join_to_interval] does not give one row for each: no
    result of it has the two window starts as the starts of its
    rows. *)
Lemma unsorted_rows_lose_windows :
  let rows := Demo.swapped_hours in
  let key := Dynamic.key (A:=RawTrade Z) transact_time 3600000 in
  Dynamic.sorted transact_time rows = false /\
  map key rows = [3600000; 0] /\
  ~ exists out,
      join_to_interval (OK rows) "1h" = OK out /\
      StronglySorted Z.lt (map datetime out) /\
      (forall k, k ∈ map datetime out <-> exists r, r ∈ rows /\ key r = k).
Proof.
  split; [reflexivity|]. split; [reflexivity|].
  intros (out & Hout & _). vm_compute in Hout. discriminate Hout.
Qed.

(** ** One window *)
Section SingleWindow.
Import Contract.
Context {F : Type} `{Float64 F}.

#[local] Abbreviation key w := (Dynamic.key (A:=RawTrade F) transact_time w).

Lemma wrap_in_range z : Int64.in_range z -> Int64.wrap z = z.
Proof.
  unfold Int64.in_range, Int64.wrap, Int64.half, Int64.modulus. intros Hz.
  rewrite Z.mod_small; lia.
Qed.

Lemma last_elem {A} (x : A) (xs : list A) : List.last xs x ∈ x :: xs.
Proof.
  revert x. induction xs as [|y ys IH]; intros x; [left|].
  rewrite (last_cons_default y ys x). right. apply IH.
Qed.

Lemma price_in_prices (rows : list (RawTrade F)) (v : F) :
  Some v ∈ map price rows -> v ∈ prices rows.
Proof.
  intros (r & Hv & Hr)%list_elem_of_fmap. apply list_elem_of_omap. by exists r.
Qed.

(** C1, as the code has it - for rows sorted by [transact_time] that
    fall in one window, [join_to_interval] gives one row. Its open and
    close are the prices of the first and of the last row, which are
    an earliest and a latest trade. Its high and low are prices of the
    window, and bound every price when the prices are comparable (none
    is NaN). Its volume is the sum of the quantities. Its trade count
    is the last trade id of the last row minus the first trade id of
    the first row plus one, in Int64 arithmetic. Its taker volume is
    the sum of the products of the quantities by the taker flags; when
    these products are exact (the quantities are finite), it is the
    sum of the quantities of the rows whose [is_buyer_maker] is false,
    so that a row where it is true adds nothing. *)
Theorem single_window_row (r0 : RawTrade F) (rs : list (RawTrade F))
        (label : string) (w k : Z) :
  let rows := r0 :: rs in
  let rl := List.last rs r0 in
  Duration.parse label = Some w ->
  Dynamic.sorted transact_time rows = true ->
  Forall (fun r => key w r = k) rows ->
  exists o,
    join_to_interval (OK rows) label = OK [o] /\
    datetime o = k /\
    open o = price r0 /\
    close o = price rl /\
    earliest rows r0 /\
    latest rows rl /\
    (forall h, high o = Some h -> Some h ∈ map price rows) /\
    (forall l, low o = Some l -> Some l ∈ map price rows) /\
    (comparable (prices rows) = true ->
     forall p, Some p ∈ map price rows ->
       exists h l, high o = Some h /\ low o = Some l /\
                   f_leb p h = true /\ f_leb l p = true) /\
    volume o = Col.sum (map quantity rows) /\
    num_trades o =
      Col.lift2 Int64.add
        (Col.lift2 Int64.sub (last_trade_id rl) (first_trade_id r0)) (Some 1) /\
    (forall a b, first_trade_id r0 = Some a -> last_trade_id rl = Some b ->
                 Int64.in_range (b - a) -> Int64.in_range (b - a + 1) ->
                 num_trades o = Some (b - a + 1)) /\
    taker_buy_volume o = Col.sum (map taker_term rows) /\
    (exact_taker rows ->
     taker_buy_volume o = Col.sum (map quantity (taker_rows rows)) /\
     taker_buy_volume o =
       Col.sum (map quantity (taker_rows
         (filter (fun r => is_buyer_maker r <> Some true) rows)))).
Proof.
  intros rows rl Hw Hs Hk.
  assert (Hnum : num_trades_expr rows =
                 Col.lift2 Int64.add
                   (Col.lift2 Int64.sub (last_trade_id rl) (first_trade_id r0)) (Some 1)).
  { unfold num_trades_expr, rows. by rewrite col_last_map. }
  exists (agg label (k, rows)). split.
  { rewrite (join_to_interval_run _ _ _ Hw Hs). unfold rows.
    by rewrite (windows_single _ _ _ _ _ Hk). }
  cbn [agg datetime open close high low volume num_trades taker_buy_volume fst snd].
  split; [reflexivity|]. split; [reflexivity|].
  split; [apply col_last_map|]. split.
  { split; [left|]. destruct (sorted_cons_inv _ _ _ Hs) as (_ & Hearly & _).
    constructor; [lia | exact Hearly]. }
  split.
  { split; [apply last_elem | by apply sorted_last_latest]. }
  split.
  { intros h Hh. by destruct (pick_fold_elem _ _ _ _ f_max_pick Hh). }
  split.
  { intros l Hl. by destruct (pick_fold_elem _ _ _ _ f_min_pick Hl). }
  split.
  { intros Hcmp p Hp.
    assert (Hin : forall v, Some v ∈ map price rows -> v ∈ prices rows)
      by apply price_in_prices.
    destruct (proj2 (max_fold_bound_on _ Hcmp (map price rows) None Hin
                       ltac:(discriminate)) _ Hp) as (h & Hh & Hph).
    destruct (proj2 (min_fold_bound_on _ Hcmp (map price rows) None Hin
                       ltac:(discriminate)) _ Hp) as (l & Hl & Hlp).
    by exists h, l. }
  split; [reflexivity|]. split; [exact Hnum|]. split.
  { intros a b Ha Hb Hr1 Hr2. rewrite Hnum, Ha, Hb. cbn [Col.lift2].
    unfold Int64.add, Int64.sub. by rewrite (wrap_in_range _ Hr1), (wrap_in_range _ Hr2). }
  split; [apply taker_buy_volume_terms|].
  intros Hexact.
  assert (Htaker : taker_buy_volume_expr rows = Col.sum (map quantity (taker_rows rows))).
  { rewrite taker_buy_volume_terms. by apply taker_sum_exact. }
  split; [exact Htaker|]. rewrite Htaker. do 2 f_equal.
  unfold taker_rows. rewrite list_filter_filter. apply list_filter_iff.
  intros r. split; [intros Hr; split; congruence | by intros [? _]].
Qed.

(** C9 - in the output of [join_to_interval], the row of the window
    that holds a trade with a null [is_buyer_maker] counts the quantity
    of that trade in its volume and quantity times price in its quote
    volume, and has the taker volumes of the same window without that
    trade. *)
Theorem null_buyer_maker_counts_in_volume_only
        (rows : list (RawTrade F)) (label : string) (out : list (Kline F))
        (r : RawTrade F) (q p : F) :
  join_to_interval (OK rows) label = OK out ->
  r ∈ rows ->
  is_buyer_maker r = None ->
  quantity r = Some q ->
  price r = Some p ->
  exists k g1 g2 o,
    o ∈ out /\ o = agg label (k, g1 ++ r :: g2) /\
    volume o =
      fold_left Col.sum_step (map quantity g2) (f_add (Col.sum (map quantity g1)) q) /\
    quote_volume o =
      fold_left Col.sum_step (map quote_term g2)
                (f_add (Col.sum (map quote_term g1)) (f_mul q p)) /\
    taker_buy_volume o = taker_buy_volume (agg label (k, g1 ++ g2)) /\
    taker_buy_quote_volume o = taker_buy_quote_volume (agg label (k, g1 ++ g2)).
Proof.
  intros Hout Hr Hb Hq Hp.
  apply join_to_interval_ok_inv in Hout as (w & Hw & Hs & ->).
  rewrite <- (windows_concat transact_time w rows) in Hr.
  apply elem_of_concat in Hr as (g & Hrg & Hg).
  apply list_elem_of_fmap in Hg as ([k g'] & -> & Hin). cbn [snd] in Hrg.
  apply list_elem_of_split in Hrg as (g1 & g2 & ->).
  exists k, g1, g2, (agg label (k, g1 ++ r :: g2)).
  split; [apply list_elem_of_In, in_map, list_elem_of_In, Hin|].
  split; [reflexivity|].
  cbn [agg volume quote_volume taker_buy_volume taker_buy_quote_volume snd].
  rewrite !quote_volume_terms, !taker_buy_volume_terms, !taker_buy_quote_volume_terms.
  split; [by apply sum_add_term|].
  split; [apply sum_add_term; unfold quote_term; by rewrite Hq, Hp|].
  split; apply sum_skip_null.
  - unfold taker_term. rewrite Hb, Hq. reflexivity.
  - unfold taker_quote_term. rewrite Hb, Hq, Hp. reflexivity.
Qed.
End SingleWindow.

(** Witness of C1 as amended, in binary64: the three trades of the
    first hour of the demonstration run. The prices are comparable
    and the taker products exact. *)
Lemma single_window_row_witness :
  exists o,
    join_to_interval (OK Demo.rows64) "1h" = OK [o] /\
    open o = Some (b64_of_int 10) /\ close o = Some (b64_of_int 11) /\
    high o = Some (b64_of_int 12) /\ low o = Some (b64_of_int 10) /\
    volume o = b64_of_int 8 /\
    num_trades o = Some 9 /\ taker_buy_volume o = b64_of_int 5.
Proof.
  destruct (single_window_row
              (Demo.trade64 0 10 1 1 2 (Some true))
              [Demo.trade64 59999 12 2 3 3 None; Demo.trade64 60000 11 5 4 9 (Some false)]
              "1h" 3600000 0)
    as (o & Ho & _ & Hopen & Hclose & _ & _ & _ & _ & Hbound & Hvol & Hnum & _ & _ & Htaker).
  - reflexivity.
  - reflexivity.
  - repeat constructor.
  - assert (Hcmp : Contract.comparable (Contract.prices Demo.rows64) = true).
    { vm_compute. reflexivity. }
    assert (Hexact : Contract.exact_taker Demo.rows64).
    { split.
      - repeat constructor.
      - intros [|[|[|[|n]]]]; vm_compute; reflexivity. }
    destruct (Htaker Hexact) as [Ht _].
    exists o. split; [exact Ho|]. split; [exact Hopen|]. split; [exact Hclose|].
    injection Ho as <-.
    split; [vm_compute; reflexivity|]. split; [vm_compute; reflexivity|].
    split; [vm_compute; reflexivity|]. split; [exact Hnum|].
    vm_compute. reflexivity.
Defined.

(** Counterexample to C1 as stated, one input for each part that does
    not hold. Trade ids that do not follow the row order: the trade
    count of the output row is 3 - 5 + 1, not
    max last_trade_id - min first_trade_id + 1 = 9 - 1 + 1. Rows of
    one window that are not in the order of time: no output row has
    the price of the earliest trade as its open and that of the latest
    as its close. A maker row whose quantity is infinite, in binary64:
    its product by the taker flag 0 is NaN, so the taker volume is NaN
    and not the quantity 2 of the only taker row. A price that is NaN:
    the high of the row does not bound it. *)
Lemma single_window_claim_fails :
  (exists o,
     join_to_interval (OK Demo.crossed_rows) "1h" = OK [o] /\
     num_trades o = Some (-1) /\
     Contract.extremal_num_trades Demo.crossed_rows = Some 9) /\
  (Forall (fun r => Dynamic.key transact_time 3600000 r = 0) Demo.unsorted_rows /\
   Dynamic.sorted transact_time Demo.unsorted_rows = false /\
   ~ exists o r1 r2,
       join_to_interval (OK Demo.unsorted_rows) "1h" = OK [o] /\
       Contract.earliest Demo.unsorted_rows r1 /\
       Contract.latest Demo.unsorted_rows r2 /\
       open o = price r1 /\ close o = price r2) /\
  (Dynamic.sorted transact_time Demo.overflowing_rows = true /\
   exists o,
     join_to_interval (OK Demo.overflowing_rows) "1h" = OK [o] /\
     taker_buy_volume o = PrimFloat.nan /\
     Col.sum (map quantity (Contract.taker_rows Demo.overflowing_rows)) = b64_of_int 2 /\
     taker_buy_volume o
       <> Col.sum (map quantity (Contract.taker_rows Demo.overflowing_rows))) /\
  (Dynamic.sorted transact_time Demo.nan_price_rows = true /\
   exists o,
     join_to_interval (OK Demo.nan_price_rows) "1h" = OK [o] /\
     Some PrimFloat.nan ∈ map price Demo.nan_price_rows /\
     ~ exists h, high o = Some h /\ f_leb PrimFloat.nan h = true).
Proof.
  split; [|split; [|split]].
  - eexists. split; [vm_compute; reflexivity|]. split; reflexivity.
  - split; [repeat constructor|]. split; [reflexivity|].
    intros (o & r1 & r2 & Hout & _). vm_compute in Hout. discriminate Hout.
  - split; [reflexivity|]. eexists. split; [vm_compute; reflexivity|].
    split; [vm_compute; reflexivity|]. split; [vm_compute; reflexivity|].
    vm_compute. discriminate.
  - split; [reflexivity|]. eexists. split; [vm_compute; reflexivity|].
    split; [left|]. intros (h & Hh & Hle).
    vm_compute in Hh. injection Hh as <-. vm_compute in Hle. discriminate Hle.
Qed.

(** Witness of C9: the second trade of the demonstration run has a null
    [is_buyer_maker]. *)
Lemma null_buyer_maker_counts_in_volume_only_witness :
  exists o,
    join_to_interval (OK Demo.rows) "1h" = OK [o; agg "1h" (3600000, drop 3 Demo.rows)] /\
    volume o = 8 /\ quote_volume o = 89 /\
    taker_buy_volume o = 5 /\ taker_buy_quote_volume o = 55.
Proof.
  destruct (null_buyer_maker_counts_in_volume_only (F:=Z) Demo.rows "1h"
              (map (agg "1h") (Dynamic.windows transact_time 3600000 Demo.rows))
              (Demo.trade 59999 12 2 3 3 None) 2 12)
    as (k & g1 & g2 & o & _).
  - vm_compute. reflexivity.
  - apply list_elem_of_further, list_elem_of_here.
  - reflexivity.
  - reflexivity.
  - reflexivity.
  - eexists. split; [vm_compute; reflexivity|]. repeat split.
Defined.

(** ** The tables that [process_one_url] publishes *)
Section Provenance.
Import Contract.
Context {F : Type} `{Float64 F}.
Variable env : Env F.

Lemma append_inj_l a x y : a +:+ x = a +:+ y -> x = y.
Proof.
  induction a as [|c a IH]; [done|]. simpl. intros [= Heq]. by apply IH.
Qed.

Lemma append_slash_inj i j x y :
  has_char "/" i = false -> has_char "/" j = false ->
  i +:+ String "/" x = j +:+ String "/" y -> i = j.
Proof.
  revert j. induction i as [|c i IH]; intros [|d j]; simpl.
  - done.
  - intros _ [Hd _]%orb_false_iff [= <- _]. by rewrite Ascii.eqb_refl in Hd.
  - intros [Hc _]%orb_false_iff _ [= -> _]. by rewrite Ascii.eqb_refl in Hc.
  - intros [_ Hi]%orb_false_iff [_ Hj]%orb_false_iff [= -> Heq].
    f_equal. by apply IH.
Qed.

Lemma kline_path_inj sym month i j :
  has_char "/" i = false -> has_char "/" j = false ->
  get_kline_out_path sym month i = get_kline_out_path sym month j -> i = j.
Proof.
  intros Hi Hj Heq. unfold get_kline_out_path in Heq.
  apply append_inj_l in Heq.
  change ("/symbol=" +:+ sym +:+ "/month=" +:+ month +:+ "/data.parquet")
    with (String "/" ("symbol=" +:+ sym +:+ "/month=" +:+ month +:+ "/data.parquet"))
    in Heq.
  by eapply append_slash_inj.
Qed.

Lemma kline_path_not_raw sym month i :
  get_kline_out_path sym month i <> get_agg_trade_out_path sym month.
Proof. unfold get_kline_out_path, get_agg_trade_out_path. simpl. discriminate. Qed.

Lemma interval_step_ok lf sym month i (w1 w2 : World F) :
  interval_step env lf sym month i w1 = (OK tt, w2) ->
  (get_kline_out_path sym month i ∈ files env /\ remote w2 = remote w1) \/
  ((get_kline_out_path sym month i ∉ files env) /\
   exists ks, join_to_interval lf i = OK ks /\
     remote w2 = <[get_kline_out_path sym month i :=
                     mkParquet (KlineFrame ks) sym month]> (remote w1)).
Proof.
  unfold interval_step, bind, print.
  destruct (decide (get_kline_out_path sym month i ∈ files env)) as [Hin|Hnin].
  - rewrite upload_to_hf_skip by assumption. intros [= <-]. by left.
  - intros Hrun. right. split; [assumption|].
    apply upload_to_hf_ok_inv in Hrun as (fr & Hfr & ->); [|assumption].
    destruct (join_to_interval lf i) as [ks|e]; [|discriminate].
    injection Hfr as <-. by exists ks.
Qed.

Lemma interval_loop_ok lf sym month (l : list string) (w1 w2 : World F) :
  for_each l (interval_step env lf sym month) w1 = (OK tt, w2) ->
  Forall (fun i => has_char "/" i = false) l ->
  NoDup l ->
  (forall i, i ∈ l -> get_kline_out_path sym month i ∉ files env ->
     exists ks, join_to_interval lf i = OK ks /\
       remote w2 !! get_kline_out_path sym month i
         = Some (mkParquet (KlineFrame ks) sym month)) /\
  (forall path, (forall i, i ∈ l -> path <> get_kline_out_path sym month i) ->
     remote w2 !! path = remote w1 !! path).
Proof.
  revert w1. induction l as [|i l IH]; intros w1.
  - intros [= <-] _ _. split; [by intros i ?%not_elem_of_nil | done].
  - cbn [for_each]. unfold bind at 1.
    destruct (interval_step env lf sym month i w1) as [[[]|e] wm] eqn:Hstep; [|discriminate].
    intros Hrest [Hi Hl]%Forall_cons [Hni Hnd]%NoDup_cons.
    destruct (IH _ Hrest Hl Hnd) as [IHin IHout].
    assert (Hfresh : forall j, j ∈ l ->
              get_kline_out_path sym month i <> get_kline_out_path sym month j).
    { intros j Hj Heq. apply kline_path_inj in Heq; [congruence|assumption|].
      rewrite Forall_forall in Hl. by apply Hl. }
    apply interval_step_ok in Hstep. split.
    + intros j [->|Hj]%elem_of_cons Hnin; [|by apply IHin].
      destruct Hstep as [[Hin _]|(_ & ks & Hks & Hrem)]; [done|].
      exists ks. split; [exact Hks|].
      rewrite (IHout _ Hfresh), Hrem. apply lookup_insert_eq.
    + intros path Hpath. rewrite IHout by (intros j Hj; apply Hpath; by right).
      destruct Hstep as [[_ ->]|(_ & ks & _ & ->)]; [reflexivity|].
      apply lookup_insert_ne. intros Heq. by apply (Hpath i); [left|].
Qed.
Lemma process_interval_plain :
  Forall (fun i => has_char "/" i = false) process_interval /\ NoDup process_interval.
Proof.
  split; [by repeat constructor|].
  apply (bool_decide_unpack _). by vm_compute.
Qed.

Lemma bind_ok_inv {A B} (m : M F A) (k : A -> M F B) (w w' : World F) (b : B) :
  bind m k w = (OK b, w') ->
  exists a w1, m w = (OK a, w1) /\ k a w1 = (OK b, w').
Proof.
  unfold bind. destruct (m w) as [[a|e] w1]; [|discriminate].
  intros Hk. by exists a, w1.
Qed.

Lemma download_zip_file_ok_inv url content (w w1 : World F) :
  download_zip_file env url w = (OK content, w1) ->
  http_get env (calls w) url = OK content.
Proof.
  unfold download_zip_file, bind, print, get_calls, record_call, lift. cbn [calls].
  destruct (http_get env (calls w) url) as [c|e]; [|discriminate].
  unfold ret. by intros [= -> _].
Qed.

Lemma content_to_lf_ok_inv content lf (w w1 : World F) :
  content_to_lf env content w = (OK lf, w1) ->
  exists entry entries,
    zip_entries env content = OK (entry :: entries) /\
    lf = rmap drop_nulls (scan_csv env entry.2).
Proof.
  unfold content_to_lf, bind, record_call, lift.
  destruct (zip_entries env content) as [es|e]; [|discriminate].
  destruct es as [|entry entries]; cbn [PyStr.first_item head item]; [discriminate|].
  unfold ret. intros [= <- _]. by exists entry, entries.
Qed.

(** C8 - when [process_one_url] goes through for a URL whose raw path
    is not in the snapshot, the raw file in the repository is the
    seven-column table of the extractor with the two categorical
    columns added, and the file of each interval that is not in the
    snapshot is the aggregation of that same seven-column table, not
    of the tagged one, with the two columns added in turn. *)
Theorem intervals_aggregate_extracted_table (url : string) (p : ParsedURL)
        (w w0 w' : World F) :
  parse_url url w = (OK p, w0) ->
  get_agg_trade_out_path (symbol p) (month_str p) ∉ files env ->
  process_one_url env url w = (OK tt, w') ->
  exists content entry entries raw,
    http_get env (calls w) url = OK content /\
    zip_entries env content = OK (entry :: entries) /\
    rmap drop_nulls (scan_csv env entry.2) = OK raw /\
    frame_schema (RawFrame raw) = raw_schema /\ length raw_schema = 7%nat /\
    remote w' !! get_agg_trade_out_path (symbol p) (month_str p)
      = Some (mkParquet (RawFrame raw) (symbol p) (month_str p)) /\
    forall i, i ∈ process_interval ->
      get_kline_out_path (symbol p) (month_str p) i ∉ files env ->
      exists ks,
        join_to_interval (OK raw) i = OK ks /\
        remote w' !! get_kline_out_path (symbol p) (month_str p) i
          = Some (mkParquet (KlineFrame ks) (symbol p) (month_str p)).
Proof.
  intros Hp Hnin. unfold process_one_url. unfold bind at 1. rewrite Hp.
  rewrite bool_decide_eq_false_2 by assumption.
  intros (content & w1 & Hget & Hrun)%bind_ok_inv.
  apply bind_ok_inv in Hrun as (lf & w2 & Hlf & Hrun).
  apply bind_ok_inv in Hrun as ([] & w3 & Hraw & Hloop).
  apply download_zip_file_ok_inv in Hget.
  rewrite (parse_url_ok_world _ _ _ _ Hp) in Hget. cbn [calls] in Hget.
  apply content_to_lf_ok_inv in Hlf as (entry & entries & Hzip & ->).
  apply upload_to_hf_ok_inv in Hraw as (fr & Hfr & ->); [|assumption].
  destruct (rmap drop_nulls (scan_csv env entry.2)) as [raw|e] eqn:Hscan; [|discriminate].
  injection Hfr as <-.
  change (for_each process_interval
            (interval_step env (OK raw) (symbol p) (month_str p))
            (published (get_agg_trade_out_path (symbol p) (month_str p))
                       (mkParquet (RawFrame raw) (symbol p) (month_str p)) w2)
          = (OK tt, w')) in Hloop.
  destruct process_interval_plain as [Hplain Hnd].
  destruct (interval_loop_ok _ _ _ _ _ _ Hloop Hplain Hnd) as [Hin Hout].
  exists content, entry, entries, raw.
  split; [exact Hget|]. split; [exact Hzip|]. split; [exact Hscan|].
  split; [reflexivity|]. split; [reflexivity|]. split; [|exact Hin].
  rewrite Hout.
  - cbn [published remote]. apply lookup_insert_eq.
  - intros i _ Heq. symmetry in Heq. by apply kline_path_not_raw in Heq.
Qed.
End Provenance.

(** Witness of C8: the first URL of the demonstration run. The hourly
    file is the aggregation of the four extracted rows. *)
Lemma intervals_aggregate_extracted_table_witness :
  let w' := (process_one_url Demo.env Demo.url1 Demo.world0).2 in
  exists ks,
    join_to_interval (OK Demo.rows) "1h" = OK ks /\
    remote w' !! "klines/interval=1h/symbol=BTCUSDT/month=2024-01/data.parquet"
      = Some (mkParquet (KlineFrame ks) "BTCUSDT" "2024-01").
Proof.
  intros w'.
  assert (Hrun : process_one_url Demo.env Demo.url1 Demo.world0 = (OK tt, w')).
  { vm_compute. reflexivity. }
  pose (p := mkParsedURL Demo.url1 "BTCUSDT-aggTrades-2024-01.zip" "BTCUSDT" "2024-01").
  assert (Hparse : parse_url Demo.url1 Demo.world0
                   = (OK p, (parse_url Demo.url1 Demo.world0).2)).
  { vm_compute. reflexivity. }
  destruct (intervals_aggregate_extracted_table Demo.env Demo.url1 p
              Demo.world0 _ w' Hparse)
    as (content & entry & entries & raw & Hget & Hzip & Hraw & _ & _ & _ & Hks).
  - vm_compute. apply not_elem_of_nil.
  - exact Hrun.
  - injection Hget as <-. injection Hzip as <- <-. injection Hraw as <-.
    apply (Hks "1h").
    + unfold process_interval. do 4 apply list_elem_of_further. apply list_elem_of_here.
    + vm_compute. apply not_elem_of_nil.
Defined.

(** * Further properties of the script *)

(** ** What [parse_url] raises and returns *)
Section ParseUrlOutcome.
Import PyStr Contract.
Context {F : Type}.

Lemma has_char_split_pieces c sep s :
  has_char c s = false -> Forall (fun x => has_char c x = false) (split sep s).
Proof.
  induction s as [|a s IH]; simpl; [by repeat constructor|].
  intros [Ha Hs]%orb_false_iff. specialize (IH Hs).
  destruct (Ascii.eqb a sep); [by constructor|].
  destruct (split sep s) as [|h t]; [by repeat constructor; simpl; rewrite Ha|].
  apply Forall_cons in IH as [Hh Ht]. constructor; [|exact Ht].
  simpl. by rewrite Ha, Hh.
Qed.

(** No piece of a split holds the separator. *)
Lemma split_pieces_no_sep sep s :
  Forall (fun x => has_char sep x = false) (split sep s).
Proof.
  induction s as [|a s IH]; simpl; [by repeat constructor|].
  destruct (Ascii.eqb a sep) eqn:Ha; [by constructor|].
  destruct (split sep s) as [|h t]; [by repeat constructor; simpl; rewrite Ha|].
  apply Forall_cons in IH as [Hh Ht]. constructor; [|exact Ht].
  simpl. by rewrite Ha, Hh.
Qed.

(** The first piece of a split is a prefix of the text. *)
Lemma split_head_prefix sep s h t :
  split sep s = h :: t -> startswith h s = true.
Proof.
  revert h t. induction s as [|a s IH]; intros h t; simpl.
  - by intros [= <- <-].
  - destruct (Ascii.eqb a sep); [by intros [= <- <-]|].
    destruct (split sep s) as [|h' t'] eqn:E.
    + intros [= <- <-]. simpl. rewrite Ascii.eqb_refl.
      by apply split_nonempty in E.
    + intros [= <- <-]. simpl. rewrite Ascii.eqb_refl. by eapply IH.
Qed.

Lemma has_char_join c sep l :
  has_char c sep = false ->
  Forall (fun x => has_char c x = false) l ->
  has_char c (join sep l) = false.
Proof.
  intros Hsep. induction 1 as [|x l Hx Hl IH]; [reflexivity|].
  destruct l as [|y l]; [exact Hx|].
  change (join sep (x :: y :: l)) with (x +:+ sep +:+ join sep (y :: l)).
  by rewrite !has_char_app, Hx, Hsep, IH.
Qed.

(** Removing occurrences brings in no character. *)
Lemma has_char_replace_from c old k s :
  has_char c s = false -> has_char c (replace_from old "" k s) = false.
Proof.
  revert k. induction s as [|a s IH]; intros k; [done|].
  simpl has_char. intros [Ha Hs]%orb_false_iff.
  cbn [replace_from]. destruct k as [|k]; [|by apply IH].
  destruct (startswith old (String a s)).
  - change ("" +:+ ?x) with x. by apply IH.
  - simpl. by rewrite Ha, IH.
Qed.

Lemma last_item_elem {A} (l : list A) x : last_item l = Some x -> x ∈ l.
Proof.
  unfold last_item. intros Hl. apply last_Some in Hl as [l' ->].
  apply elem_of_app. right. left.
Qed.

Lemma last_two_sublist {A} (l : list A) x : x ∈ last_two l -> x ∈ l.
Proof.
  unfold last_two. intros Hx.
  rewrite <- (take_drop (length l - 2) l). apply elem_of_app. by right.
Qed.

(** X1 - [parse_url] raises nothing but a ValueError, before any
    effect: the two list indexings cannot fail, and the message is
    that of the first check that fails, in the order [aggTrades],
    [futures], [monthly], symbol suffix. *)
Theorem parse_url_raises_only_value_errors (url : string) (w w' : World F)
        (e : Exception) :
  parse_url url w = (Raise e, w') ->
  w' = w /\
  exn_class e = "ValueError" /\
  ((contains "aggTrades" url = false /\
    exn_msg e = "URL does not contain 'aggTrades'") \/
   (contains "aggTrades" url = true /\ contains "futures" url = false /\
    exn_msg e = "URL does not contain 'futures'") \/
   (contains "aggTrades" url = true /\ contains "futures" url = true /\
    contains "monthly" url = false /\
    exn_msg e = "URL does not contain 'monthly'") \/
   (contains "aggTrades" url = true /\ contains "futures" url = true /\
    contains "monthly" url = true /\
    exists sym, derived_symbol url = Some sym /\ endswith sym "USDT" = false /\
      exn_msg e = "Parse failed, Symbol " +:+ sym +:+ " does not end with 'USDT'")).
Proof.
  unfold parse_url.
  destruct (contains "aggTrades" url); cbn [negb];
    [|intros [= <- <-]; split; [done|]; split; [done|]; by left].
  destruct (contains "futures" url); cbn [negb];
    [|intros [= <- <-]; split; [done|]; split; [done|]; right; by left].
  destruct (contains "monthly" url); cbn [negb];
    [|intros [= <- <-]; split; [done|]; split; [done|]; right; right; by left].
  unfold bind, lift, derived_symbol.
  destruct (last_item_split_is_Some "/" url) as [f ->]. cbn [item].
  destruct (first_item_split_is_Some "-" f) as [sym ->]. cbn [item].
  destruct (endswith sym "USDT") eqn:He; cbn [negb]; [discriminate|].
  intros [= <- <-]. split; [done|]. split; [done|].
  do 3 right. repeat split. by exists sym.
Qed.

(** X2 - what [parse_url] returns: the URL itself, its last
    slash-delimited piece as file name, and a symbol and a month string
    that hold no slash, so that neither can add a level to an output
    path; the symbol holds no hyphen, ends in [USDT] and starts the
    file name. *)
Theorem parse_url_fields (u : string) (w w' : World F) (p : ParsedURL) :
  parse_url u w = (OK p, w') ->
  url p = u /\
  last_item (split "/" u) = Some (file_name p) /\
  has_char "/" (file_name p) = false /\
  first_item (split "-" (file_name p)) = Some (symbol p) /\
  startswith (symbol p) (file_name p) = true /\
  has_char "-" (symbol p) = false /\
  has_char "/" (symbol p) = false /\
  endswith (symbol p) "USDT" = true /\
  has_char "/" (month_str p) = false.
Proof.
  unfold parse_url.
  repeat (match goal with |- context [if negb ?b then _ else _] => destruct b end;
          cbn [negb]; try discriminate).
  unfold bind, lift.
  destruct (last_item (split "/" u)) as [f|] eqn:Hf; cbn [item]; [|discriminate].
  destruct (first_item (split "-" f)) as [sym|] eqn:Hsym; cbn [item]; [|discriminate].
  destruct (endswith sym "USDT") eqn:He; cbn [negb]; [|discriminate].
  unfold print, ret. cbn. intros [= <- _]. cbn [url file_name symbol month_str].
  assert (Hfs : has_char "/" f = false).
  { pose proof (split_pieces_no_sep "/" u) as Hall. rewrite Forall_forall in Hall.
    by apply Hall, last_item_elem. }
  assert (Hsplit : exists t, split "-" f = sym :: t).
  { unfold first_item in Hsym. destruct (split "-" f) as [|h t]; [discriminate|].
    injection Hsym as ->. by exists t. }
  destruct Hsplit as [t Ht].
  pose proof (split_pieces_no_sep "-" f) as Hhy.
  pose proof (has_char_split_pieces "/" "-" f Hfs) as Hsl.
  rewrite Ht in Hhy. apply Forall_cons in Hhy as [Hsym_hy _].
  repeat split; try done.
  - by eapply split_head_prefix.
  - rewrite Ht in Hsl. by apply Forall_cons in Hsl as [? _].
  - apply has_char_replace_from, has_char_join; [reflexivity|].
    apply Forall_forall. intros x Hx%last_two_sublist.
    rewrite Forall_forall in Hsl. by apply Hsl.
Qed.

(** X3 - [parse_url] does not check the shape of the file name: when
    the last piece of the URL holds no hyphen, the symbol is that whole
    piece and the month string is the same piece with every [.zip]
    removed. *)
Theorem parse_url_without_hyphen (dir fname : string) (w : World F) :
  let u := dir +:+ "/" +:+ fname in
  has_char "/" fname = false ->
  has_char "-" fname = false ->
  contains "aggTrades" u = true ->
  contains "futures" u = true ->
  contains "monthly" u = true ->
  endswith fname "USDT" = true ->
  exists w',
    parse_url u w = (OK (mkParsedURL u fname fname (replace ".zip" "" fname)), w').
Proof.
  intros u Hsl Hhy Ha Hf Hm He. unfold parse_url. rewrite Ha, Hf, Hm. cbn [negb].
  unfold bind, lift. subst u.
  change (dir +:+ "/" +:+ fname) with (dir +:+ String "/" fname).
  rewrite last_item_split_app, split_no_sep by assumption. cbn [last_item last item].
  rewrite split_no_sep by assumption. cbn [first_item head item].
  rewrite He. cbn [negb].
  change (join "-" (last_two [fname])) with fname. by eexists.
Qed.
End ParseUrlOutcome.

Lemma parse_url_raises_only_value_errors_witness :
  exn_class (ValueError "URL does not contain 'futures'") = "ValueError" /\
  parse_url (F:=Z) "https://host/spot/monthly/aggTrades/BTCUSDT-aggTrades-2024-01.zip"
            Demo.world0
  = (Raise (ValueError "URL does not contain 'futures'"), Demo.world0).
Proof.
  assert (Hrun : parse_url (F:=Z)
                   "https://host/spot/monthly/aggTrades/BTCUSDT-aggTrades-2024-01.zip"
                   Demo.world0
                 = (Raise (ValueError "URL does not contain 'futures'"), Demo.world0)).
  { vm_compute. reflexivity. }
  destruct (parse_url_raises_only_value_errors _ _ _ _ Hrun) as (_ & Hc & _).
  split; [exact Hc | exact Hrun].
Defined.

Lemma parse_url_fields_witness :
  Contract.has_char "/" "BTCUSDT" = false /\ Contract.has_char "/" "2024-01" = false.
Proof.
  assert (Hrun : parse_url (F:=Z) Demo.url1 Demo.world0
                 = (OK (mkParsedURL Demo.url1 "BTCUSDT-aggTrades-2024-01.zip"
                                    "BTCUSDT" "2024-01"),
                    (parse_url Demo.url1 Demo.world0).2)).
  { vm_compute. reflexivity. }
  destruct (parse_url_fields _ _ _ _ Hrun) as (_ & _ & _ & _ & _ & _ & Hs & _ & Hm).
  split; [exact Hs | exact Hm].
Defined.

Lemma parse_url_without_hyphen_witness :
  exists w',
    parse_url (F:=Z) "https://host/futures/monthly/aggTrades/BTCUSDT" Demo.world0
    = (OK (mkParsedURL "https://host/futures/monthly/aggTrades/BTCUSDT"
                       "BTCUSDT" "BTCUSDT" "BTCUSDT"), w').
Proof.
  apply (parse_url_without_hyphen "https://host/futures/monthly/aggTrades" "BTCUSDT"
           Demo.world0); reflexivity.
Defined.

(** ** The lines that [get_all_urls] returns *)
Section Lines.
Import PyStr Contract Behaviour.

Lemma splitlines_after_lf s :
  splitlines (String "010" s) = EmptyString :: splitlines s.
Proof. by destruct s. Qed.

(** X4 - no URL that [get_all_urls] returns holds a line boundary:
    line feeds, carriage returns and the other boundaries of
    [splitlines] are all consumed. *)
Theorem get_all_urls_no_linebreak (text : string) :
  Forall (fun u => has_linebreak u = false) (get_all_urls text).
Proof.
  unfold get_all_urls. induction text as [|c s IH]; [constructor|].
  cbn [splitlines]. destruct (is_linebreak c) eqn:Hc.
  - constructor; [reflexivity|].
    destruct s as [|c' s']; [constructor|].
    destruct (Ascii.eqb c "013" && Ascii.eqb c' "010") eqn:Hcr; [|exact IH].
    apply andb_true_iff in Hcr as [_ ->%Ascii.eqb_eq].
    rewrite splitlines_after_lf in IH. by apply Forall_cons in IH as [_ ?].
  - destruct (splitlines s) as [|h t].
    + repeat constructor. simpl. by rewrite Hc.
    + apply Forall_cons in IH as [Hh Ht]. constructor; [|exact Ht].
      simpl. by rewrite Hc, Hh.
Qed.

Lemma splitlines_line_crlf l rest :
  has_linebreak l = false ->
  splitlines (l +:+ String "013" (String "010" rest)) = l :: splitlines rest.
Proof.
  induction l as [|c l IH]; intros Hl; [reflexivity|].
  simpl in Hl. apply orb_false_iff in Hl as [Hc Hl].
  simpl. rewrite Hc. simpl in IH. by rewrite (IH Hl).
Qed.

(** X5 - a file with Windows line ends gives the same URLs as one with
    Unix line ends: the pair CR LF closes one line and leaves no empty
    URL behind. *)
Theorem get_all_urls_crlf (lines : list string) :
  forallb (fun l => negb (has_linebreak l)) lines = true ->
  get_all_urls (unlines_crlf lines) = lines /\
  get_all_urls (unlines_crlf lines) = get_all_urls (unlines lines).
Proof.
  intros Hl.
  assert (Hcrlf : get_all_urls (unlines_crlf lines) = lines).
  { unfold get_all_urls. induction lines as [|l ls IH]; [reflexivity|].
    cbn [forallb unlines_crlf] in *. apply andb_true_iff in Hl as [Hl Hls].
    rewrite splitlines_line_crlf by (by apply negb_true_iff). by rewrite IH. }
  split; [exact Hcrlf|]. rewrite Hcrlf. unfold get_all_urls.
  symmetry. revert Hl. clear Hcrlf. induction lines as [|l ls IH]; [reflexivity|].
  cbn [forallb unlines]. intros [Hl Hls]%andb_true_iff.
  rewrite splitlines_line by (by apply negb_true_iff). by rewrite IH.
Qed.

Lemma splitlines_plain l :
  has_linebreak l = false ->
  splitlines l = match l with EmptyString => [] | _ => [l] end.
Proof.
  induction l as [|c l IH]; [reflexivity|].
  simpl. intros [Hc Hl]%orb_false_iff. rewrite Hc, (IH Hl). by destruct l.
Qed.

(** X6 - the last line of the file needs no line end: a non-empty
    last line without one is still a URL, while the line end of the
    last line adds no empty URL after it. *)
Theorem get_all_urls_last_line (lines : list string) (l : string) :
  forallb (fun x => negb (has_linebreak x)) lines = true ->
  has_linebreak l = false ->
  get_all_urls (unlines lines +:+ l) =
    match l with
    | EmptyString => lines
    | _ => lines ++ [l]
    end.
Proof.
  intros Hls Hl. unfold get_all_urls.
  induction lines as [|x xs IH].
  - cbn [unlines]. change ("" +:+ l) with l. rewrite splitlines_plain by assumption.
    by destruct l.
  - cbn [forallb unlines] in *. apply andb_true_iff in Hls as [Hx Hxs].
    rewrite !append_assoc.
    rewrite splitlines_line by (by apply negb_true_iff).
    rewrite (IH Hxs). by destruct l.
Qed.
End Lines.

Lemma get_all_urls_crlf_witness :
  get_all_urls (Behaviour.unlines_crlf [Demo.url1; ""; Demo.url3])
  = [Demo.url1; ""; Demo.url3].
Proof.
  apply (get_all_urls_crlf [Demo.url1; ""; Demo.url3]). reflexivity.
Defined.

Lemma get_all_urls_last_line_witness :
  get_all_urls (Contract.unlines [Demo.url1] +:+ Demo.url3) = [Demo.url1; Demo.url3].
Proof.
  apply (get_all_urls_last_line [Demo.url1] Demo.url3); reflexivity.
Defined.

(** ** Output paths *)
Section OutPaths.
Import Contract.

Lemma length_append a b : String.length (a +:+ b) = (String.length a + String.length b)%nat.
Proof. induction a as [|c a IH]; simpl; [reflexivity | by rewrite IH]. Qed.

Lemma append_inj_r a b c : a +:+ c = b +:+ c -> a = b.
Proof.
  intros Heq.
  assert (Hlen : String.length a = String.length b).
  { apply (f_equal String.length) in Heq. rewrite !length_append in Heq. lia. }
  revert b Hlen Heq. induction a as [|x a IH]; intros [|y b]; simpl; try discriminate.
  - done.
  - intros [= Hlen] [= -> Heq]. f_equal. by apply IH.
Qed.

(** X7 - the output paths tell archives apart: for symbols and
    intervals without a slash, two raw paths are equal only for the
    same symbol and month, two kline paths only for the same interval,
    symbol and month, and a kline path is never a raw path. The
    existence test of a path in the snapshot therefore never confuses
    two outputs. *)
Theorem out_paths_injective (sym sym' m m' i i' : string) :
  has_char "/" sym = false -> has_char "/" sym' = false ->
  has_char "/" i = false -> has_char "/" i' = false ->
  (get_agg_trade_out_path sym m = get_agg_trade_out_path sym' m' ->
     sym = sym' /\ m = m') /\
  (get_kline_out_path sym m i = get_kline_out_path sym' m' i' ->
     i = i' /\ sym = sym' /\ m = m') /\
  get_kline_out_path sym m i <> get_agg_trade_out_path sym' m'.
Proof.
  intros Hs Hs' Hi Hi'.
  assert (Htail : forall x y : string,
            x +:+ "/month=" +:+ m +:+ "/data.parquet"
            = y +:+ "/month=" +:+ m' +:+ "/data.parquet" ->
            has_char "/" x = false -> has_char "/" y = false -> x = y /\ m = m').
  { intros x y Heq Hx Hy.
    change (x +:+ String "/" ("month=" +:+ m +:+ "/data.parquet")
            = y +:+ String "/" ("month=" +:+ m' +:+ "/data.parquet")) in Heq.
    pose proof (append_slash_inj _ _ _ _ Hx Hy Heq) as ->. split; [reflexivity|].
    apply append_inj_l in Heq. injection Heq as Heq.
    by apply append_inj_r in Heq. }
  split; [|split].
  - unfold get_agg_trade_out_path. intros Heq. apply append_inj_l in Heq. by apply Htail.
  - unfold get_kline_out_path. intros Heq. apply append_inj_l in Heq.
    change (i +:+ String "/" ("symbol=" +:+ sym +:+ "/month=" +:+ m +:+ "/data.parquet")
            = i' +:+ String "/" ("symbol=" +:+ sym' +:+ "/month=" +:+ m' +:+ "/data.parquet"))
      in Heq.
    pose proof (append_slash_inj _ _ _ _ Hi Hi' Heq) as ->. split; [reflexivity|].
    apply append_inj_l in Heq. injection Heq as Heq.
    by apply Htail.
  - unfold get_kline_out_path, get_agg_trade_out_path. simpl. discriminate.
Qed.
End OutPaths.

Lemma out_paths_injective_witness :
  get_kline_out_path "BTCUSDT" "2024-01" "1m"
  <> get_agg_trade_out_path "BTCUSDT" "2024-01".
Proof.
  apply (out_paths_injective "BTCUSDT" "BTCUSDT" "2024-01" "2024-01" "1m" "1m");
    reflexivity.
Defined.

(** ** How a publish ends *)
Section PublishOutcomes.
Import Contract.
Context {F : Type} `{Float64 F}.
Variable env : Env F.

(** A publish that is not skipped, whatever the reason. *)
Lemma upload_to_hf_forced path lf sym month skip (w : World F) :
  skip && bool_decide (path ∈ files env) = false ->
  upload_to_hf env path lf sym month skip w =
    match lf with
    | Raise e =>
        (Raise e, mkWorld (remote w) (commits w) (delete path (local_files w))
                          (stdout w) (error_log w) (calls w ++ [CallSink path]))
    | OK fr =>
        let pq := mkParquet fr sym month in
        match hub_upload env (calls w ++ [CallSink path]) path with
        | Some e =>
            (Raise e, mkWorld (remote w) (commits w) (<[path := pq]> (local_files w))
                              (stdout w) (error_log w)
                              (calls w ++ [CallSink path; CallUpload path]))
        | None => (OK tt, published path pq w)
        end
    end.
Proof.
  intros Hskip. unfold upload_to_hf. rewrite Hskip.
  unfold sink_parquet, upload_file, os_remove, bind, record_call, get_calls, print.
  destruct lf as [fr|e]; cbn; [|reflexivity].
  rewrite lookup_insert_eq.
  destruct (hub_upload env (calls w ++ [CallSink path]) path); cbn.
  - by rewrite <- app_assoc.
  - rewrite lookup_insert_eq. unfold published. cbn.
    by rewrite <- !app_assoc.
Qed.

(** X8 - a frame that fails when it is collected publishes nothing:
    the exception of the frame is raised by [sink_parquet], the write
    is the only call made, no upload is attempted, the repository and
    the commits stay as they were, and no local file other than the
    one at the path is touched. What the failed write leaves at the
    path itself is not stated. *)
Theorem failed_frame_publishes_nothing (path : string) (e : Exception)
        (sym month : string) (skip : bool) (w : World F) :
  skip && bool_decide (path ∈ files env) = false ->
  let out := upload_to_hf env path (Raise e) sym month skip w in
  out.1 = Raise e /\
  remote out.2 = remote w /\
  commits out.2 = commits w /\
  (forall other, other <> path ->
     local_files out.2 !! other = local_files w !! other) /\
  calls out.2 = calls w ++ [CallSink path] /\
  count_uploads path (calls out.2) = count_uploads path (calls w).
Proof.
  intros Hskip out. unfold out. rewrite upload_to_hf_forced by assumption.
  cbn [fst snd remote commits local_files calls].
  split; [reflexivity|]. split; [reflexivity|]. split; [reflexivity|].
  split; [intros other Hne; by apply lookup_delete_ne|].
  split; [reflexivity|]. rewrite count_uploads_app. cbn. lia.
Qed.

(** X9 - when the upload itself fails, the exception is raised after
    the file was written: the repository and the commits are
    unchanged, and the staged file stays in the local directory since
    [os.remove] is not reached. *)
Theorem failed_upload_leaves_staged_file (path : string) (fr : Frame F)
        (sym month : string) (skip : bool) (w : World F) (e : Exception) :
  skip && bool_decide (path ∈ files env) = false ->
  hub_upload env (calls w ++ [CallSink path]) path = Some e ->
  let out := upload_to_hf env path (OK fr) sym month skip w in
  out.1 = Raise e /\
  remote out.2 = remote w /\
  commits out.2 = commits w /\
  local_files out.2 !! path = Some (mkParquet fr sym month) /\
  CallRemove path ∉ drop (length (calls w)) (calls out.2).
Proof.
  intros Hskip Hhub out. unfold out. rewrite upload_to_hf_forced by assumption.
  cbv zeta. rewrite Hhub. cbn [fst snd remote commits local_files calls].
  repeat split; [apply lookup_insert_eq|].
  rewrite drop_app_length. intros Hin.
  repeat (apply elem_of_cons in Hin as [Hin|Hin]; [discriminate|]).
  by apply not_elem_of_nil in Hin.
Qed.

(** X10 - a publish that goes through stores the tagged table under
    its path, adds one commit named after the path, touches no other
    path of the repository, removes the staged file and touches no
    other local file. The directories that [mkdir=True] created for
    the staged file are not removed by [os.remove]; they are not part
    of the state, and nothing is said about them. *)
Theorem successful_publish_effects (path : string) (fr : Frame F)
        (sym month : string) (skip : bool) (w w' : World F) :
  skip && bool_decide (path ∈ files env) = false ->
  upload_to_hf env path (OK fr) sym month skip w = (OK tt, w') ->
  remote w' !! path = Some (mkParquet fr sym month) /\
  (forall other, other <> path -> remote w' !! other = remote w !! other) /\
  commits w' = commits w ++ ["Uploaded " +:+ path] /\
  local_files w' !! path = None /\
  (forall other, other <> path -> local_files w' !! other = local_files w !! other).
Proof.
  intros Hskip. rewrite upload_to_hf_forced by assumption. cbv zeta.
  destruct (hub_upload env _ path); [discriminate|].
  intros [= <-]. cbn [published remote commits local_files].
  split; [apply lookup_insert_eq|].
  split; [intros other Hne; by apply lookup_insert_ne|].
  split; [reflexivity|].
  split; [apply lookup_delete_eq|].
  intros other Hne. rewrite lookup_delete_ne by done. by apply lookup_insert_ne.
Qed.

(** X11 - with [skip_exist] unset the snapshot is not consulted: a path
    that is already listed is collected and uploaded again. *)
Theorem unset_skip_ignores_snapshot (path : string) (fr : Frame F)
        (sym month : string) (w : World F) :
  path ∈ files env ->
  hub_upload env (calls w ++ [CallSink path]) path = None ->
  upload_to_hf env path (OK fr) sym month false w
    = (OK tt, published path (mkParquet fr sym month) w) /\
  upload_to_hf env path (OK fr) sym month true w = (OK tt, skipped path w) /\
  count_uploads path (calls (published path (mkParquet fr sym month) w))
    = S (count_uploads path (calls w)).
Proof.
  intros Hin Hhub. split; [|split].
  - rewrite upload_to_hf_forced by reflexivity. cbv zeta. by rewrite Hhub.
  - by apply upload_to_hf_skip.
  - cbn [published calls]. rewrite count_uploads_app, count_uploads_publish. lia.
Qed.
End PublishOutcomes.

Lemma failed_frame_publishes_nothing_witness :
  let out := upload_to_hf Demo.env "klines/x.parquet" Behaviour.broken_frame
                          "BTCUSDT" "2024-01" true Demo.world0 in
  out.1 = Raise (ComputeError "conversion failed") /\ remote out.2 = ∅ /\
  calls out.2 = [CallSink "klines/x.parquet"].
Proof.
  destruct (failed_frame_publishes_nothing Demo.env "klines/x.parquet"
              (ComputeError "conversion failed") "BTCUSDT" "2024-01" true Demo.world0)
    as (Hr & Hrem & _ & _ & Hcalls & _).
  - reflexivity.
  - split; [exact Hr|]. split; [exact Hrem | exact Hcalls].
Defined.

Lemma failed_upload_leaves_staged_file_witness :
  let out := upload_to_hf Behaviour.refusing_env "agg_trades/x.parquet"
                          (OK (RawFrame Demo.rows)) "BTCUSDT" "2024-01" true
                          Demo.world0 in
  remote out.2 = ∅ /\
  local_files out.2 !! "agg_trades/x.parquet"
    = Some (mkParquet (RawFrame Demo.rows) "BTCUSDT" "2024-01").
Proof.
  destruct (failed_upload_leaves_staged_file Behaviour.refusing_env
              "agg_trades/x.parquet" (RawFrame Demo.rows) "BTCUSDT" "2024-01" true
              Demo.world0 (mkExn "HfHubHTTPError" "503 Server Error"))
    as (_ & Hrem & _ & Hloc & _).
  - reflexivity.
  - reflexivity.
  - split; [exact Hrem | exact Hloc].
Defined.

Lemma successful_publish_effects_witness :
  let w' := (upload_to_hf Demo.env "agg_trades/x.parquet" (OK (RawFrame Demo.rows))
                          "BTCUSDT" "2024-01" true Demo.world0).2 in
  commits w' = ["Uploaded agg_trades/x.parquet"] /\
  local_files w' !! "agg_trades/x.parquet" = None /\
  is_Some (remote w' !! "agg_trades/x.parquet").
Proof.
  intros w'.
  assert (Hrun : upload_to_hf Demo.env "agg_trades/x.parquet" (OK (RawFrame Demo.rows))
                              "BTCUSDT" "2024-01" true Demo.world0 = (OK tt, w')).
  { vm_compute. reflexivity. }
  destruct (successful_publish_effects Demo.env "agg_trades/x.parquet"
              (RawFrame Demo.rows) "BTCUSDT" "2024-01" true Demo.world0 w')
    as (Hr & _ & Hc & Hl & _).
  - reflexivity.
  - exact Hrun.
  - split; [exact Hc|]. split; [exact Hl|]. rewrite Hr. by eexists.
Defined.

Lemma unset_skip_ignores_snapshot_witness :
  let env := with_files ["agg_trades/x.parquet"] Demo.env in
  (upload_to_hf env "agg_trades/x.parquet" (OK (RawFrame Demo.rows))
                "BTCUSDT" "2024-01" false Demo.world0).1 = OK tt /\
  commits (upload_to_hf env "agg_trades/x.parquet" (OK (RawFrame Demo.rows))
                        "BTCUSDT" "2024-01" false Demo.world0).2
  = ["Uploaded agg_trades/x.parquet"].
Proof.
  intros env.
  destruct (unset_skip_ignores_snapshot env "agg_trades/x.parquet"
              (RawFrame Demo.rows) "BTCUSDT" "2024-01" Demo.world0) as (Hrun & _).
  - apply list_elem_of_here.
  - reflexivity.
  - rewrite Hrun. split; reflexivity.
Defined.

(** ** Extraction and the failures of one URL *)
Section UrlFailures.
Import Contract Behaviour.
Context {F : Type} `{Float64 F}.
Variable env : Env F.

Lemma download_zip_file_run url (w : World F) :
  download_zip_file env url w =
    match http_get env (calls w) url with
    | OK content =>
        (OK content,
         touched [MsgDownloading url; MsgDownloaded (String.length content) url]
                 [CallGet url] w)
    | Raise e => (Raise e, touched [MsgDownloading url] [CallGet url] w)
    end.
Proof.
  unfold download_zip_file, bind, print, get_calls, record_call, lift, ret, touched.
  cbn. destruct (http_get env (calls w) url); cbn; [|reflexivity].
  by rewrite <- app_assoc.
Qed.

Lemma content_to_lf_run content (w : World F) :
  content_to_lf env content w =
    match zip_entries env content with
    | OK (entry :: _) =>
        (OK (rmap drop_nulls (scan_csv env entry.2)), touched [] [CallExtract] w)
    | OK [] => (Raise (IndexError "list index out of range"), touched [] [CallExtract] w)
    | Raise e => (Raise e, touched [] [CallExtract] w)
    end.
Proof.
  unfold content_to_lf, bind, record_call, lift, ret, touched.
  destruct (zip_entries env content) as [[|entry entries]|e]; cbn;
    by rewrite app_nil_r.
Qed.

(** X12 - [content_to_lf] reads the first entry of the archive and no
    other: an archive without entry raises an IndexError, and
    otherwise the frame holds exactly the scanned rows of the first
    entry that have an [agg_trade_id], each as often as it was
    scanned and in the order of the scan: the scanned rows are these
    and the rows without [agg_trade_id], and nothing is asked of the
    other fields. *)
Theorem content_to_lf_rows (content : string) (w : World F) :
  (zip_entries env content = OK [] ->
     (content_to_lf env content w).1 = Raise (IndexError "list index out of range")) /\
  (forall entry entries scanned,
     zip_entries env content = OK (entry :: entries) ->
     scan_csv env entry.2 = OK scanned ->
     exists raw,
       (content_to_lf env content w).1 = OK (OK raw) /\
       raw = filter (fun r => is_Some (agg_trade_id r)) scanned /\
       Forall (fun r => is_Some (agg_trade_id r)) raw /\
       (forall r, r ∈ raw <-> r ∈ scanned /\ is_Some (agg_trade_id r)) /\
       raw `sublist_of` scanned /\
       raw ++ filter (fun r => ~ is_Some (agg_trade_id r)) scanned ≡ₚ scanned).
Proof.
  rewrite content_to_lf_run. split.
  - by intros ->.
  - intros entry entries scanned -> Hscan. rewrite Hscan. cbn [rmap rbind fst].
    exists (drop_nulls scanned). split; [reflexivity|]. unfold drop_nulls.
    split; [reflexivity|]. split; [|split; [|split]].
    + apply Forall_forall. by intros r [? _]%list_elem_of_filter.
    + intros r. rewrite list_elem_of_filter. tauto.
    + apply sublist_filter.
    + apply filter_app_complement.
Qed.

(** X13 - a download that fails ends the URL there: the exception of
    the transfer is raised, the only call made is the HTTP request, and
    nothing is extracted, staged or published. *)
Theorem failed_download_publishes_nothing (url : string) (p : ParsedURL)
        (w w0 : World F) (e : Exception) :
  parse_url url w = (OK p, w0) ->
  get_agg_trade_out_path (symbol p) (month_str p) ∉ files env ->
  http_get env (calls w) url = Raise e ->
  let out := process_one_url env url w in
  out.1 = Raise e /\
  calls out.2 = calls w ++ [CallGet url] /\
  remote out.2 = remote w /\
  commits out.2 = commits w /\
  local_files out.2 = local_files w.
Proof.
  intros Hp Hnin Hget out.
  assert (Hrun : out = (Raise e, touched [MsgParsed p; MsgDownloading url]
                                         [CallGet url] w)).
  { unfold out, process_one_url. unfold bind at 1. rewrite Hp.
    rewrite bool_decide_eq_false_2 by assumption.
    unfold bind at 1. rewrite download_zip_file_run.
    rewrite (parse_url_ok_world _ _ _ _ Hp). cbn [calls]. rewrite Hget.
    unfold touched. cbn. by rewrite <- app_assoc. }
  rewrite Hrun. by repeat split.
Qed.

(** X14 - when the upload of the raw table fails, no interval is
    computed or published: the calls made are the request, the
    extraction, the local write and the refused upload, the repository
    is unchanged and the raw file stays staged. *)
Theorem failed_raw_upload_stops_url (url : string) (p : ParsedURL)
        (w w0 : World F) (content : string) (entry : string * string)
        (entries : list (string * string)) (scanned : list (RawTrade F))
        (e : Exception) :
  let raw_path := get_agg_trade_out_path (symbol p) (month_str p) in
  parse_url url w = (OK p, w0) ->
  raw_path ∉ files env ->
  http_get env (calls w) url = OK content ->
  zip_entries env content = OK (entry :: entries) ->
  scan_csv env entry.2 = OK scanned ->
  hub_upload env (calls w ++ [CallGet url; CallExtract; CallSink raw_path]) raw_path
    = Some e ->
  let out := process_one_url env url w in
  out.1 = Raise e /\
  calls out.2 = calls w ++ [CallGet url; CallExtract; CallSink raw_path;
                            CallUpload raw_path] /\
  remote out.2 = remote w /\
  commits out.2 = commits w /\
  local_files out.2 !! raw_path
    = Some (mkParquet (RawFrame (drop_nulls scanned)) (symbol p) (month_str p)).
Proof.
  intros raw_path Hp Hnin Hget Hzip Hscan Hhub out.
  assert (Hrun : exists w', out = (Raise e, w') /\
            calls w' = calls w ++ [CallGet url; CallExtract; CallSink raw_path;
                                   CallUpload raw_path] /\
            remote w' = remote w /\ commits w' = commits w /\
            local_files w' !! raw_path
              = Some (mkParquet (RawFrame (drop_nulls scanned))
                                (symbol p) (month_str p))).
  { unfold out, process_one_url. unfold bind at 1. rewrite Hp.
    rewrite bool_decide_eq_false_2 by assumption.
    unfold bind at 1. rewrite download_zip_file_run.
    rewrite (parse_url_ok_world _ _ _ _ Hp). cbn [calls]. rewrite Hget.
    unfold bind at 1. rewrite content_to_lf_run, Hzip, Hscan. cbn [rmap rbind].
    unfold bind at 1. rewrite upload_to_hf_run by assumption.
    cbv zeta. cbn [touched calls]. rewrite <- !app_assoc. cbn [app].
    fold raw_path. rewrite Hhub. eexists. split; [reflexivity|].
    cbn [calls remote commits local_files].
    split; [reflexivity|]. split; [reflexivity|].
    split; [reflexivity|]. apply lookup_insert_eq. }
  destruct Hrun as (w' & -> & Hc & Hr & Hm & Hl). by repeat split.
Qed.
End UrlFailures.

Lemma content_to_lf_rows_witness :
  (content_to_lf Behaviour.empty_zip_env "PK" Demo.world0).1
  = Raise (IndexError "list index out of range") /\
  (content_to_lf Behaviour.two_entry_env "PK" Demo.world0).1
  = OK (OK [Demo.trade 0 10 1 1 1 (Some true); Demo.trade 0 10 1 1 1 (Some true);
            Demo.trade 2 11 1 3 3 None]).
Proof.
  split.
  - apply (content_to_lf_rows Behaviour.empty_zip_env "PK" Demo.world0). reflexivity.
  - destruct (content_to_lf_rows Behaviour.two_entry_env "PK" Demo.world0) as [_ Hrows].
    destruct (Hrows ("first.csv", "PK") [("second.csv", "PK")] Behaviour.scanned_rows)
      as (raw & Hraw & -> & _).
    + reflexivity.
    + reflexivity.
    + exact Hraw.
Defined.

Lemma failed_download_publishes_nothing_witness :
  let out := process_one_url Demo.env Demo.url2 Demo.world0 in
  out.1 = Raise (mkExn "HTTPError" "404 Client Error: Not Found") /\
  calls out.2 = [CallGet Demo.url2] /\ remote out.2 = ∅.
Proof.
  pose (p := mkParsedURL Demo.url2 "ETHUSDT-aggTrades-2024-01.zip" "ETHUSDT" "2024-01").
  assert (Hparse : parse_url Demo.url2 Demo.world0
                   = (OK p, (parse_url Demo.url2 Demo.world0).2)).
  { vm_compute. reflexivity. }
  destruct (failed_download_publishes_nothing Demo.env Demo.url2 p Demo.world0 _
              (mkExn "HTTPError" "404 Client Error: Not Found") Hparse)
    as (Hr & Hc & Hrem & _).
  - vm_compute. apply not_elem_of_nil.
  - reflexivity.
  - split; [exact Hr|]. split; [exact Hc | exact Hrem].
Defined.

Lemma failed_raw_upload_stops_url_witness :
  let out := process_one_url Behaviour.refusing_env Demo.url1 Demo.world0 in
  out.1 = Raise (mkExn "HfHubHTTPError" "503 Server Error") /\ remote out.2 = ∅.
Proof.
  pose (p := mkParsedURL Demo.url1 "BTCUSDT-aggTrades-2024-01.zip" "BTCUSDT" "2024-01").
  assert (Hparse : parse_url Demo.url1 Demo.world0
                   = (OK p, (parse_url Demo.url1 Demo.world0).2)).
  { vm_compute. reflexivity. }
  destruct (failed_raw_upload_stops_url Behaviour.refusing_env Demo.url1 p Demo.world0 _
              "PK" ("trades.csv", "PK") [] Demo.rows
              (mkExn "HfHubHTTPError" "503 Server Error") Hparse)
    as (Hr & _ & Hrem & _).
  - vm_compute. apply not_elem_of_nil.
  - reflexivity.
  - reflexivity.
  - reflexivity.
  - reflexivity.
  - split; [exact Hr | exact Hrem].
Defined.

(** ** What a run can and cannot change *)
Section AppendOnly.
Import Contract Behaviour.
Context {F : Type} `{Float64 F}.
Variable env : Env F.

Lemma append_nil_r (a : string) : a +:+ "" = a.
Proof. induction a as [|c a IH]; simpl; [reflexivity | by rewrite IH]. Qed.

Lemma extends_refl (w : World F) : extends w w.
Proof.
  split; [done|]. repeat split; try (exists []; by rewrite app_nil_r).
  exists "". by rewrite append_nil_r.
Qed.

Lemma extends_trans (w1 w2 w3 : World F) : extends w1 w2 -> extends w2 w3 -> extends w1 w3.
Proof.
  intros (Hr & [c Hc] & [k Hk] & [o Ho] & [l Hl]) (Hr' & [c' Hc'] & [k' Hk'] & [o' Ho'] & [l' Hl']).
  split; [intros path Hp; by apply Hr', Hr|].
  split; [exists (c ++ c'); by rewrite Hc', Hc, app_assoc|].
  split; [exists (k ++ k'); by rewrite Hk', Hk, app_assoc|].
  split; [exists (o ++ o'); by rewrite Ho', Ho, app_assoc|].
  exists (l +:+ l'). by rewrite Hl', Hl, append_assoc.
Qed.

Lemma extends_fields (w : World F) r c ms cs s :
  (forall path, is_Some (remote w !! path) -> is_Some (r !! path)) ->
  forall lf,
  extends w (mkWorld r (commits w ++ c) lf (stdout w ++ ms) (error_log w +:+ s)
                     (calls w ++ cs)).
Proof. intros Hr lf. split; [exact Hr|]. repeat split; by eexists. Qed.

Lemma extends_same_remote (w : World F) c ms cs s lf :
  extends w (mkWorld (remote w) (commits w ++ c) lf (stdout w ++ ms)
                     (error_log w +:+ s) (calls w ++ cs)).
Proof. by apply extends_fields. Qed.

Lemma monotone_ret {A} (a : A) : monotone (F:=F) (ret a).
Proof. intros w. apply extends_refl. Qed.

Lemma monotone_raise {A} e : monotone (F:=F) (A:=A) (raise e).
Proof. intros w. apply extends_refl. Qed.

Lemma monotone_lift {A} (r : result A) : monotone (F:=F) (lift r).
Proof. intros w. apply extends_refl. Qed.

Lemma monotone_get_calls : monotone (F:=F) get_calls.
Proof. intros w. apply extends_refl. Qed.

Lemma monotone_print m : monotone (F:=F) (print m).
Proof.
  intros w. cbn.
  rewrite <- (app_nil_r (commits w)), <- (app_nil_r (calls w)), <- (append_nil_r (error_log w)).
  apply extends_same_remote.
Qed.

Lemma monotone_record_call c : monotone (F:=F) (record_call c).
Proof.
  intros w. cbn.
  rewrite <- (app_nil_r (commits w)), <- (app_nil_r (stdout w)), <- (append_nil_r (error_log w)).
  apply extends_same_remote.
Qed.

Lemma monotone_append_error_log s : monotone (F:=F) (append_error_log s).
Proof.
  intros w. cbn.
  rewrite <- (app_nil_r (commits w)), <- (app_nil_r (stdout w)), <- (app_nil_r (calls w)).
  apply extends_same_remote.
Qed.

Lemma monotone_bind {A B} (m : M F A) (k : A -> M F B) :
  monotone m -> (forall a, monotone (k a)) -> monotone (bind m k).
Proof.
  intros Hm Hk w. unfold bind. specialize (Hm w).
  destruct (m w) as [[a|e] w1]; [|exact Hm].
  eapply extends_trans; [exact Hm | apply Hk].
Qed.

Lemma monotone_try_except {A} (m : M F A) (h : Exception -> M F A) :
  monotone m -> (forall e, monotone (h e)) -> monotone (try_except m h).
Proof.
  intros Hm Hh w. unfold try_except. specialize (Hm w).
  destruct (m w) as [[a|e] w1]; [exact Hm|].
  destruct (is_Exception e); [|exact Hm].
  eapply extends_trans; [exact Hm | apply Hh].
Qed.

Lemma monotone_for_each {A} (l : list A) (body : A -> M F unit) :
  (forall a, monotone (body a)) -> monotone (for_each l body).
Proof.
  intros Hb. induction l as [|x l IH]; cbn [for_each].
  - apply monotone_ret.
  - apply monotone_bind; [apply Hb | intros _; exact IH].
Qed.

Lemma monotone_local {A} (f : World F -> result A * gmap string (Parquet F)) :
  monotone (fun w => ((f w).1, mkWorld (remote w) (commits w) (f w).2 (stdout w)
                                       (error_log w) (calls w))).
Proof.
  intros w. cbn.
  rewrite <- (app_nil_r (commits w)), <- (app_nil_r (stdout w)), <- (app_nil_r (calls w)),
          <- (append_nil_r (error_log w)).
  apply extends_same_remote.
Qed.

Lemma monotone_sink_parquet path lf : monotone (sink_parquet (F:=F) path lf).
Proof.
  unfold sink_parquet. apply monotone_bind; [apply monotone_record_call|]. intros _.
  destruct lf as [pq|e].
  - apply (monotone_local (fun w => (OK tt, <[path := pq]> (local_files w)))).
  - apply (monotone_local (A:=unit) (fun w => (Raise e, delete path (local_files w)))).
Qed.

Lemma monotone_os_remove path : monotone (os_remove (F:=F) path).
Proof.
  unfold os_remove. apply monotone_bind; [apply monotone_record_call|]. intros _ w.
  destruct (local_files w !! path); cbn; [|apply extends_refl].
  rewrite <- (app_nil_r (commits w)), <- (app_nil_r (stdout w)), <- (app_nil_r (calls w)),
          <- (append_nil_r (error_log w)).
  apply extends_same_remote.
Qed.

Lemma monotone_upload_file path : monotone (upload_file env path).
Proof.
  unfold upload_file. apply monotone_bind; [apply monotone_get_calls|]. intros history.
  apply monotone_bind; [apply monotone_record_call|]. intros _ w.
  destruct (local_files w !! path) as [pq|]; cbn; [|apply extends_refl].
  destruct (hub_upload env history path); cbn; [apply extends_refl|].
  rewrite <- (app_nil_r (stdout w)), <- (app_nil_r (calls w)),
          <- (append_nil_r (error_log w)).
  apply extends_fields. intros other Ho.
  destruct (decide (path = other)) as [->|Hne].
  - rewrite lookup_insert_eq. by eexists.
  - by rewrite lookup_insert_ne.
Qed.

Lemma monotone_upload_to_hf path lf sym month skip :
  monotone (upload_to_hf env path lf sym month skip).
Proof.
  unfold upload_to_hf. destruct (skip && bool_decide (path ∈ files env)).
  - apply monotone_print.
  - cbv zeta. apply monotone_bind; [apply monotone_sink_parquet|]. intros _.
    apply monotone_bind; [apply monotone_upload_file|]. intros _.
    apply monotone_bind; [apply monotone_print|]. intros _.
    apply monotone_bind; [apply monotone_os_remove|]. intros _.
    apply monotone_print.
Qed.

Lemma monotone_parse_url url : monotone (F:=F) (parse_url url).
Proof.
  unfold parse_url.
  repeat (match goal with |- context [if negb ?b then _ else _] => destruct b end;
          cbn [negb]; try apply monotone_raise).
  apply monotone_bind; [apply monotone_lift|]. intros f.
  apply monotone_bind; [apply monotone_lift|]. intros sym. cbv zeta.
  destruct (negb _); [apply monotone_raise|].
  apply monotone_bind; [apply monotone_print | intros _; apply monotone_ret].
Qed.

Lemma monotone_download_zip_file url : monotone (download_zip_file env url).
Proof.
  unfold download_zip_file.
  apply monotone_bind; [apply monotone_print|]. intros _.
  apply monotone_bind; [apply monotone_get_calls|]. intros history.
  apply monotone_bind; [apply monotone_record_call|]. intros _.
  apply monotone_bind; [apply monotone_lift|]. intros content.
  apply monotone_bind; [apply monotone_print | intros _; apply monotone_ret].
Qed.

Lemma monotone_content_to_lf content : monotone (content_to_lf env content).
Proof.
  unfold content_to_lf.
  apply monotone_bind; [apply monotone_record_call|]. intros _.
  apply monotone_bind; [apply monotone_lift|]. intros entries.
  apply monotone_bind; [apply monotone_lift | intros entry; apply monotone_ret].
Qed.

(** The work of [process_one_url] after the download. *)
Lemma monotone_after_download (p : ParsedURL) (content : string) :
  monotone (bind (content_to_lf env content) (fun lf =>
            bind (upload_to_hf env (get_agg_trade_out_path (symbol p) (month_str p))
                               (rmap RawFrame lf) (symbol p) (month_str p) true)
                 (fun _ => for_each process_interval
                             (interval_step env lf (symbol p) (month_str p))))).
Proof.
  apply monotone_bind; [apply monotone_content_to_lf|]. intros lf.
  apply monotone_bind; [apply monotone_upload_to_hf|]. intros _.
  apply monotone_for_each. intros i. unfold interval_step.
  apply monotone_bind; [apply monotone_print | intros _; apply monotone_upload_to_hf].
Qed.

Lemma monotone_process_one_url url : monotone (process_one_url env url).
Proof.
  unfold process_one_url. apply monotone_bind; [apply monotone_parse_url|]. intros p.
  destruct (bool_decide _); [apply monotone_print|].
  apply monotone_bind; [apply monotone_download_zip_file|]. intros content.
  apply (monotone_after_download p content).
Qed.

Lemma monotone_attempt url : monotone (attempt env url).
Proof.
  unfold attempt. apply monotone_try_except; [apply monotone_process_one_url|].
  intros e. apply monotone_bind; [apply monotone_print|]. intros _.
  apply monotone_append_error_log.
Qed.

(** X15 - a run only adds: whatever the URLs and whatever fails, no
    path of the repository is lost, and the commits, the calls made,
    the standard output and the error log of the end extend those of
    the start. *)
Theorem run_is_append_only (urls : list string) (w : World F) :
  let w' := (main_loop env urls w).2 in
  (forall path, is_Some (remote w !! path) -> is_Some (remote w' !! path)) /\
  (exists l, commits w' = commits w ++ l) /\
  (exists l, calls w' = calls w ++ l) /\
  (exists s, error_log w' = error_log w +:+ s).
Proof.
  intros w'.
  pose proof (monotone_for_each urls (attempt env) monotone_attempt w) as Hex.
  destruct Hex as (Hr & Hc & Hk & _ & Hl). by repeat split.
Qed.
End AppendOnly.

(** ** Reruns, repeated URLs and partial publishes *)
Section Reruns.
Import PyStr Contract Behaviour.
Context {F : Type} `{Float64 F}.
Variable env : Env F.

(** [parse_url] computes on the URL alone. *)
Lemma parse_url_parsed url (w : World F) :
  parse_url url w =
    match parsed url with
    | OK p => (OK p, mkWorld (remote w) (commits w) (local_files w)
                             (stdout w ++ [MsgParsed p]) (error_log w) (calls w))
    | Raise e => (Raise e, w)
    end.
Proof.
  unfold parsed, parse_url.
  repeat (match goal with |- context [if negb ?b then _ else _] => destruct b end;
          cbn [negb]; try reflexivity).
  unfold bind, lift.
  destruct (item (last_item (split "/" url))) as [f|e]; [|reflexivity].
  destruct (item (first_item (split "-" f))) as [sym|e]; [|reflexivity].
  by destruct (endswith sym "USDT").
Qed.

(** What [parse_url] raises derives from Exception. *)
Lemma parsed_raise_caught url e : parsed url = Raise e -> is_Exception e = true.
Proof.
  intros Hp. pose proof (sound_parse_url (F:=unit) url blank) as Hsd.
  unfold parsed in Hp. by rewrite Hp in Hsd.
Qed.

Lemma attempt_settled url (w : World F) :
  settled env url = true ->
  exists ms s,
    attempt env url w =
      (OK tt, mkWorld (remote w) (commits w) (local_files w) ms s (calls w)).
Proof.
  intros Hs.
  unfold settled in Hs. unfold attempt, try_except, process_one_url. unfold bind at 1.
  rewrite parse_url_parsed. destruct (parsed url) as [p|e] eqn:Hp.
  - rewrite Hs. by do 2 eexists.
  - rewrite (parsed_raise_caught _ _ Hp). by do 2 eexists.
Qed.

(** X16 - a run over URLs that are all refused by [parse_url] or
    already have their raw path in the snapshot calls no collaborator:
    no request, no extraction, no write and no upload is made, and the
    repository, the commits and the local directory are unchanged. *)
Theorem settled_urls_make_no_call (urls : list string) (w : World F) :
  forallb (settled env) urls = true ->
  let w' := (main_loop env urls w).2 in
  calls w' = calls w /\ remote w' = remote w /\ commits w' = commits w /\
  local_files w' = local_files w.
Proof.
  revert w. induction urls as [|u us IH]; intros w; [by intros _|].
  cbn [forallb]. intros [Hu Hus]%andb_true_iff. cbv zeta.
  rewrite main_loop_cons.
  destruct (attempt_settled u w Hu) as (ms & s & ->).
  exact (IH _ Hus).
Qed.

(** X17 - the decision to fetch looks at the snapshot only: a URL that
    parses and whose raw path is not in the snapshot is requested over
    HTTP first thing, even when the repository already holds that path
    because the same URL was processed earlier in the run. *)
Theorem unlisted_url_is_fetched (url : string) (p : ParsedURL) (w : World F) :
  parsed url = OK p ->
  get_agg_trade_out_path (symbol p) (month_str p) ∉ files env ->
  exists rest, calls (process_one_url env url w).2 = calls w ++ CallGet url :: rest.
Proof.
  intros Hp Hnin. unfold process_one_url. unfold bind at 1.
  rewrite parse_url_parsed, Hp. rewrite bool_decide_eq_false_2 by assumption.
  unfold bind at 1. rewrite download_zip_file_run. cbn [calls].
  destruct (http_get env (calls w) url) as [content|e]; [|by exists []].
  match goal with |- context [touched ?ms ?cs ?w0] => set (w1 := touched ms cs w0) end.
  destruct (monotone_after_download env p content w1) as (_ & _ & [l Hl] & _).
  exists l. unfold interval_step in Hl. rewrite Hl. unfold w1. cbn [touched calls].
  by rewrite <- app_assoc.
Qed.

Lemma keeps_path_bind {A B} path (m : M F A) (k : A -> M F B) :
  keeps_path path m -> (forall a, keeps_path path (k a)) -> keeps_path path (bind m k).
Proof.
  intros Hm Hk w. unfold bind. specialize (Hm w).
  destruct (m w) as [[a|e] w1]; cbn in *; [|exact Hm].
  by rewrite Hk.
Qed.

Lemma keeps_path_for_each {A} path (l : list A) (body : A -> M F unit) :
  (forall a, keeps_path path (body a)) -> keeps_path path (for_each l body).
Proof.
  intros Hb. induction l as [|x l IH]; cbn [for_each]; [done|].
  apply keeps_path_bind; [apply Hb | intros _; exact IH].
Qed.

(** A publish changes no other path of the repository, however it
    ends. *)
Lemma upload_to_hf_keeps_other path other lf sym month skip :
  other <> path -> keeps_path other (upload_to_hf env path lf sym month skip).
Proof.
  intros Hne w.
  destruct (skip && bool_decide (path ∈ files env)) eqn:Hskip.
  - unfold upload_to_hf. by rewrite Hskip.
  - rewrite upload_to_hf_forced by assumption.
    destruct lf as [fr|e]; [|reflexivity]. cbv zeta.
    destruct (hub_upload env _ path); [reflexivity|].
    cbn [snd published remote]. by apply lookup_insert_ne.
Qed.

(** X18 - there is no rollback: once the raw table of a URL is
    uploaded it stays in the repository under the raw path, whether the
    intervals that follow are published, skipped or fail. *)
Theorem raw_publish_is_kept (url : string) (p : ParsedURL) (w : World F)
        (content : string) (entry : string * string)
        (entries : list (string * string)) (scanned : list (RawTrade F)) :
  let raw_path := get_agg_trade_out_path (symbol p) (month_str p) in
  parsed url = OK p ->
  raw_path ∉ files env ->
  http_get env (calls w) url = OK content ->
  zip_entries env content = OK (entry :: entries) ->
  scan_csv env entry.2 = OK scanned ->
  hub_upload env (calls w ++ [CallGet url; CallExtract; CallSink raw_path]) raw_path
    = None ->
  remote (process_one_url env url w).2 !! raw_path
    = Some (mkParquet (RawFrame (drop_nulls scanned)) (symbol p) (month_str p)).
Proof.
  intros raw_path Hp Hnin Hget Hzip Hscan Hhub.
  unfold process_one_url. unfold bind at 1.
  rewrite parse_url_parsed, Hp. rewrite bool_decide_eq_false_2 by assumption.
  unfold bind at 1. rewrite download_zip_file_run. cbn [calls]. rewrite Hget.
  unfold bind at 1. rewrite content_to_lf_run, Hzip, Hscan. cbn [rmap rbind].
  unfold bind at 1. rewrite upload_to_hf_run by assumption.
  cbv zeta. cbn [touched calls]. rewrite <- !app_assoc. cbn [app].
  fold raw_path. rewrite Hhub.
  match goal with |- context [published raw_path ?pq ?w0] =>
    set (w3 := published raw_path pq w0) end.
  assert (Hkeep : keeps_path raw_path
            (for_each process_interval
               (interval_step env (OK (drop_nulls scanned)) (symbol p) (month_str p)))).
  { apply keeps_path_for_each. intros i. unfold interval_step.
    apply keeps_path_bind; [done|]. intros _.
    apply upload_to_hf_keeps_other. intros Heq. symmetry in Heq.
    by apply kline_path_not_raw in Heq. }
  unfold interval_step in Hkeep. rewrite Hkeep.
  unfold w3. cbn [published remote]. apply lookup_insert_eq.
Qed.
End Reruns.

Lemma settled_urls_make_no_call_witness :
  let env := with_files ["agg_trades/symbol=BTCUSDT/month=2024-01/data.parquet"] Demo.env in
  calls (main_loop env [Demo.url1; ""; Demo.url1] Demo.world0).2 = [].
Proof.
  intros env.
  destruct (settled_urls_make_no_call env [Demo.url1; ""; Demo.url1] Demo.world0)
    as (Hc & _).
  - vm_compute. reflexivity.
  - exact Hc.
Defined.

Lemma unlisted_url_is_fetched_witness :
  let w1 := (process_one_url Demo.env Demo.url1 Demo.world0).2 in
  is_Some (remote w1 !! "agg_trades/symbol=BTCUSDT/month=2024-01/data.parquet") /\
  exists rest,
    calls (process_one_url Demo.env Demo.url1 w1).2 = calls w1 ++ CallGet Demo.url1 :: rest.
Proof.
  intros w1. split; [vm_compute; eexists; reflexivity|].
  apply (unlisted_url_is_fetched Demo.env Demo.url1
           (mkParsedURL Demo.url1 "BTCUSDT-aggTrades-2024-01.zip" "BTCUSDT" "2024-01")).
  - vm_compute. reflexivity.
  - vm_compute. apply not_elem_of_nil.
Defined.

Lemma raw_publish_is_kept_witness :
  is_Some (remote (process_one_url Demo.env Demo.url1 Demo.world0).2
             !! "agg_trades/symbol=BTCUSDT/month=2024-01/data.parquet").
Proof.
  eexists.
  apply (raw_publish_is_kept Demo.env Demo.url1
           (mkParsedURL Demo.url1 "BTCUSDT-aggTrades-2024-01.zip" "BTCUSDT" "2024-01")
           Demo.world0 "PK" ("trades.csv", "PK") [] Demo.rows).
  - vm_compute. reflexivity.
  - vm_compute. apply not_elem_of_nil.
  - reflexivity.
  - reflexivity.
  - reflexivity.
  - reflexivity.
Defined.

(** ** The rows of the aggregated table *)
Section Candles.
Import Contract Behaviour.
Context {F : Type} `{Float64 F}.

Lemma window_start_bounds w t :
  0 < w ->
  Dynamic.window_start w t <= t < Dynamic.window_start w t + w /\
  (w | Dynamic.window_start w t).
Proof.
  intros Hw. unfold Dynamic.window_start.
  pose proof (Z.div_mod t w ltac:(lia)) as Hdiv.
  pose proof (Z.mod_pos_bound t w Hw) as Hmod.
  split; [lia|]. by exists (t / w).
Qed.

(** X19 - for rows sorted by [transact_time], the rows of the
    aggregated table are the windows of width [every] counted from the
    epoch and closed on the left: the start of every output row is a
    multiple of the width, every trade lies in the window of one
    output row, start included and end excluded, and every output row
    holds such a trade. *)
Theorem windows_are_epoch_aligned (rows : list (RawTrade F)) (label : string) (w : Z) :
  Duration.parse label = Some w ->
  Dynamic.sorted transact_time rows = true ->
  exists out,
    join_to_interval (OK rows) label = OK out /\
    (forall o, o ∈ out -> (w | datetime o)) /\
    (forall r, r ∈ rows ->
       exists o, o ∈ out /\ datetime o <= instant r < datetime o + w) /\
    (forall o, o ∈ out ->
       exists r, r ∈ rows /\ datetime o <= instant r < datetime o + w).
Proof.
  intros Hw Hs.
  exists (map (agg label) (Dynamic.windows transact_time w rows)).
  split; [by apply join_to_interval_run|].
  pose proof (duration_parse_pos _ _ Hw) as Hpos.
  assert (Hkeys : forall k,
            k ∈ map datetime (map (agg label) (Dynamic.windows transact_time w rows))
            <-> exists r, r ∈ rows /\ Dynamic.key transact_time w r = k).
  { intros k. rewrite datetime_agg. apply windows_key_iff. }
  split; [|split].
  - intros o Ho.
    destruct (proj1 (Hkeys (datetime o))) as (r & _ & <-).
    { apply list_elem_of_In, in_map, list_elem_of_In, Ho. }
    apply window_start_bounds, Hpos.
  - intros r Hr.
    assert (Hk : Dynamic.key transact_time w r
                 ∈ map datetime (map (agg label) (Dynamic.windows transact_time w rows))).
    { apply Hkeys. by exists r. }
    apply list_elem_of_In, in_map_iff in Hk as (o & Hd & Ho).
    exists o. split; [by apply list_elem_of_In|]. rewrite Hd.
    apply (window_start_bounds w (instant r) Hpos).
  - intros o Ho.
    destruct (proj1 (Hkeys (datetime o))) as (r & Hr & <-).
    { apply list_elem_of_In, in_map, list_elem_of_In, Ho. }
    exists r. split; [exact Hr|]. apply (window_start_bounds w (instant r) Hpos).
Qed.

Lemma col_first_elem {A} (xs : list (option A)) (x : A) :
  Col.first xs = Some x -> Some x ∈ xs.
Proof. destruct xs as [|y ys]; [discriminate|]. cbn. intros ->. left. Qed.

Lemma col_last_elem {A} (xs : list (option A)) (x : A) :
  Col.last xs = Some x -> Some x ∈ xs.
Proof.
  unfold Col.last. induction xs as [|y ys IH]; [discriminate|].
  destruct ys as [|z zs]; [cbn; intros ->; left|].
  intros Hl. right. by apply IH.
Qed.

(** X20 - every output row is a well-formed candle: when the open or
    the close is not null, high and low are not null either and the
    open and the close lie between them, and low never exceeds high. *)
Theorem candles_are_ordered `{!Float64Laws F} (rows : list (RawTrade F))
        (label : string) (out : list (Kline F)) (o : Kline F) :
  join_to_interval (OK rows) label = OK out ->
  o ∈ out ->
  (forall p, open o = Some p \/ close o = Some p ->
     exists h l, high o = Some h /\ low o = Some l /\
                 f_leb l p = true /\ f_leb p h = true) /\
  (forall h l, high o = Some h -> low o = Some l -> f_leb l h = true).
Proof.
  intros Hout Ho.
  apply join_to_interval_ok_inv in Hout as (w & _ & _ & ->).
  apply list_elem_of_In, in_map_iff in Ho as ([k g] & <- & _).
  cbn [agg open close high low snd].
  assert (Hbound : forall p, Some p ∈ map price g ->
            exists h l, Col.max (map price g) = Some h /\ Col.min (map price g) = Some l /\
                        f_leb l p = true /\ f_leb p h = true).
  { intros p Hp.
    destruct (proj2 (max_fold_bound (map price g) None) _ Hp) as (h & Hh & Hph).
    destruct (proj2 (min_fold_bound (map price g) None) _ Hp) as (l & Hl & Hlp).
    by exists h, l. }
  split.
  - intros p [Hp|Hp]; apply Hbound; [by apply col_first_elem | by apply col_last_elem].
  - intros h l Hh Hl.
    destruct (pick_fold_elem _ _ _ _ f_min_pick Hl) as [|Hin]; [discriminate|].
    destruct (Hbound _ Hin) as (h' & l' & Hh' & _ & _ & Hle).
    congruence.
Qed.

Lemma contiguous_chain (r0 : RawTrade F) rs a :
  contiguous_from a (r0 :: rs) = true ->
  first_trade_id r0 = Some a /\
  exists b, last_trade_id (List.last rs r0) = Some b /\
            b - a + 1 = trade_count (r0 :: rs).
Proof.
  revert r0 a. induction rs as [|r1 rs IH]; intros r0 a; cbn [contiguous_from trade_count].
  - destruct (first_trade_id r0) as [a'|]; [|discriminate].
    cbn [List.last].
    destruct (last_trade_id r0) as [b0|]; [|discriminate].
    intros [[Ha' Hle]%andb_true_iff _]%andb_true_iff.
    apply Z.eqb_eq in Ha'. subst a'.
    split; [reflexivity|]. exists b0. split; [reflexivity | lia].
  - destruct (first_trade_id r0) as [a'|]; [|discriminate].
    destruct (last_trade_id r0) as [b0|] eqn:Hb0; [|discriminate].
    intros [[Ha' Hle]%andb_true_iff Hrest]%andb_true_iff.
    apply Z.eqb_eq in Ha'. subst a'.
    split; [reflexivity|].
    destruct (IH r1 (b0 + 1) Hrest) as (_ & b & Hb & Hcount).
    exists b. rewrite last_cons_default. split; [exact Hb|].
    cbn [trade_count] in Hcount. lia.
Qed.

(** X21 - why the trade count is computed from two ids only: when the
    trade ids of the rows of a window follow one another without gap,
    the count of the output row is the number of trades that the rows
    stand for, as long as it fits in an Int64. *)
Theorem num_trades_counts_trades (label : string) (k : Z) (g : list (RawTrade F)) :
  g <> [] ->
  contiguous g = true ->
  Int64.in_range (trade_count g - 1) ->
  Int64.in_range (trade_count g) ->
  num_trades (agg label (k, g)) = Some (trade_count g).
Proof.
  destruct g as [|r0 rs]; [done|]. intros _ Hc Hr1 Hr2.
  unfold contiguous in Hc. destruct (first_trade_id r0) as [a|] eqn:Ha; [|discriminate].
  destruct (contiguous_chain _ _ _ Hc) as (_ & b & Hb & Hcount).
  cbn [agg num_trades snd]. unfold num_trades_expr.
  rewrite col_last_map, Hb. cbn [map Col.first]. rewrite Ha. cbn [Col.lift2].
  unfold Int64.add, Int64.sub. rewrite <- Hcount in Hr1, Hr2 |- *.
  rewrite (wrap_in_range (b - a)) by (by replace (b - a) with (b - a + 1 - 1) by lia).
  by rewrite wrap_in_range.
Qed.
End Candles.

Lemma windows_are_epoch_aligned_witness :
  exists out,
    join_to_interval (OK Demo.rows) "1h" = OK out /\
    map datetime out = [0; 3600000] /\
    (forall o, o ∈ out -> (3600000 | datetime o)).
Proof.
  destruct (windows_are_epoch_aligned (F:=Z) Demo.rows "1h" 3600000)
    as (out & Hout & Hd & _).
  - reflexivity.
  - reflexivity.
  - exists out. split; [exact Hout|]. split; [|exact Hd].
    vm_compute in Hout. by injection Hout as <-.
Defined.

Lemma candles_are_ordered_witness :
  f_leb (F:=Z) 10 12 = true.
Proof.
  destruct (candles_are_ordered (F:=Z) Demo.rows "1h"
              (map (agg "1h") (Dynamic.windows transact_time 3600000 Demo.rows))
              (agg "1h" (0, take 3 Demo.rows))) as (_ & Hlh).
  - vm_compute. reflexivity.
  - apply list_elem_of_here.
  - apply (Hlh 12 10); reflexivity.
Defined.

Lemma num_trades_counts_trades_witness :
  num_trades (agg "1h" (0, take 3 Demo.rows)) = Some 9.
Proof.
  apply (num_trades_counts_trades (F:=Z) "1h" 0 (take 3 Demo.rows)).
  - discriminate.
  - reflexivity.
  - vm_compute. split; [discriminate | reflexivity].
  - vm_compute. split; [discriminate | reflexivity].
Defined.

(** ** A URL that goes through *)
Section FullRun.
Import Contract Behaviour.
Context {F : Type} `{Float64 F}.
Variable env : Env F.
Hypothesis hub_accepts : forall history path, hub_upload env history path = None.

Lemma process_interval_parses i :
  i ∈ process_interval -> exists w, Duration.parse i = Some w.
Proof.
  unfold process_interval. intros Hi.
  repeat (apply elem_of_cons in Hi as [->|Hi]; [by eexists|]).
  by apply not_elem_of_nil in Hi.
Qed.

Lemma interval_step_success lf sym month i ks (w : World F) :
  get_kline_out_path sym month i ∉ files env ->
  join_to_interval lf i = OK ks ->
  exists w',
    interval_step env lf sym month i w = (OK tt, w') /\
    calls w' = calls w ++ publish_calls (get_kline_out_path sym month i) /\
    commits w' = commits w ++ ["Uploaded " +:+ get_kline_out_path sym month i] /\
    remote w' !! get_kline_out_path sym month i
      = Some (mkParquet (KlineFrame ks) sym month).
Proof.
  intros Hnin Hks. unfold interval_step, bind, print.
  rewrite upload_to_hf_run by assumption. rewrite Hks. cbn [rmap rbind]. cbv zeta.
  rewrite hub_accepts. eexists. split; [reflexivity|].
  cbn [published calls commits remote]. repeat split. apply lookup_insert_eq.
Qed.

Lemma interval_loop_success lf sym month (l : list string) (w : World F) :
  (forall i, i ∈ l -> get_kline_out_path sym month i ∉ files env) ->
  (forall i, i ∈ l -> exists ks, join_to_interval lf i = OK ks) ->
  exists w',
    for_each l (interval_step env lf sym month) w = (OK tt, w') /\
    calls w' = calls w ++
               concat (map (fun i => publish_calls (get_kline_out_path sym month i)) l) /\
    commits w' = commits w ++
                 map (fun i => "Uploaded " +:+ get_kline_out_path sym month i) l.
Proof.
  revert w. induction l as [|i l IH]; intros w Hnin Hjoin.
  - exists w. cbn. by rewrite !app_nil_r.
  - destruct (Hjoin i) as [ks Hks]; [left|].
    destruct (interval_step_success lf sym month i ks w) as (w1 & Hstep & Hc & Hm & _);
      [apply Hnin; left | exact Hks |].
    destruct (IH w1) as (w' & Hloop & Hc' & Hm').
    { intros j Hj. apply Hnin. by right. }
    { intros j Hj. apply Hjoin. by right. }
    exists w'. cbn [for_each]. unfold bind. rewrite Hstep.
    split; [exact Hloop|].
    rewrite Hc', Hc, Hm', Hm. cbn [map concat]. by rewrite <- !app_assoc.
Qed.

(** X22 - the order of a URL that goes through: when nothing of the
    URL is in the snapshot, the archive is fetched and extracted, its
    rows are sorted by time and every upload is accepted,
    [process_one_url] returns normally after one request, one
    extraction, the publish of the raw table and then the publish of
    the five intervals in the order 1m, 5m, 15m, 30m, 1h, with one
    commit for each of the six files. *)
Theorem url_goes_through (url : string) (p : ParsedURL) (w : World F)
        (content : string) (entry : string * string)
        (entries : list (string * string)) (scanned : list (RawTrade F)) :
  let raw_path := get_agg_trade_out_path (symbol p) (month_str p) in
  let kline_path := get_kline_out_path (symbol p) (month_str p) in
  parsed url = OK p ->
  raw_path ∉ files env ->
  (forall i, i ∈ process_interval -> kline_path i ∉ files env) ->
  http_get env (calls w) url = OK content ->
  zip_entries env content = OK (entry :: entries) ->
  scan_csv env entry.2 = OK scanned ->
  Dynamic.sorted transact_time (drop_nulls scanned) = true ->
  exists w',
    process_one_url env url w = (OK tt, w') /\
    calls w' = calls w ++ [CallGet url; CallExtract] ++ publish_calls raw_path ++
               concat (map (fun i => publish_calls (kline_path i)) process_interval) /\
    commits w' = commits w ++
                 ("Uploaded " +:+ raw_path) ::
                 map (fun i => "Uploaded " +:+ kline_path i) process_interval.
Proof.
  intros raw_path kline_path Hp Hraw Hkl Hget Hzip Hscan Hsorted.
  unfold process_one_url. unfold bind at 1.
  rewrite parse_url_parsed, Hp. rewrite bool_decide_eq_false_2 by assumption.
  unfold bind at 1. rewrite download_zip_file_run. cbn [calls]. rewrite Hget.
  unfold bind at 1. rewrite content_to_lf_run, Hzip, Hscan. cbn [rmap rbind].
  unfold bind at 1. rewrite upload_to_hf_run by assumption.
  cbv zeta. rewrite hub_accepts.
  match goal with |- context [published ?path ?pq ?w0] =>
    set (w3 := published path pq w0) end.
  destruct (interval_loop_success (OK (drop_nulls scanned)) (symbol p) (month_str p)
              process_interval w3 Hkl) as (w' & Hloop & Hc & Hm).
  { intros i Hi. destruct (process_interval_parses i Hi) as [wd Hwd].
    eexists. by apply join_to_interval_run with (w := wd). }
  exists w'. split; [exact Hloop|].
  rewrite Hc, Hm. unfold w3. cbn [published touched calls commits].
  split; by rewrite <- !app_assoc.
Qed.
End FullRun.

Lemma url_goes_through_witness :
  exists w',
    process_one_url Demo.env Demo.url1 Demo.world0 = (OK tt, w') /\
    length (commits w') = 6%nat /\ length (calls w') = 20%nat.
Proof.
  destruct (url_goes_through Demo.env (fun _ _ => eq_refl) Demo.url1
              (mkParsedURL Demo.url1 "BTCUSDT-aggTrades-2024-01.zip" "BTCUSDT" "2024-01")
              Demo.world0 "PK" ("trades.csv", "PK") [] Demo.rows)
    as (w' & Hrun & Hc & Hm).
  - vm_compute. reflexivity.
  - vm_compute. apply not_elem_of_nil.
  - intros i _. vm_compute. apply not_elem_of_nil.
  - reflexivity.
  - reflexivity.
  - reflexivity.
  - reflexivity.
  - exists w'. split; [exact Hrun|]. rewrite Hc, Hm. split; reflexivity.
Defined.
